(** * umi-mut-sim: spiking variants into UMI-tagged reads

    A shallow embedding of [umi-mut-sim.cpp] and the properties of its
    allele selector, stream synchronizer, read mutation engine and FASTQ
    emission.

    Conventions of the embedding.
    - C strings ([char *]) and [std::string] buffers are [list ascii]; a
      [push_back] appends at the end of the list.
    - [int] variables are [Z]; the coordinates and counters of real inputs
      stay far from the bounds of their types, signed wrap-around is
      undefined in C and is not modelled.  [uint32_t] values are [Z] kept in
      range by an explicit [mod 2^32], or [N] where only bits are taken.
    - The source's [double] arithmetic is kept behind the [Double] interface
      (zero, addition, comparison, the quotient of [umistr2prob]); statements
      about the engine hold for every implementation of it, binary64
      included. *)

From Stdlib Require Import Floats Uint63.
From Stdlib Require Import ZArith NArith QArith List Ascii String Bool Lia Sorted.
From stdpp Require Import base list.
Import ListNotations.

Local Open Scope Z_scope.

(** ** Characters and strings *)

Definition cstr (s : string) : list ascii := list_ascii_of_string s.

Definition code (c : ascii) : Z := Z.of_N (N_of_ascii c).

(** The terminating character of a C string. *)
Definition NUL : ascii := Ascii.zero.

(** [strchr str c] for [c] other than the terminator: the part of [str] that
    starts at the first [c], or the null pointer. *)
Fixpoint strchr (str : list ascii) (c : ascii) : option (list ascii) :=
  match str with
  | [] => None
  | a :: rest => if Ascii.eqb a c then Some str else strchr rest c
  end.

(** [s.c_str()] as [%s] prints it: the characters up to the first NUL. *)
Fixpoint c_str (s : list ascii) : list ascii :=
  match s with
  | [] => []
  | a :: rest => if Ascii.eqb a NUL then [] else a :: c_str rest
  end.

(** ** Reads and variants *)

(** An alignment record [bam1_t], by what the program reads of it.
    [bam_query] holds the [core.l_qseq] query positions, each with its base
    code [bam_seqi(bam_get_seq(b), i)] and its raw quality
    [bam_get_qual(b)[i]]; [bam_get_cigar] holds the [core.n_cigar] words. *)
Record bam1 := {
  bam_get_qname : list ascii;
  core_flag : N;
  core_tid : Z;
  core_pos : Z;
  bam_get_cigar : list N;
  bam_query : list (N * ascii)
}.

Definition l_qseq (b : bam1) : Z := Z.of_nat (length (bam_query b)).

(** A variant record [bcf1_t] after [bcf_unpack]: [allele0] and [allele1]
    are [d.allele[0]] and [d.allele[1]].  [FA] is what the lookup of the
    [FA] tag delivers: [Some x] when it reports [ndst_val > 0] values, [x]
    being the entry [bcffloats[ndst_val - 1]], and [None] otherwise. *)
Record bcf1 {F : Type} := {
  rid : Z;
  pos : Z;
  allele0 : list ascii;
  allele1 : list ascii;
  FA : option F
}.
Arguments bcf1 F : clear implicits.

(** ** The external library (htslib) and the arithmetic on [double]

    [khash.h]'s two hash functions and [sam.h]'s [bam_endpos] are not part of
    this repository; they are taken as an interface.  [Double] is the
    arithmetic the source performs on [double]: [of_Q q] is the [double] that
    denotes the rational [q]. *)

Class Double (F : Type) := {
  dzero : F;
  dadd : F -> F -> F;
  dle : F -> F -> bool;
  of_Q : Q -> F
}.

Class Htslib := {
  __ac_X31_hash_string : list ascii -> Z;
  __ac_Wang_hash : Z -> Z;
  bam_endpos : bam1 -> Z
}.

Definition uint32 (z : Z) : Z := z mod 2 ^ 32.

(** ** The allele selector *)

(** The default allele fraction, 0.1 (in the program the [double] nearest
    to it). *)
Definition DEFAULT_ALLELE_FRAC : Q := 1 # 10.

(** [ispowerof2] is called on the counters, which are positive there and
    fit its [int] parameter. *)
Definition ispowerof2 (n : Z) : bool := 0 =? Z.land n (n - 1).

(** The local [umistr] of [umistr2prob]: the string that is hashed. *)
Definition umistr (str : list ascii) : list ascii :=
  match strchr str "#"%char with
  | None => str
  | Some umistr1 => umistr1
  end.

(** [umistr2prob str umihash]: the returned fraction and the value stored in
    [umihash].  [k & 0xffffff] is below [2^24] and [0x1000000] is a power of
    two, so the quotient of the two [double]s is exact: the rational is the
    value of the returned [double]. *)
Definition umistr2prob `{Htslib} (str : list ascii) : Q * Z :=
  let k := uint32 (__ac_Wang_hash (uint32 (Z.lxor (uint32 (__ac_X31_hash_string (umistr str))) 0))) in
  (inject_Z (Z.land k 0xffffff) / inject_Z 0x1000000, k)%Q.

(** ** Reverse and complement *)

(** [data[i] = c]. *)
Definition set_data (i : ascii) (c : ascii) (data : list ascii) : list ascii :=
  <[ nat_of_ascii i := c ]> data.

(** The table [THE_REV_COMPLEMENT.data] as the constructor of
    [_RevComplement] fills it: the identity on the 256 codes, then the eight
    letters. *)
Record _RevComplement := { data : list ascii }.

Definition THE_REV_COMPLEMENT : _RevComplement :=
  let data := map ascii_of_nat (seq 0 256) in
  let data := set_data "A" "T" data in
  let data := set_data "T" "A" data in
  let data := set_data "C" "G" data in
  let data := set_data "G" "C" data in
  let data := set_data "a" "t" data in
  let data := set_data "t" "a" data in
  let data := set_data "c" "g" data in
  let data := set_data "g" "c" data in
  {| data := data |}.

(** [THE_REV_COMPLEMENT.data[a]].  A character above 127 would index the
    table below its start where [char] is signed; the bases and the letters
    of an allele are plain ASCII. *)
Definition data_at (a : ascii) : ascii :=
  default a (data THE_REV_COMPLEMENT !! nat_of_ascii a).

Definition complement (astring : list ascii) : list ascii :=
  map data_at astring.

(** One turn of the loop of [reverse]: swap the characters at [i] and
    [sz-1-i]. *)
Definition swap_at (sz i : nat) (astring : list ascii) : list ascii :=
  match astring !! i, astring !! (sz - 1 - i)%nat with
  | Some tmp, Some other =>
      <[ (sz - 1 - i)%nat := tmp ]> (<[ i := other ]> astring)
  | _, _ => astring
  end.

(** [for (i = 0; i < sz / 2; i++)], as [n] turns starting at [i]. *)
Fixpoint reverse_loop (sz : nat) (n i : nat) (astring : list ascii) : list ascii :=
  match n with
  | O => astring
  | S n' => reverse_loop sz n' (S i) (swap_at sz i astring)
  end.

Definition reverse (astring : list ascii) : list ascii :=
  let sz := length astring in
  reverse_loop sz (sz / 2)%nat 0%nat astring.

Definition is_acgt (c : ascii) : bool :=
  existsb (Ascii.eqb c) (cstr "ACGTacgt").

(** ** Diagnostics

    What the main loop prints on [stderr], one constructor per [fprintf]. *)
Inductive diag :=
| VariantBeforeRead (vrid vpos tid rpos : Z) (readname : list ascii)
| NewPrepVariant (vrid vpos : Z)
| VariantBeforeReadEnd (vrid vpos tid endpos : Z) (readname : list ascii)
| NewPushedVariant (vrid vpos : Z)
| VariantDestroyed (vrid vpos : Z)
| SpikedSnv (readname : list ascii) (vrid vpos : Z)
| MnvDecomposed (tid rpos : Z)
| SpikedIns (readname : list ascii) (vrid vpos : Z)
| SpikedDel (readname : list ascii) (vrid vpos : Z)
| VariantFailed (tid rpos : Z)
| InvalidCigar (op tid rpos : Z) (readname : list ascii).

(** ** The stream synchronizer *)

Definition is_var1_before_var2 (tid1 pos1 tid2 pos2 : Z) : bool :=
  (tid1 <? tid2) || ((tid1 =? tid2) && (pos1 <? pos2)).

Section Synchronizer.
Context {F : Type} `{Htslib}.

(** [vcf_rec] as [main] sets it up before the first read. *)
Definition vcf_rec_init : bcf1 F :=
  {| rid := -1; pos := 0; allele0 := []; allele1 := []; FA := None |}.

(** The variant source is the list of the records not read yet.
    [vcf_read] delivers the next one and returns 0; at the end of the
    source it returns -1 and leaves [vcf_rec] as it was. *)
Definition vcf_read (vcf_fp : list (bcf1 F)) (vcf_rec : bcf1 F)
  : Z * list (bcf1 F) * bcf1 F :=
  match vcf_fp with
  | [] => (-1, [], vcf_rec)
  | v :: rest => (0, rest, v)
  end.

(** The first loop of an iteration (skip-ahead).  The [match] is the call
    of [vcf_read]; the recursion descends the source. *)
Fixpoint skip_ahead (b : bam1) (vcf_fp : list (bcf1 F)) (vcf_rec : bcf1 F)
    (vcf_read_ret : Z) (err : list diag) {struct vcf_fp}
  : list (bcf1 F) * bcf1 F * Z * list diag :=
  if is_var1_before_var2 (rid vcf_rec) (pos vcf_rec) (core_tid b) (core_pos b) then
    if negb (vcf_read_ret =? -1) then
      let err := err ++ [VariantBeforeRead (rid vcf_rec) (pos vcf_rec)
                           (core_tid b) (core_pos b) (bam_get_qname b)] in
      match vcf_fp with
      | [] => ([], vcf_rec, -1, err ++ [NewPrepVariant (rid vcf_rec) (pos vcf_rec)])
      | v :: rest => skip_ahead b rest v 0 (err ++ [NewPrepVariant (rid v) (pos v)])
      end
    else (vcf_fp, vcf_rec, vcf_read_ret, err)
  else (vcf_fp, vcf_rec, vcf_read_ret, err).

(** The second loop (fetch-ahead): the record pushed is the one
    [vcf_read] has just delivered. *)
Fixpoint fetch_ahead (b : bam1) (vcf_fp : list (bcf1 F)) (vcf_rec : bcf1 F)
    (vcf_read_ret : Z) (vcf_list : list (bcf1 F)) (err : list diag) {struct vcf_fp}
  : list (bcf1 F) * bcf1 F * Z * list (bcf1 F) * list diag :=
  if is_var1_before_var2 (rid vcf_rec) (pos vcf_rec) (core_tid b) (bam_endpos b) then
    if negb (vcf_read_ret =? -1) then
      let err := err ++ [VariantBeforeReadEnd (rid vcf_rec) (pos vcf_rec)
                           (core_tid b) (bam_endpos b) (bam_get_qname b)] in
      match vcf_fp with
      | [] => ([], vcf_rec, -1, vcf_list,
               err ++ [NewPushedVariant (rid vcf_rec) (pos vcf_rec)])
      | v :: rest =>
          fetch_ahead b rest v 0 (vcf_list ++ [v])
            (err ++ [NewPushedVariant (rid v) (pos v)])
      end
    else (vcf_fp, vcf_rec, vcf_read_ret, vcf_list, err)
  else (vcf_fp, vcf_rec, vcf_read_ret, vcf_list, err).

(** The third loop (evict). *)
Fixpoint evict (b : bam1) (vcf_list : list (bcf1 F)) (err : list diag)
  : list (bcf1 F) * list diag :=
  match vcf_list with
  | front :: rest =>
      if is_var1_before_var2 (rid front) (pos front) (core_tid b) (core_pos b)
      then evict b rest (err ++ [VariantDestroyed (rid front) (pos front)])
      else (vcf_list, err)
  | [] => ([], err)
  end.

(** The three loops in order: the source, [vcf_rec], [vcf_read_ret], the
    window [vcf_list] and [stderr] after them. *)
Definition synchronize (b : bam1) (vcf_fp : list (bcf1 F)) (vcf_rec : bcf1 F)
    (vcf_read_ret : Z) (vcf_list : list (bcf1 F)) (err : list diag)
  : list (bcf1 F) * bcf1 F * Z * list (bcf1 F) * list diag :=
  let '(vcf_fp, vcf_rec, vcf_read_ret, err) :=
    skip_ahead b vcf_fp vcf_rec vcf_read_ret err in
  let '(vcf_fp, vcf_rec, vcf_read_ret, vcf_list, err) :=
    fetch_ahead b vcf_fp vcf_rec vcf_read_ret vcf_list err in
  let '(vcf_list, err) := evict b vcf_list err in
  (vcf_fp, vcf_rec, vcf_read_ret, vcf_list, err).
End Synchronizer.

(** ** Alignment records: macros of [sam.h] *)

Definition BAM_CMATCH : Z := 0.
Definition BAM_CINS : Z := 1.
Definition BAM_CDEL : Z := 2.
Definition BAM_CREF_SKIP : Z := 3.
Definition BAM_CSOFT_CLIP : Z := 4.
Definition BAM_CHARD_CLIP : Z := 5.
Definition BAM_CPAD : Z := 6.
Definition BAM_CEQUAL : Z := 7.
Definition BAM_CDIFF : Z := 8.
Definition BAM_CBACK : Z := 9.

Definition bam_cigar_op (c : N) : Z := Z.of_N (N.land c 15).
Definition bam_cigar_oplen (c : N) : Z := Z.of_N (N.shiftr c 4).
Definition bam_cigar_gen (l : N) (op : Z) : N := N.lor (N.shiftl l 4) (Z.to_N op).

Definition seq_nt16_str : list ascii := cstr "=ACMGRSVTWYHKDBN".

Definition at_index {A : Type} (l : list A) (i : Z) : option A :=
  if i <? 0 then None else l !! Z.to_nat i.

(** [seq_nt16_str[c]] for a base code [c], of which [bam_seqi] keeps four
    bits. *)
Definition nt16_char (c : N) : ascii :=
  nth (N.to_nat (N.land c 15)) seq_nt16_str NUL.

(** [seq_nt16_str[bam_seqi(seq, i)]] and [qual[i]]; [None] when [i] is not a
    query position of the record: the source then reads outside the record's
    sequence and quality. *)
Definition base_at (b : bam1) (i : Z) : option ascii :=
  match at_index (bam_query b) i with
  | Some (c, _) => Some (nt16_char c)
  | None => None
  end.

Definition qual_at (b : bam1) (i : Z) : option ascii :=
  match at_index (bam_query b) i with
  | Some (_, q) => Some q
  | None => None
  end.

Definition strlen (s : list ascii) : Z := Z.of_nat (length s).

(** ** The read mutation engine *)

Record counters := {
  num_kept_reads : Z;
  num_kept_snv : Z;
  num_kept_mnv : Z;
  num_kept_ins : Z;
  num_kept_del : Z;
  num_skip_reads : Z;
  num_skip_cmatches : Z
}.

(** The two kinds of [assert] of the emission: the sizes of the two buffers
    are equal, and every base is above the space character.  The program is
    taken as built with its assertions on. *)
Inductive assertion := EqualSizes | AboveSpace.

(** Why the process stops before the end of its input: [abort()] on an
    alignment operation, a failed [assert], a read outside the query
    positions of a record (undefined in C; the state kept with [Fault] is
    the one before the statements that read).  [OutOfFuel] is the model's
    own: a loop of the model given too few turns (it never is, see
    [match_loop_fuel]). *)
Inductive stop := Aborted | AssertFailed (a : assertion) | Fault | OutOfFuel.

Inductive status := Running | Stopped (why : stop).

Section Engine.
Context {F : Type} `{Double F}.

(** The variables the walk over a read's alignment operations works on.
    [vcf_rec_it] is the part of the window from the iterator on. *)
Record engine := {
  newseq : list ascii;
  newqual : list ascii;
  qpos : Z;
  rpos : Z;
  vcf_rec_it : list (bcf1 F);
  vcf_list_idx : Z;
  cnt : counters;
  stderr : list diag
}.

Definition push_back (s q : list ascii) (e : engine) : engine :=
  {| newseq := newseq e ++ s; newqual := newqual e ++ q;
     qpos := qpos e; rpos := rpos e;
     vcf_rec_it := vcf_rec_it e; vcf_list_idx := vcf_list_idx e;
     cnt := cnt e; stderr := stderr e |}.

Definition advance (dq dr : Z) (e : engine) : engine :=
  {| newseq := newseq e; newqual := newqual e;
     qpos := qpos e + dq; rpos := rpos e + dr;
     vcf_rec_it := vcf_rec_it e; vcf_list_idx := vcf_list_idx e;
     cnt := cnt e; stderr := stderr e |}.

Definition set_it (it : list (bcf1 F)) (idx : Z) (e : engine) : engine :=
  {| newseq := newseq e; newqual := newqual e;
     qpos := qpos e; rpos := rpos e;
     vcf_rec_it := it; vcf_list_idx := idx;
     cnt := cnt e; stderr := stderr e |}.

Definition count (f : counters -> counters) (e : engine) : engine :=
  {| newseq := newseq e; newqual := newqual e;
     qpos := qpos e; rpos := rpos e;
     vcf_rec_it := vcf_rec_it e; vcf_list_idx := vcf_list_idx e;
     cnt := f (cnt e); stderr := stderr e |}.

Definition fprintf (d : diag) (e : engine) : engine :=
  {| newseq := newseq e; newqual := newqual e;
     qpos := qpos e; rpos := rpos e;
     vcf_rec_it := vcf_rec_it e; vcf_list_idx := vcf_list_idx e;
     cnt := cnt e; stderr := stderr e ++ [d] |}.

Definition fprintf_if (cond : bool) (d : diag) (e : engine) : engine :=
  if cond then fprintf d e else e.
End Engine.
Arguments engine F : clear implicits.

Definition kept_reads (c : counters) : counters :=
  {| num_kept_reads := num_kept_reads c + 1; num_kept_snv := num_kept_snv c;
     num_kept_mnv := num_kept_mnv c; num_kept_ins := num_kept_ins c;
     num_kept_del := num_kept_del c; num_skip_reads := num_skip_reads c;
     num_skip_cmatches := num_skip_cmatches c |}.

Definition kept_snv (c : counters) : counters :=
  {| num_kept_reads := num_kept_reads c; num_kept_snv := num_kept_snv c + 1;
     num_kept_mnv := num_kept_mnv c; num_kept_ins := num_kept_ins c;
     num_kept_del := num_kept_del c; num_skip_reads := num_skip_reads c;
     num_skip_cmatches := num_skip_cmatches c |}.

Definition kept_mnv (c : counters) : counters :=
  {| num_kept_reads := num_kept_reads c; num_kept_snv := num_kept_snv c;
     num_kept_mnv := num_kept_mnv c + 1; num_kept_ins := num_kept_ins c;
     num_kept_del := num_kept_del c; num_skip_reads := num_skip_reads c;
     num_skip_cmatches := num_skip_cmatches c |}.

Definition kept_ins (c : counters) : counters :=
  {| num_kept_reads := num_kept_reads c; num_kept_snv := num_kept_snv c;
     num_kept_mnv := num_kept_mnv c; num_kept_ins := num_kept_ins c + 1;
     num_kept_del := num_kept_del c; num_skip_reads := num_skip_reads c;
     num_skip_cmatches := num_skip_cmatches c |}.

Definition kept_del (c : counters) : counters :=
  {| num_kept_reads := num_kept_reads c; num_kept_snv := num_kept_snv c;
     num_kept_mnv := num_kept_mnv c; num_kept_ins := num_kept_ins c;
     num_kept_del := num_kept_del c + 1; num_skip_reads := num_skip_reads c;
     num_skip_cmatches := num_skip_cmatches c |}.

Definition skip_reads (c : counters) : counters :=
  {| num_kept_reads := num_kept_reads c; num_kept_snv := num_kept_snv c;
     num_kept_mnv := num_kept_mnv c; num_kept_ins := num_kept_ins c;
     num_kept_del := num_kept_del c; num_skip_reads := num_skip_reads c + 1;
     num_skip_cmatches := num_skip_cmatches c |}.

Definition skip_cmatches (c : counters) : counters :=
  {| num_kept_reads := num_kept_reads c; num_kept_snv := num_kept_snv c;
     num_kept_mnv := num_kept_mnv c; num_kept_ins := num_kept_ins c;
     num_kept_del := num_kept_del c; num_skip_reads := num_skip_reads c;
     num_skip_cmatches := num_skip_cmatches c + 1 |}.

Section Walk.
Context {F : Type} `{Double F}.
Variable b : bam1.
Variable mutprob : F.
Variable defallelefrac : F.

(** The original base and quality at [qpos], appended to the buffers. *)
Definition copy_base (e : engine F) : option (engine F) :=
  match base_at b (qpos e), qual_at b (qpos e) with
  | Some nuc, Some q => Some (push_back [nuc] [q] e)
  | _, _ => None
  end.

(** The body of [if (mutprob <= allelefrac)] up to [is_mutated = true]:
    the variant [v] applied at index [j] of a match operation of length
    [cigar_oplen1].  It yields the new [j]. *)
Definition apply_variant (cigar_oplen1 j : Z) (v : bcf1 F) (e : engine F)
  : status * Z * engine F :=
  let newref := allele0 v in
  let newalt := allele1 v in
  let '(st, j, e) :=
    if (1 =? strlen newref) && (1 =? strlen newalt) then
      match qual_at b (qpos e) with
      | Some q =>
          let e := push_back [hd NUL newalt] [q] e in
          let e := count kept_snv e in
          (Running, j,
           fprintf_if (ispowerof2 (num_kept_snv (cnt e)))
             (SpikedSnv (bam_get_qname b) (rid v) (pos v)) e)
      | None => (Stopped Fault, j, e)
      end
    else if strlen newref =? strlen newalt then
      let e := fprintf (MnvDecomposed (core_tid b) (core_pos b)) e in
      match qual_at b (qpos e) with
      | Some q =>
          let e := push_back [hd NUL newalt] [q] e in
          (Running, j, count kept_mnv e)
      | None => (Stopped Fault, j, e)
      end
    else if (strlen newref =? 1) && (1 <? strlen newalt) then
      match qual_at b (qpos e) with
      | Some q =>
          let e := push_back newalt
                     (q :: repeat (ascii_of_nat 30) (length newalt - 1)) e in
          let e := count kept_ins e in
          (Running, j,
           fprintf_if (ispowerof2 (num_kept_ins (cnt e)))
             (SpikedIns (bam_get_qname b) (rid v) (pos v)) e)
      | None => (Stopped Fault, j, e)
      end
    else if (1 <? strlen newref) && (strlen newalt =? 1) then
      if strlen newref + j <? cigar_oplen1 then
        let e := advance (strlen newref - 1) (strlen newref - 1) e in
        let e := count kept_del e in
        (Running, j + (strlen newref - 1),
         fprintf_if (ispowerof2 (num_kept_del (cnt e)))
           (SpikedDel (bam_get_qname b) (rid v) (pos v)) e)
      else
        match copy_base e with
        | Some e => (Running, j, e)
        | None => (Stopped Fault, j, e)
        end
    else
      (Running, j, fprintf (VariantFailed (core_tid b) (core_pos b)) e) in
  match st with
  | Running => (Running, j, count kept_reads e)
  | Stopped _ => (st, j, e)
  end.

(** [allelefrac += (ndst_val > 0 ? bcffloats[ndst_val - 1] : defallelefrac)]. *)
Definition add_allelefrac (allelefrac : F) (v : bcf1 F) : F :=
  dadd allelefrac (match FA v with Some x => x | None => defallelefrac end).

(** The loop over the variants from [vcf_rec_it] to [vcf_rec_it_end], with
    the value [allelefrac] has when it is entered.  [None]: the loop ends
    with [is_mutated] false. *)
Fixpoint mutate_run (cigar_oplen1 j : Z) (run : list (bcf1 F)) (allelefrac : F)
    (e : engine F) : option (status * Z * engine F) :=
  match run with
  | [] => None
  | v :: rest =>
      let allelefrac := add_allelefrac allelefrac v in
      if dle mutprob allelefrac
      then Some (apply_variant cigar_oplen1 j v e)
      else mutate_run cigar_oplen1 j rest allelefrac e
  end.

(** The loop that moves [vcf_rec_it] past the variants before [(tid, rpos)],
    counting them in [vcf_list_idx]. *)
Fixpoint advance_it (tid rp : Z) (it : list (bcf1 F)) (idx : Z)
  : list (bcf1 F) * Z :=
  match it with
  | v :: rest =>
      if is_var1_before_var2 (rid v) (pos v) tid rp
      then advance_it tid rp rest (idx + 1)
      else (it, idx)
  | [] => ([], idx)
  end.

(** The variants from [vcf_rec_it] up to [vcf_rec_it_end]: those that
    follow [first] in the window with its [rid] and [pos]. *)
Fixpoint run_of (first : bcf1 F) (it : list (bcf1 F)) : list (bcf1 F) :=
  match it with
  | v :: rest =>
      if (rid v =? rid first) && (pos v =? pos first)
      then v :: run_of first rest
      else []
  | [] => []
  end.

(** One turn of the loop over the positions of a match operation: the
    body, then [qpos++; rpos++].  It yields the value of [j] at the end of
    the body. *)
Definition match_position (cigar_oplen1 j : Z) (e : engine F)
  : status * Z * engine F :=
  let '(it, idx) := advance_it (core_tid b) (rpos e) (vcf_rec_it e) (vcf_list_idx e) in
  let e := set_it it idx e in
  let unchanged (f : counters -> counters) :=
    match copy_base e with
    | Some e => (Running, j, count f e)
    | None => (Stopped Fault, j, e)
    end in
  let '(st, j, e) :=
    match vcf_rec_it e with
    | first :: _ =>
        if rpos e =? pos first then
          match mutate_run cigar_oplen1 j (run_of first (vcf_rec_it e)) dzero e with
          | Some r => r
          | None => unchanged skip_reads
          end
        else unchanged skip_cmatches
    | [] => unchanged skip_cmatches
    end in
  match st with
  | Running => (Running, j, advance 1 1 e)
  | Stopped _ => (st, j, e)
  end.

(** [for (int j = 0; j < cigar_oplen1; j++)] from a given [j], in at most
    [fuel] turns. *)
Fixpoint match_loop (cigar_oplen1 : Z) (fuel : nat) (j : Z) (e : engine F)
  : status * engine F :=
  if j <? cigar_oplen1 then
    match fuel with
    | O => (Stopped OutOfFuel, e)
    | S fuel =>
        match match_position cigar_oplen1 j e with
        | (Running, j, e) => match_loop cigar_oplen1 fuel (j + 1) e
        | (st, _, e) => (st, e)
        end
    end
  else (Running, e).

(** The loop of an insertion operation, [n] turns. *)
Fixpoint ins_loop (n : nat) (e : engine F) : status * engine F :=
  match n with
  | O => (Running, e)
  | S n =>
      match copy_base e with
      | Some e => ins_loop n (advance 1 0 e)
      | None => (Stopped Fault, e)
      end
  end.

(** One alignment operation [c]. *)
Definition cigar_step (c : N) (e : engine F) : status * engine F :=
  let cigar_op := bam_cigar_op c in
  let cigar_oplen := bam_cigar_oplen c in
  if (cigar_op =? BAM_CMATCH) || (cigar_op =? BAM_CEQUAL) || (cigar_op =? BAM_CDIFF)
  then match_loop cigar_oplen (Z.to_nat cigar_oplen) 0 e
  else if cigar_op =? BAM_CINS then ins_loop (Z.to_nat cigar_oplen) e
  else if cigar_op =? BAM_CSOFT_CLIP then (Running, advance cigar_oplen 0 e)
  else if cigar_op =? BAM_CDEL then (Running, advance 0 cigar_oplen e)
  else if cigar_op =? BAM_CHARD_CLIP then (Running, e)
  else (Stopped Aborted,
        fprintf (InvalidCigar cigar_op (core_tid b) (core_pos b) (bam_get_qname b)) e).

(** [for (int i = 0; i < bam_rec->core.n_cigar; i++)]. *)
Fixpoint cigar_walk (cigar : list N) (e : engine F) : status * engine F :=
  match cigar with
  | [] => (Running, e)
  | c :: rest =>
      match cigar_step c e with
      | (Running, e) => cigar_walk rest e
      | stopped => stopped
      end
  end.

(** The engine on one read: the buffers cleared, the cursors at the start
    of the read and of the window. *)
Definition engine_init (vcf_list : list (bcf1 F)) (c : counters) (err : list diag)
  : engine F :=
  {| newseq := []; newqual := []; qpos := 0; rpos := core_pos b;
     vcf_rec_it := vcf_list; vcf_list_idx := 0; cnt := c; stderr := err |}.

Definition mutate (vcf_list : list (bcf1 F)) (c : counters) (err : list diag)
  : status * engine F :=
  cigar_walk (bam_get_cigar b) (engine_init vcf_list c err).
End Walk.

(** ** Emission *)

Record gzfiles := { r1file : list ascii; r2file : list ascii }.

Definition flag_set (b : bam1) (mask : N) : bool :=
  negb (N.land (core_flag b) mask =? 0)%N.

(** The choice of [outfile]: the second file only for a read flagged 0x80
    and not 0x40. *)
Definition outfile_is_r2 (aln : bam1) : bool :=
  if flag_set aln 0x40 then false else flag_set aln 0x80.

Definition gzprintf (aln : bam1) (text : list ascii) (o : gzfiles) : gzfiles :=
  if outfile_is_r2 aln
  then {| r1file := r1file o; r2file := r2file o ++ text |}
  else {| r1file := r1file o ++ text; r2file := r2file o |}.

Definition newline : ascii := ascii_of_nat 10.

(** [c > ' '] on [char] values, [char] being signed. *)
Definition schar (c : ascii) : Z :=
  if code c <? 128 then code c else code c - 256.

Definition gt_space (c : ascii) : bool := schar " " <? schar c.

(** [(char)(c + 33)]. *)
Definition plus33 (c : ascii) : ascii :=
  ascii_of_N (Z.to_N ((code c + 33) mod 256)).

(** The two emission functions: what they write, and whether an [assert]
    stops the process on the way.  (They are declared [int] and end without
    a [return]; the caller does not use the value.) *)
Definition bamrec_write_fastq_raw (aln : bam1) (o : gzfiles) : status * gzfiles :=
  let o := gzprintf aln ("@"%char :: bam_get_qname aln ++ [newline]) o in
  let seq := map (fun p => nt16_char (fst p)) (bam_query aln) in
  if negb (forallb gt_space seq) then (Stopped (AssertFailed AboveSpace), o) else
  let seq := if flag_set aln 0x10 then complement (reverse seq) else seq in
  let o := gzprintf aln (c_str seq ++ newline :: "+"%char :: [newline]) o in
  let qual := map (fun p => plus33 (snd p)) (bam_query aln) in
  let qual := if flag_set aln 0x10 then reverse qual else qual in
  (Running, gzprintf aln (c_str qual ++ [newline]) o).

Definition bamrec_write_fastq (aln : bam1) (seq qual : list ascii) (o : gzfiles)
  : status * gzfiles :=
  if negb (length qual =? length seq)%nat
  then (Stopped (AssertFailed EqualSizes), o) else
  let qual := map plus33 qual in
  let o := gzprintf aln ("@"%char :: bam_get_qname aln ++ [newline]) o in
  let seq := if flag_set aln 0x10 then complement (reverse seq) else seq in
  if negb (forallb gt_space seq) then (Stopped (AssertFailed AboveSpace), o) else
  let o := gzprintf aln (c_str seq ++ newline :: "+"%char :: [newline]) o in
  let qual := if flag_set aln 0x10 then reverse qual else qual in
  (Running, gzprintf aln (c_str qual ++ [newline]) o).

(** ** The main loop *)

Section Main.
Context {F : Type} `{Double F} `{Htslib}.

(** The variables of [main] that live across reads. *)
Record process := {
  m_vcf_fp : list (bcf1 F);
  m_vcf_rec : bcf1 F;
  m_vcf_read_ret : Z;
  m_vcf_list : list (bcf1 F);
  m_cnt : counters;
  m_stderr : list diag;
  m_out : gzfiles
}.

Definition process_init (vcf : list (bcf1 F)) : process :=
  {| m_vcf_fp := vcf; m_vcf_rec := vcf_rec_init; m_vcf_read_ret := 0;
     m_vcf_list := [];
     m_cnt := {| num_kept_reads := 0; num_kept_snv := 0; num_kept_mnv := 0;
                 num_kept_ins := 0; num_kept_del := 0; num_skip_reads := 0;
                 num_skip_cmatches := 0 |};
     m_stderr := [];
     m_out := {| r1file := []; r2file := [] |} |}.

(** The engine and the emission of its buffers: the branch taken when the
    window is not empty. *)
Definition mutate_and_write (defallelefrac mutprob : F) (b : bam1)
    (vcf_list : list (bcf1 F)) (c : counters) (err : list diag) (o : gzfiles)
  : status * counters * list diag * gzfiles :=
  match mutate b mutprob defallelefrac vcf_list c err with
  | (Running, e) =>
      let '(st, o) := bamrec_write_fastq b (newseq e) (newqual e) o in
      (st, cnt e, stderr e, o)
  | (st, e) => (st, cnt e, stderr e, o)
  end.

(** One turn of the loop over the reads. *)
Definition process_read (defallelefrac : F) (b : bam1) (m : process)
  : status * process :=
  if flag_set b 0x900 then (Running, m) else
  let '(vcf_fp, vcf_rec, vcf_read_ret, vcf_list, err) :=
    synchronize b (m_vcf_fp m) (m_vcf_rec m) (m_vcf_read_ret m)
      (m_vcf_list m) (m_stderr m) in
  let mutprob := of_Q (fst (umistr2prob (bam_get_qname b))) in
  let '(st, c, err, o) :=
    if (0 <? length vcf_list)%nat
    then mutate_and_write defallelefrac mutprob b vcf_list (m_cnt m) err (m_out m)
    else let '(st, o) := bamrec_write_fastq_raw b (m_out m) in
         (st, m_cnt m, err, o) in
  (st, {| m_vcf_fp := vcf_fp; m_vcf_rec := vcf_rec; m_vcf_read_ret := vcf_read_ret;
          m_vcf_list := vcf_list; m_cnt := c; m_stderr := err; m_out := o |}).

(** [while (sam_read1(...) >= 0)] over the records of the alignment source. *)
Fixpoint main_loop (defallelefrac : F) (bam : list bam1) (m : process)
  : status * process :=
  match bam with
  | [] => (Running, m)
  | b :: rest =>
      match process_read defallelefrac b m with
      | (Running, m) => main_loop defallelefrac rest m
      | stopped => stopped
      end
  end.
End Main.
Arguments process F : clear implicits.

(** ** Instances of the interfaces

    Two arithmetics for [double]: exact rational arithmetic (faithful on the
    dyadic values the examples use) and the binary64 arithmetic of the
    program, in which [of_Q] is the quotient [(double)num / den] that
    [umistr2prob] computes.  Then htslib's definitions of the three library
    functions: [__ac_X31_hash_string] and [__ac_Wang_hash] of [khash.h] on
    ASCII strings, and [bam_endpos], the position after the last reference
    base a read covers.  The general statements do not depend on them. *)

#[export] Instance Q_Double : Double Q :=
  {| dzero := 0%Q; dadd := Qplus; dle := Qle_bool; of_Q := fun q => q |}.

Definition double_of_Z (z : Z) : float :=
  if z <? 0 then PrimFloat.opp (PrimFloat.of_uint63 (Uint63.of_Z (- z)))
  else PrimFloat.of_uint63 (Uint63.of_Z z).

#[export] Instance binary64_Double : Double float :=
  {| dzero := 0%float; dadd := PrimFloat.add; dle := PrimFloat.leb;
     of_Q := fun q =>
       PrimFloat.div (double_of_Z (Qnum q)) (double_of_Z (Z.pos (Qden q))) |}.

Fixpoint X31_loop (h : Z) (s : list ascii) : Z :=
  match s with
  | [] => h
  | c :: rest => X31_loop (uint32 (Z.shiftl h 5 - h + code c)) rest
  end.

Definition X31_hash_string (s : list ascii) : Z :=
  match s with
  | [] => 0
  | c :: rest => X31_loop (code c) rest
  end.

Definition lnot32 (x : Z) : Z := 2 ^ 32 - 1 - x.

Definition Wang_hash (key : Z) : Z :=
  let key := uint32 (key + lnot32 (uint32 (Z.shiftl key 15))) in
  let key := Z.lxor key (Z.shiftr key 10) in
  let key := uint32 (key + uint32 (Z.shiftl key 3)) in
  let key := Z.lxor key (Z.shiftr key 6) in
  let key := uint32 (key + lnot32 (uint32 (Z.shiftl key 11))) in
  Z.lxor key (Z.shiftr key 16).

(** The operations that consume reference bases: M, D, N, = and X. *)
Definition consumes_ref (op : Z) : bool :=
  (op =? BAM_CMATCH) || (op =? BAM_CDEL) || (op =? BAM_CREF_SKIP)
  || (op =? BAM_CEQUAL) || (op =? BAM_CDIFF).

Definition bam_cigar2rlen (cigar : list N) : Z :=
  fold_left (fun l c => if consumes_ref (bam_cigar_op c) then l + bam_cigar_oplen c else l)
    cigar 0.

Definition sam_bam_endpos (b : bam1) : Z :=
  let rlen := if flag_set b 4 then 0 else bam_cigar2rlen (bam_get_cigar b) in
  core_pos b + (if rlen =? 0 then 1 else rlen).

#[export] Instance htslib : Htslib :=
  {| __ac_X31_hash_string := X31_hash_string;
     __ac_Wang_hash := Wang_hash;
     bam_endpos := sam_bam_endpos |}.

(** ** Notions used in the statements *)

(** *** The specification's wording, for comparison with the code *)

(** The key as the specification words it: the part of the identifier
    strictly before the first [#], the whole identifier when it has none. *)
Fixpoint before_first_hash (str : list ascii) : list ascii :=
  match str with
  | [] => []
  | a :: rest => if Ascii.eqb a "#" then [] else a :: before_first_hash rest
  end.

Section Selection.
Context {F : Type} `{Double F}.
Variable mutprob : F.
Variable defallelefrac : F.

(** A variant's own allele fraction: its explicit value, else the
    process-wide default. *)
Definition own_allelefrac (v : bcf1 F) : F :=
  match FA v with Some x => x | None => defallelefrac end.

(** The selection as the specification words it: the first variant of
    [run] whose own allele fraction the read's fraction does not exceed. *)
Definition first_qualifying_individually (run : list (bcf1 F)) : option (bcf1 F) :=
  find (fun v => dle mutprob (own_allelefrac v)) run.

(** *** The selection in a run *)

(** The sum of the allele fractions of the variants of [l], taken from
    zero in the order of [l]. *)
Definition allelefrac_sum (l : list (bcf1 F)) : F :=
  fold_left (fun a v => dadd a (own_allelefrac v)) l dzero.

(** The first variant of [run] for which the read's fraction is at most
    the sum of the allele fractions of the run up to and including it. *)
Definition first_qualifying (run : list (bcf1 F)) : option (bcf1 F) :=
  match find (fun i => dle mutprob (allelefrac_sum (firstn (S i) run)))
             (seq 0 (length run)) with
  | Some i => run !! i
  | None => None
  end.
End Selection.

(** *** The walk over a read *)

(** The end of a turn of the loop over the positions of a match operation:
    [qpos++; rpos++] when the body has not stopped the process. *)
Definition end_of_turn {F : Type} (r : status * Z * engine F) : status * Z * engine F :=
  match r with
  | (Running, j, e) => (Running, j, advance 1 1 e)
  | stopped => stopped
  end.

(** The two buffers of the engine hold as many qualities as bases. *)
Definition balanced {F : Type} (e : engine F) : Prop :=
  length (newseq e) = length (newqual e).

(** The operations that consume query positions: M, I, S, = and X. *)
Definition consumes_query (op : Z) : bool :=
  (op =? BAM_CMATCH) || (op =? BAM_CINS) || (op =? BAM_CSOFT_CLIP)
  || (op =? BAM_CEQUAL) || (op =? BAM_CDIFF).

(** The number of query positions the operations of [cigar] consume. *)
Fixpoint bam_cigar2qlen (cigar : list N) : Z :=
  match cigar with
  | [] => 0
  | c :: rest =>
      (if consumes_query (bam_cigar_op c) then bam_cigar_oplen c else 0)
      + bam_cigar2qlen rest
  end.

(** The operation kinds the engine knows. *)
Definition recognised (op : Z) : bool :=
  (op =? BAM_CMATCH) || (op =? BAM_CEQUAL) || (op =? BAM_CDIFF)
  || (op =? BAM_CINS) || (op =? BAM_CSOFT_CLIP) || (op =? BAM_CDEL)
  || (op =? BAM_CHARD_CLIP).

(** The kinds under which the engine drops no query position: all the
    recognised ones but the soft clip. *)
Definition keeps_query (op : Z) : bool :=
  recognised op && negb (op =? BAM_CSOFT_CLIP).


(** *** Emission *)

(** The FASTQ record of a read as it is stored: its name, its bases and its
    qualities shifted by 33, both in the direction of the read for a
    reverse-strand record. *)
Definition original_fastq (b : bam1) : list ascii :=
  let seq := map (fun p => nt16_char (fst p)) (bam_query b) in
  let qual := map (fun p => plus33 (snd p)) (bam_query b) in
  ("@"%char :: bam_get_qname b ++ [newline])
  ++ (c_str (if flag_set b 0x10 then complement (reverse seq) else seq)
      ++ newline :: "+"%char :: [newline])
  ++ (c_str (if flag_set b 0x10 then reverse qual else qual) ++ [newline]).

(** After the turns [0 .. i-1] of the loop of [reverse] on [s], the first
    [i] and the last [i] characters are those of the mirrored string and the
    middle is untouched. *)
Definition mirrored_upto (s : list ascii) (i : nat) (l : list ascii) : Prop :=
  length l = length s /\
  forall p, (p < length s)%nat ->
    l !! p = if decide (p < i \/ length s - i <= p)%nat
             then s !! (length s - 1 - p)%nat else s !! p.

(** *** The window and the order of the sources *)

(** The window with which the read [b] is processed from the state [m]: the
    one the three loops of the synchronizer leave. *)
Definition window_of {F : Type} `{Htslib} (b : bam1) (m : process F) : list (bcf1 F) :=
  snd (fst (synchronize b (m_vcf_fp m) (m_vcf_rec m) (m_vcf_read_ret m)
              (m_vcf_list m) (m_stderr m))).

(** [v] does not come after [w]: [w] is not before [v]. *)
Definition not_after {F : Type} (v w : bcf1 F) : Prop :=
  is_var1_before_var2 (rid w) (pos w) (rid v) (pos v) = false.

(** The window, the record in [vcf_rec] and the records still in the source,
    one after the other, are in the order of the source. *)
Definition in_order {F : Type} (vcf_list : list (bcf1 F)) (vcf_rec : bcf1 F)
    (vcf_fp : list (bcf1 F)) : Prop :=
  StronglySorted not_after (vcf_list ++ vcf_rec :: vcf_fp).

(** No variant of the window is before the start of the read. *)
Definition none_before_start {F : Type} (b : bam1) (vcf_list : list (bcf1 F)) : Prop :=
  Forall (fun v => is_var1_before_var2 (rid v) (pos v) (core_tid b) (core_pos b) = false)
    vcf_list.

(** ** Example inputs

    Reads on contig 0, their bases with raw quality 30, and variants on
    contig 0 with explicit allele fractions, over the instance of the
    interfaces above. *)

(** The code of a base letter (A, C, G, T; anything else is N). *)
Definition nt16_code (c : ascii) : N :=
  if Ascii.eqb c "A" then 1 else if Ascii.eqb c "C" then 2
  else if Ascii.eqb c "G" then 4 else if Ascii.eqb c "T" then 8 else 15.

Definition query_of (s : string) : list (N * ascii) :=
  map (fun c => (nt16_code c, ascii_of_nat 30)) (cstr s).

Definition read_at (name : string) (flag : N) (start : Z) (cigar : list N) (bases : string)
  : bam1 :=
  {| bam_get_qname := cstr name; core_flag := flag; core_tid := 0; core_pos := start;
     bam_get_cigar := cigar; bam_query := query_of bases |}.

Definition variant_at (p : Z) (ref alt : string) (fa : option Q) : bcf1 Q :=
  {| rid := 0; pos := p; allele0 := cstr ref; allele1 := cstr alt; FA := fa |}.

Definition no_counts : counters :=
  {| num_kept_reads := 0; num_kept_snv := 0; num_kept_mnv := 0; num_kept_ins := 0;
     num_kept_del := 0; num_skip_reads := 0; num_skip_cmatches := 0 |}.

Definition no_output : gzfiles := {| r1file := []; r2file := [] |}.

(** A forward read of four matched bases at positions 100 to 103. *)
Definition read_ACGT : bam1 :=
  read_at "read1#ACGT" 0 100 [bam_cigar_gen 4 BAM_CMATCH] "ACGT".

(** A read of two matched bases, at positions 100 and 101. *)
Definition read_AC : bam1 :=
  read_at "read2#ACGT" 0 100 [bam_cigar_gen 2 BAM_CMATCH] "AC".

(** A reverse-strand read with a soft clip: one clipped base, then three
    matched bases at positions 100 to 102. *)
Definition read_clipped : bam1 :=
  read_at "read3#ACGT" 16 100
    [bam_cigar_gen 1 BAM_CSOFT_CLIP; bam_cigar_gen 3 BAM_CMATCH] "TACG".

(** A spliced read: two matched bases, a skipped region of the reference (N)
    and two more matched bases. *)
Definition read_spliced : bam1 :=
  read_at "read4#ACGT" 0 100
    [bam_cigar_gen 2 BAM_CMATCH; bam_cigar_gen 5 BAM_CREF_SKIP; bam_cigar_gen 2 BAM_CMATCH]
    "ACGT".

(** A reverse-strand read with an insertion, a deletion and a hard clip
    around its matches. *)
Definition read_indel : bam1 :=
  read_at "read5#ACGT" 16 100
    [bam_cigar_gen 3 BAM_CHARD_CLIP; bam_cigar_gen 2 BAM_CMATCH; bam_cigar_gen 1 BAM_CINS;
     bam_cigar_gen 4 BAM_CDEL; bam_cigar_gen 2 BAM_CEQUAL; bam_cigar_gen 1 BAM_CDIFF]
    "ACTGGA".

(** Single-base variants with allele fraction 1, at positions 100 and 102. *)
Definition snv_100 : bcf1 Q := variant_at 100 "A" "C" (Some 1%Q).
Definition snv_102 : bcf1 Q := variant_at 102 "G" "T" (Some 1%Q).

(** Two variants at position 101, each with allele fraction 1/4. *)
Definition snv_101_G : bcf1 Q := variant_at 101 "C" "G" (Some (1 # 4)%Q).
Definition snv_101_T : bcf1 Q := variant_at 101 "C" "T" (Some (1 # 4)%Q).

(** A deletion of one base: reference [AC], alternate [A], allele fraction 1,
    at position 100. *)
Definition del_100 : bcf1 Q := variant_at 100 "AC" "A" (Some 1%Q).

(** An insertion of two bases after the base at position 100. *)
Definition ins_100 : bcf1 Q := variant_at 100 "A" "ACG" (Some 1%Q).

(** A variant of no supported shape: two reference bases for three alternate
    ones, at position 101, allele fraction 1. *)
Definition complex_101 : bcf1 Q := variant_at 101 "CG" "TTT" (Some 1%Q).

(** A run of the whole program in binary64 arithmetic: a read whose
    identifier gives the fraction 0.3215..., and a variant source with a
    variant at position 100 and two at position 101 of allele fraction 0.25
    each. *)
Definition read_AACC : bam1 :=
  read_at "read6#AACC" 0 100 [bam_cigar_gen 4 BAM_CMATCH] "ACGT".

Definition variant64_at (p : Z) (ref alt : string) (fa : float) : bcf1 float :=
  {| rid := 0; pos := p; allele0 := cstr ref; allele1 := cstr alt; FA := Some fa |}.

Definition vcf_two_at_101 : list (bcf1 float) :=
  [variant64_at 100 "A" "C" 1; variant64_at 101 "C" "G" 0.25;
   variant64_at 101 "C" "T" 0.25].

(** ** Further notions used in the statements *)

(** The operations whose query positions the engine copies or mutates: M,
    =, X and I. *)
Definition copies_query (op : Z) : bool :=
  (op =? BAM_CMATCH) || (op =? BAM_CEQUAL) || (op =? BAM_CDIFF) || (op =? BAM_CINS).

(** The query positions of a record that lie under those operations, for
    the operations [cigar] applied from query position [q] on: what is left
    of the query when the soft-clipped positions are dropped. *)
Fixpoint aligned_from (q : Z) (cigar : list N) (query : list (N * ascii))
  : list (N * ascii) :=
  match cigar with
  | [] => []
  | c :: rest =>
      (if copies_query (bam_cigar_op c)
       then take (Z.to_nat (bam_cigar_oplen c)) (drop (Z.to_nat q) query)
       else [])
      ++ aligned_from (q + (if consumes_query (bam_cigar_op c) then bam_cigar_oplen c else 0))
           rest query
  end.

(** The reference positions the operations of [cigar] cover, by recursion
    on the operations. *)
Fixpoint ref_length (cigar : list N) : Z :=
  match cigar with
  | [] => 0
  | c :: rest =>
      (if consumes_ref (bam_cigar_op c) then bam_cigar_oplen c else 0) + ref_length rest
  end.

(** The complement of a base letter, written out: A with T and C with G, in
    either case; every other character is its own image. *)
Definition base_pair (c : ascii) : ascii :=
  if Ascii.eqb c "A" then "T"%char else if Ascii.eqb c "T" then "A"%char
  else if Ascii.eqb c "C" then "G"%char else if Ascii.eqb c "G" then "C"%char
  else if Ascii.eqb c "a" then "t"%char else if Ascii.eqb c "t" then "a"%char
  else if Ascii.eqb c "c" then "g"%char else if Ascii.eqb c "g" then "c"%char
  else c.

(** A character that is a valid index of the table of complements where
    [char] is signed: a code below 128. *)
Definition plain_ascii (c : ascii) : Prop := code c < 128.

Section Turn.
Context {F : Type} `{Double F}.
Variable mutprob : F.
Variable defallelefrac : F.

(** At a position of a match operation, once the iterator has been moved:
    whether the window has a variant at the current reference position, and
    the variant of its run that the loop over the run applies, if any. *)
Definition at_variant (e : engine F) : bool :=
  match vcf_rec_it e with
  | first :: _ => rpos e =? pos first
  | [] => false
  end.

Definition selected (e : engine F) : option (bcf1 F) :=
  match vcf_rec_it e with
  | first :: _ =>
      if rpos e =? pos first
      then first_qualifying mutprob defallelefrac (run_of first (vcf_rec_it e))
      else None
  | [] => None
  end.
End Turn.

(** The counters of the kinds of variants do not exceed the counter of the
    kept reads, and no counter is negative. *)
Definition kinds_within_kept (c : counters) : Prop :=
  0 <= num_kept_snv c /\ 0 <= num_kept_mnv c /\ 0 <= num_kept_ins c
  /\ 0 <= num_kept_del c /\ 0 <= num_skip_reads c /\ 0 <= num_skip_cmatches c
  /\ num_kept_snv c + num_kept_mnv c + num_kept_ins c + num_kept_del c
     <= num_kept_reads c.

(** A variant whose alternate allele can be written: it is not empty and
    its characters are above the space character. *)
Definition alt_above_space {F : Type} (v : bcf1 F) : Prop :=
  allele1 v <> [] /\ forallb gt_space (allele1 v) = true.

(** A read the engine can walk: its operations are of the kinds the engine
    knows and consume no more query positions than the record has. *)
Definition walkable (b : bam1) : Prop :=
  forallb (fun c => recognised (bam_cigar_op c)) (bam_get_cigar b) = true
  /\ bam_cigar2qlen (bam_get_cigar b) <= l_qseq b.

(** A FASTQ record: the name line, the bases, the separator line and the
    qualities. *)
Definition fastq_record (name bases quals : list ascii) : list ascii :=
  "@"%char :: name ++ newline :: bases ++ newline :: "+"%char :: newline :: quals ++ [newline].

(** The lines of a text: the characters before each newline, and those
    after the last one when it does not end a line. *)
Fixpoint lines (text : list ascii) : list (list ascii) :=
  match text with
  | [] => []
  | a :: rest =>
      if Ascii.eqb a newline then [] :: lines rest
      else match lines rest with
           | l :: ls => (a :: l) :: ls
           | [] => [[a]]
           end
  end.

(** The variants of the window and of the rest of the source can all be
    written. *)
Definition variants_above_space {F : Type} (m : process F) : Prop :=
  Forall alt_above_space (m_vcf_list m) /\ Forall alt_above_space (m_vcf_fp m).

(** The match operations: M, = and X. *)
Definition is_match (op : Z) : bool :=
  (op =? BAM_CMATCH) || (op =? BAM_CEQUAL) || (op =? BAM_CDIFF).

(** The number of positions of the match operations of [cigar]. *)
Fixpoint match_length (cigar : list N) : Z :=
  match cigar with
  | [] => 0
  | c :: rest =>
      (if is_match (bam_cigar_op c) then bam_cigar_oplen c else 0) + match_length rest
  end.

(** The query positions [part] with the reference positions [r], [r + 1],
    ... they are aligned to under a match operation. *)
Fixpoint with_ref (r : Z) (part : list (N * ascii)) : list (option Z * (N * ascii)) :=
  match part with
  | [] => []
  | p :: rest => (Some r, p) :: with_ref (r + 1) rest
  end.

(** The query positions under matches and insertions, as [aligned_from]
    gives them, each with the reference position it is aligned to (none for
    an inserted position), for operations that start at query position [q]
    and reference position [r]. *)
Fixpoint aligned_with_ref (q r : Z) (cigar : list N) (query : list (N * ascii))
  : list (option Z * (N * ascii)) :=
  match cigar with
  | [] => []
  | c :: rest =>
      (if is_match (bam_cigar_op c)
       then with_ref r (take (Z.to_nat (bam_cigar_oplen c)) (drop (Z.to_nat q) query))
       else if bam_cigar_op c =? BAM_CINS
       then map (fun p => (None, p))
              (take (Z.to_nat (bam_cigar_oplen c)) (drop (Z.to_nat q) query))
       else [])
      ++ aligned_with_ref
           (q + (if consumes_query (bam_cigar_op c) then bam_cigar_oplen c else 0))
           (r + (if consumes_ref (bam_cigar_op c) then bam_cigar_oplen c else 0))
           rest query
  end.

(** From [e] to [e'] the engine has appended one base and one quality for
    each of the query positions [added]: the quality of the position, and
    the base that [base] gives for the position and the reference position
    it is aligned to. *)
Definition appended {F : Type} (base : option Z * (N * ascii) -> ascii) (e e' : engine F)
    (added : list (option Z * (N * ascii))) : Prop :=
  newqual e' = newqual e ++ map (fun a => snd (snd a)) added
  /\ newseq e' = newseq e ++ map base added.

(** The base of a query position as the record has it. *)
Definition original_base (a : option Z * (N * ascii)) : ascii := nt16_char (fst (snd a)).

Section Spiked.
Context {F : Type} `{Double F}.
Variable mutprob : F.
Variable defallelefrac : F.

(** The variant of the window [vcf_list] that the engine applies at the
    reference position [r] of a read on the contig [tid]: the window from
    its first variant that is not before the position, that variant being
    at [r], and the variant of its run that qualifies. *)
Definition window_variant_at (vcf_list : list (bcf1 F)) (tid r : Z) : option (bcf1 F) :=
  match fst (advance_it tid r vcf_list 0) with
  | first :: rest =>
      if r =? pos first
      then first_qualifying mutprob defallelefrac (run_of first (first :: rest))
      else None
  | [] => None
  end.

(** The base written for a query position when only substitutions are
    applied: the first letter of the alternate allele of the variant applied
    at the reference position it is aligned to, the base of the read when
    there is none. *)
Definition spiked_base (vcf_list : list (bcf1 F)) (tid : Z) (a : option Z * (N * ascii))
  : ascii :=
  match a with
  | (Some r, p) =>
      match window_variant_at vcf_list tid r with
      | Some v => hd NUL (allele1 v)
      | None => nt16_char (fst p)
      end
  | (None, p) => nt16_char (fst p)
  end.
End Spiked.

(** Whether [r] is a reference position under a match operation of
    [cigar], for operations that start at reference position [r0]. *)
Fixpoint matched_from (r0 : Z) (cigar : list N) (r : Z) : bool :=
  match cigar with
  | [] => false
  | c :: rest =>
      (is_match (bam_cigar_op c) && (r0 <=? r) && (r <? r0 + bam_cigar_oplen c))
      || matched_from (r0 + (if consumes_ref (bam_cigar_op c) then bam_cigar_oplen c else 0))
           rest r
  end.

(** A variant that cannot meet the read [b]: it is on an earlier contig, or
    its position is not a reference position under a match operation of the
    read (it is before the read, after it, or in a stretch of the reference
    the read deletes). *)
Definition clear_of {F : Type} (b : bam1) (v : bcf1 F) : Prop :=
  rid v < core_tid b
  \/ matched_from (core_pos b) (bam_get_cigar b) (pos v) = false.

(** The three counters of the positions of match operations, together. *)
Definition positions_counted (c : counters) : Z :=
  num_kept_reads c + num_skip_reads c + num_skip_cmatches c.

(** The counters [c] after [n] more positions without a variant. *)
Definition more_skip_cmatches (n : Z) (c : counters) : counters :=
  {| num_kept_reads := num_kept_reads c; num_kept_snv := num_kept_snv c;
     num_kept_mnv := num_kept_mnv c; num_kept_ins := num_kept_ins c;
     num_kept_del := num_kept_del c; num_skip_reads := num_skip_reads c;
     num_skip_cmatches := num_skip_cmatches c + n |}.

(** ** The command line, [help] and the end of [main] *)

(** What [help] prints, one constructor per [fprintf], before it calls
    [exit(-1)]; and the lines [main] prints after its loop, with the
    counters they show. *)
Inductive usage :=
| UsageLine (argv0 : list ascii)
| OptionalParameters
| FractionOption (default : Q)
| NoteLine
| SortedAndIndexed
| NotMultiallelic
| InDelNotSupported.

Inductive summary :=
| InTotal (kept skipped cmatches : Z)
| KeptSnv (n : Z)
| KeptMnv (n : Z)
| KeptIns (n : Z)
| KeptDel (n : Z).

(** A line of [stderr]. *)
Inductive line := Usage (u : usage) | Diag (d : diag) | Summary (s : summary).

(** How the process ends: by [exit] or the return of [main], with a
    status, or by one of the stops of the loop over the reads. *)
Inductive ending := Exit (code : Z) | Killed (why : stop).


Section CommandLine.
Context {F : Type} `{Double F} `{Htslib}.

(** [atof], and the records of the files behind the names given on the
    command line. *)
Variable atof : list ascii -> F.
Variable sam_open : list ascii -> list bam1.
Variable vcf_open : list ascii -> list (bcf1 F).




(** [main] from the declaration of its counters on: the loop over the
    reads of [inbam] with the variants of [invcf], then the summary.  The
    files are what has been handed to [gzprintf]. *)
Definition main_after_options (allelefrac : F) (bam vcf : list ascii)
  : list line * gzfiles * ending :=
  let '(st, m) := main_loop allelefrac (sam_open bam) (process_init (vcf_open vcf)) in
  match st with
  | Running =>
      (map Diag (m_stderr m)
       ++ map Summary
            [InTotal (num_kept_reads (m_cnt m)) (num_skip_reads (m_cnt m))
               (num_skip_cmatches (m_cnt m));
             KeptSnv (num_kept_snv (m_cnt m)); KeptMnv (num_kept_mnv (m_cnt m));
             KeptIns (num_kept_ins (m_cnt m)); KeptDel (num_kept_del (m_cnt m))],
       m_out m, Exit 0)
  | Stopped why => (map Diag (m_stderr m), m_out m, Killed why)
  end.

End CommandLine.



(** ** Further example inputs *)

(** A substitution of two bases at position 100, a variant before the read
    [read_ACGT] and one after its end, one at position 103 (which the read
    [read_indel] deletes), and a single-base variant at position 102 of the
    next contig. *)
Definition mnv_100 : bcf1 Q := variant_at 100 "AC" "GT" (Some 1%Q).
Definition snv_50 : bcf1 Q := variant_at 50 "A" "C" (Some 1%Q).
Definition snv_200 : bcf1 Q := variant_at 200 "A" "C" (Some 1%Q).
Definition snv_103 : bcf1 Q := variant_at 103 "A" "C" (Some 1%Q).
Definition snv_101 : bcf1 Q := variant_at 101 "C" "A" (Some 1%Q).
Definition snv_102_of_contig_1 : bcf1 Q :=
  {| rid := 1; pos := 102; allele0 := cstr "G"; allele1 := cstr "T"; FA := Some 1%Q |}.

(** A read of two matched bases whose first raw quality is 233: with 33
    added it is the newline character. *)
Definition read_quality_233 : bam1 :=
  {| bam_get_qname := cstr "read5#ACGT"; core_flag := 0; core_tid := 0; core_pos := 100;
     bam_get_cigar := [bam_cigar_gen 2 BAM_CMATCH];
     bam_query := [(nt16_code "A"%char, ascii_of_nat 233);
                   (nt16_code "C"%char, ascii_of_nat 30)] |}.

(** ** The records skip-ahead reads in a run *)

Section SkipAheadRecords.
Context {F : Type} `{Double F} `{Htslib}.

(** The records that skip-ahead takes from the source for the read [b] in
    the state [m], and those it takes for the reads of [bam] one after the
    other, as [main_loop] processes them. *)
Definition read_by_skip_ahead (b : bam1) (m : process F) : list (bcf1 F) :=
  let '(vcf_fp, _, _, _) :=
    skip_ahead b (m_vcf_fp m) (m_vcf_rec m) (m_vcf_read_ret m) (m_stderr m) in
  take (length (m_vcf_fp m) - length vcf_fp) (m_vcf_fp m).

Fixpoint all_read_by_skip_ahead (allelefrac : F) (bam : list bam1) (m : process F)
  : list (bcf1 F) :=
  match bam with
  | [] => []
  | b :: rest =>
      if flag_set b 0x900 then all_read_by_skip_ahead allelefrac rest m
      else read_by_skip_ahead b m
           ++ match process_read allelefrac b m with
              | (Running, m') => all_read_by_skip_ahead allelefrac rest m'
              | _ => []
              end
  end.

(** Every record of the source [vcf] is accounted for in the state [m]: it
    is still to be read, or in the window, or among the records [lost], or
    before the place [(tid0, pos0)]; the window, [vcf_rec] and the rest of
    the source are in order, and [vcf_read_ret] is -1 only at the end of the
    source. *)
Definition accounted (vcf : list (bcf1 F)) (m : process F) (lost : list (bcf1 F))
    (tid0 pos0 : Z) : Prop :=
  in_order (m_vcf_list m) (m_vcf_rec m) (m_vcf_fp m)
  /\ (m_vcf_read_ret m = -1 -> m_vcf_fp m = [])
  /\ forall v, In v vcf ->
       In v (m_vcf_fp m) \/ In v (m_vcf_list m) \/ In v lost
       \/ is_var1_before_var2 (rid v) (pos v) tid0 pos0 = true.
End SkipAheadRecords.

(** The read [b1] does not start after the read [b2]. *)
Definition starts_not_after (b1 b2 : bam1) : Prop :=
  is_var1_before_var2 (core_tid b2) (core_pos b2) (core_tid b1) (core_pos b1) = false.

(** * Properties *)

(** ** Reverse and complement *)

Lemma swap_at_lookup (sz i : nat) (l : list ascii) (x y : ascii) :
  length l = sz -> (i < sz - 1 - i)%nat ->
  l !! i = Some x -> l !! (sz - 1 - i)%nat = Some y ->
  forall p, swap_at sz i l !! p =
            if decide (p = i) then Some y
            else if decide (p = sz - 1 - i)%nat then Some x
            else l !! p.
Proof.
  intros Hlen Hlt Hx Hy p. unfold swap_at. rewrite Hx, Hy.
  destruct (decide (p = i)) as [->|Hpi].
  - rewrite list_lookup_insert_ne by lia.
    apply list_lookup_insert_eq. lia.
  - destruct (decide (p = sz - 1 - i)%nat) as [->|Hpj].
    + apply list_lookup_insert_eq. rewrite length_insert. lia.
    + rewrite !list_lookup_insert_ne by lia. reflexivity.
Qed.

Lemma swap_at_length (sz i : nat) (l : list ascii) :
  length (swap_at sz i l) = length l.
Proof.
  unfold swap_at. destruct (l !! i), (l !! (sz - 1 - i)%nat); trivial.
  now rewrite !length_insert.
Qed.

Lemma reverse_loop_mirrored (s : list ascii) (n i : nat) (l : list ascii) :
  (i + n <= length s / 2)%nat ->
  mirrored_upto s i l ->
  mirrored_upto s (i + n) (reverse_loop (length s) n i l).
Proof.
  revert i l. induction n as [|n IH]; intros i l Hin Hl; simpl.
  - now rewrite Nat.add_0_r.
  - replace (i + S n)%nat with (S i + n)%nat by lia.
    assert (Hhalf : (2 * (length s / 2) <= length s)%nat)
      by (apply Nat.Div0.mul_div_le).
    apply IH; [lia|].
    destruct Hl as [Hlen Hl].
    assert (Hi : (i < length s)%nat) by lia.
    assert (Hj : (length s - 1 - i < length s)%nat) by lia.
    destruct (lookup_lt_is_Some_2 s i Hi) as [x Hx].
    destruct (lookup_lt_is_Some_2 s (length s - 1 - i)%nat Hj) as [y Hy].
    assert (Hlx : l !! i = Some x).
    { rewrite (Hl i Hi). destruct (decide _); [lia|exact Hx]. }
    assert (Hly : l !! (length s - 1 - i)%nat = Some y).
    { rewrite (Hl _ Hj). destruct (decide _); [lia|exact Hy]. }
    split; [now rewrite swap_at_length|].
    intros p Hp.
    rewrite (swap_at_lookup (length s) i l x y) by (trivial; lia).
    destruct (decide (p = i)) as [->|Hpi].
    { destruct (decide _); [now symmetry|lia]. }
    destruct (decide (p = length s - 1 - i)%nat) as [->|Hpj].
    { destruct (decide _); [|lia].
      rewrite <- Hx. f_equal. lia. }
    rewrite (Hl p Hp).
    destruct (decide _), (decide _); trivial; lia.
Qed.

(** The swapping loop computes the mirror image of its argument. *)
Lemma reverse_rev (s : list ascii) : reverse s = rev s.
Proof.
  assert (Hhalf : (2 * (length s / 2) <= length s < 2 * (length s / 2) + 2)%nat).
  { pose proof (Nat.div_mod_eq (length s) 2).
    pose proof (Nat.mod_upper_bound (length s) 2). lia. }
  destruct (reverse_loop_mirrored s (length s / 2) 0 s) as [Hlen Hl].
  { lia. }
  { split; [trivial|]. intros p Hp. destruct (decide _); [lia|trivial]. }
  rewrite Nat.add_0_l in Hl. fold (reverse s) in Hlen, Hl.
  apply list_eq. intros p.
  destruct (decide (p < length s)%nat) as [Hp|Hp].
  - rewrite (Hl p Hp), rev_alt.
    change (rev_append s []) with (list.reverse s).
    rewrite reverse_lookup by trivial.
    replace (length s - S p)%nat with (length s - 1 - p)%nat by lia.
    destruct (decide _); [trivial|].
    f_equal. lia.
  - rewrite (proj2 (lookup_ge_None _ _)) by lia.
    rewrite (proj2 (lookup_ge_None _ _)); [trivial|].
    rewrite length_rev. lia.
Qed.

Lemma data_at_acgt (c : ascii) :
  is_acgt c = true -> data_at (data_at c) = c.
Proof.
  destruct c as [[] [] [] [] [] [] [] []]; intros Hc;
    solve [ discriminate Hc | reflexivity ].
Qed.

(** C8.  For every string over the letters A, C, G, T and their lowercase
    forms, reversing and complementing it, as the emission of a
    reverse-strand read does, and then reversing and complementing the
    result again gives back the string. *)
Theorem reverse_complement_involutive (s : list ascii) :
  forallb is_acgt s = true ->
  complement (reverse (complement (reverse s))) = s.
Proof.
  intros Hs. rewrite !reverse_rev. unfold complement.
  rewrite <- map_rev, rev_involutive, map_map.
  induction s as [|c s IH]; simpl in *; [reflexivity|].
  apply andb_prop in Hs as [Hc Hs].
  now rewrite data_at_acgt, IH.
Qed.

Lemma reverse_complement_involutive_witness :
  complement (reverse (complement (reverse (cstr "ACGTacgtTTGA")))) = cstr "ACGTacgtTTGA".
Proof.
  apply (reverse_complement_involutive (cstr "ACGTacgtTTGA")). reflexivity.
Defined.

(** ** The allele selector *)

Lemma strchr_app (pre rest : list ascii) (c : ascii) :
  ~ In c pre -> strchr (pre ++ c :: rest) c = Some (c :: rest).
Proof.
  induction pre as [|a pre IH]; simpl; intros Hpre.
  - now rewrite Ascii.eqb_refl.
  - destruct (Ascii.eqb_spec a c) as [->|_]; [tauto|].
    apply IH. tauto.
Qed.

Lemma strchr_none (str : list ascii) (c : ascii) :
  ~ In c str -> strchr str c = None.
Proof.
  induction str as [|a str IH]; simpl; intros Hstr; [reflexivity|].
  destruct (Ascii.eqb_spec a c) as [->|_]; [tauto|].
  apply IH. tauto.
Qed.

Lemma umistr_from_hash (pre rest : list ascii) :
  ~ In "#"%char pre -> umistr (pre ++ "#"%char :: rest) = "#"%char :: rest.
Proof. intros Hpre. unfold umistr. now rewrite strchr_app. Qed.

(** C2, as the code has it.  For an identifier with a [#], the string that
    [umistr2prob] hashes starts at the first [#] and runs to the end of the
    identifier, so the identifier gets the fraction and seed of that suffix;
    an identifier without [#] is hashed whole. *)
Theorem umistr2prob_hashes_from_first_hash `{Htslib} (pre rest : list ascii) :
  ~ In "#"%char pre ->
  umistr (pre ++ "#"%char :: rest) = "#"%char :: rest
  /\ umistr2prob (pre ++ "#"%char :: rest) = umistr2prob ("#"%char :: rest)
  /\ umistr pre = pre.
Proof.
  intros Hpre. split; [|split].
  - now apply umistr_from_hash.
  - unfold umistr2prob.
    rewrite (umistr_from_hash pre rest Hpre).
    change (umistr ("#"%char :: rest)) with ("#"%char :: rest). reflexivity.
  - unfold umistr. now rewrite strchr_none.
Qed.

Lemma umistr2prob_hashes_from_first_hash_witness :
  umistr (cstr "read1" ++ "#"%char :: cstr "ACGT") = "#"%char :: cstr "ACGT"
  /\ umistr2prob (cstr "read1" ++ "#"%char :: cstr "ACGT")
     = umistr2prob ("#"%char :: cstr "ACGT")
  /\ umistr (cstr "read1") = cstr "read1".
Proof.
  apply (umistr2prob_hashes_from_first_hash (cstr "read1") (cstr "ACGT")).
  vm_compute. intuition discriminate.
Defined.

(** C2, as the specification states it, fails: of [read1#ACGT] the code
    hashes [#ACGT], not [read1], and the two keys give different seeds. *)
Lemma umistr_not_before_first_hash :
  umistr (cstr "read1#ACGT") = cstr "#ACGT"
  /\ before_first_hash (cstr "read1#ACGT") = cstr "read1"
  /\ umistr (cstr "read1#ACGT") <> before_first_hash (cstr "read1#ACGT")
  /\ umistr2prob (cstr "read1#ACGT")
     <> umistr2prob (before_first_hash (cstr "read1#ACGT")).
Proof. vm_compute. repeat split; discriminate. Qed.

(** C9.  The seed [umistr2prob] returns is the 32-bit mixed hash of the
    hashed part of the identifier: the Wang mix of its 32-bit X31 string
    hash.  The fraction is the low 24 bits of that seed over [0x1000000],
    scaled exactly, so it lies in [0, 1).  Fraction and seed are functions
    of the identifier, and of its hashed part alone: identifiers with the
    same hashed part get the same pair. *)
Theorem umistr2prob_fraction `{Htslib} (str : list ascii) :
  let fraction := fst (umistr2prob str) in
  let seed := snd (umistr2prob str) in
  seed = uint32 (__ac_Wang_hash (uint32 (__ac_X31_hash_string (umistr str))))
  /\ fraction = (inject_Z (Z.land seed 0xFFFFFF) / inject_Z 0x1000000)%Q
  /\ Z.land seed 0xFFFFFF = seed mod 2 ^ 24
  /\ (fraction * inject_Z 0x1000000 == inject_Z (seed mod 2 ^ 24))%Q
  /\ (0 <= fraction)%Q /\ (fraction < 1)%Q
  /\ 0 <= seed < 2 ^ 32
  /\ forall str', umistr str' = umistr str -> umistr2prob str' = umistr2prob str.
Proof.
  cbv zeta.
  assert (Hsame : forall str', umistr str' = umistr str ->
                               umistr2prob str' = umistr2prob str).
  { intros str' Hkey. unfold umistr2prob. now rewrite Hkey. }
  assert (Hseed : snd (umistr2prob str)
                  = uint32 (__ac_Wang_hash (uint32 (__ac_X31_hash_string (umistr str))))).
  { unfold umistr2prob; cbn [snd]. rewrite Z.lxor_0_r.
    unfold uint32. now rewrite Z.mod_mod by lia. }
  assert (Hfrac : fst (umistr2prob str)
                  = (inject_Z (Z.land (snd (umistr2prob str)) 0xFFFFFF)
                     / inject_Z 0x1000000)%Q) by reflexivity.
  rewrite Hfrac. clear Hfrac.
  set (k := snd (umistr2prob str)) in *.
  assert (Hk : 0 <= k < 2 ^ 32).
  { rewrite Hseed. apply Z.mod_pos_bound. lia. }
  assert (Hland : Z.land k 0xFFFFFF = k mod 2 ^ 24).
  { change 0xFFFFFF with (Z.ones 24). now rewrite Z.land_ones by lia. }
  assert (Hlow : 0 <= Z.land k 0xFFFFFF < 2 ^ 24).
  { rewrite Hland. apply Z.mod_pos_bound. lia. }
  split; [exact Hseed|]. split; [reflexivity|]. split; [exact Hland|].
  split; [|split; [|split; [|split; [exact Hk|exact Hsame]]]].
  - rewrite <- Hland. unfold Qeq, Qdiv, Qmult, Qinv, inject_Z; simpl. lia.
  - unfold Qle, Qdiv, Qmult, Qinv, inject_Z; simpl. lia.
  - unfold Qlt, Qdiv, Qmult, Qinv, inject_Z; simpl.
    change (2 ^ 24) with 16777216 in Hlow. lia.
Qed.

(** ** The stream synchronizer *)

(** The loops are the [while] loops of the source: one turn, then the loop
    again, [vcf_read] being called when [vcf_read_ret] is not -1. *)
Lemma skip_ahead_turn {F : Type} (b : bam1) (vcf_fp : list (bcf1 F)) (vcf_rec : bcf1 F)
    (err : list diag) :
  is_var1_before_var2 (rid vcf_rec) (pos vcf_rec) (core_tid b) (core_pos b) = true ->
  skip_ahead b vcf_fp vcf_rec 0 err =
    let err := err ++ [VariantBeforeRead (rid vcf_rec) (pos vcf_rec)
                         (core_tid b) (core_pos b) (bam_get_qname b)] in
    let '(ret, fp, rec) := vcf_read vcf_fp vcf_rec in
    let err := err ++ [NewPrepVariant (rid rec) (pos rec)] in
    if ret <? 0 then (fp, rec, ret, err) else skip_ahead b fp rec ret err.
Proof. intros Hb. destruct vcf_fp; simpl; rewrite Hb; reflexivity. Qed.

Lemma fetch_ahead_turn {F : Type} `{Htslib} (b : bam1) (vcf_fp : list (bcf1 F))
    (vcf_rec : bcf1 F) (vcf_list : list (bcf1 F)) (err : list diag) :
  is_var1_before_var2 (rid vcf_rec) (pos vcf_rec) (core_tid b) (bam_endpos b) = true ->
  fetch_ahead b vcf_fp vcf_rec 0 vcf_list err =
    let err := err ++ [VariantBeforeReadEnd (rid vcf_rec) (pos vcf_rec)
                         (core_tid b) (bam_endpos b) (bam_get_qname b)] in
    let '(ret, fp, rec) := vcf_read vcf_fp vcf_rec in
    let err := err ++ [NewPushedVariant (rid rec) (pos rec)] in
    if ret <? 0 then (fp, rec, ret, vcf_list, err)
    else fetch_ahead b fp rec ret (vcf_list ++ [rec]) err.
Proof. intros Hb. destruct vcf_fp; simpl; rewrite Hb; reflexivity. Qed.

(** C1 fails on the code.  The read [read_ACGT] covers positions 100 to
    103 and the variant source holds one variant, at 102.  Skip-ahead reads
    the variant, fetch-ahead finds it before the end of the read and reads
    on, reaching the end of the source, and nothing is pushed: the window is
    empty when the read is mutated, and the read is written unchanged
    although the variant has allele fraction 1. *)
Theorem variant_read_by_skip_ahead_is_lost :
  core_pos read_ACGT <= pos snv_102 < bam_endpos read_ACGT
  /\ (let '(_, _, _, vcf_list, _) :=
        synchronize read_ACGT [snv_102] vcf_rec_init 0 [] [] in
      vcf_list = [])
  /\ (let '(st, m) := main_loop DEFAULT_ALLELE_FRAC [read_ACGT] (process_init [snv_102]) in
      st = Running
      /\ r1file (m_out m) = cstr "@read1#ACGT" ++ newline :: cstr "ACGT" ++ newline
                            :: "+"%char :: newline :: cstr "????" ++ [newline]
      /\ num_kept_snv (m_cnt m) = 0).
Proof. vm_compute. repeat split; discriminate. Qed.

(** ** The run of variants at one position *)

Section RunProperties.
Context {F : Type} `{Double F}.
Variable b : bam1.
Variable mutprob : F.
Variable defallelefrac : F.

Lemma allelefrac_sum_snoc (l : list (bcf1 F)) (v : bcf1 F) :
  allelefrac_sum defallelefrac (l ++ [v])
  = add_allelefrac defallelefrac (allelefrac_sum defallelefrac l) v.
Proof. unfold allelefrac_sum. now rewrite fold_left_app. Qed.

Lemma find_seq_S (p : nat -> bool) (n : nat) :
  find p (seq 1 n) = option_map S (find (fun i => p (S i)) (seq 0 n)).
Proof.
  rewrite <- seq_shift.
  induction (seq 0 n) as [|i l IH]; simpl; [reflexivity|].
  destruct (p (S i)); [reflexivity|exact IH].
Qed.

Lemma find_pointwise {A : Type} (p q : A -> bool) (l : list A) :
  (forall x, p x = q x) -> find p l = find q l.
Proof.
  intros Hpq. induction l as [|x l IH]; simpl; [reflexivity|].
  now rewrite Hpq, IH.
Qed.

(** The loop entered with the sum of an earlier part [pre] of the run. *)
Lemma mutate_run_from (cigar_oplen1 j : Z) (e : engine F) (run pre : list (bcf1 F)) :
  mutate_run b mutprob defallelefrac cigar_oplen1 j run
    (allelefrac_sum defallelefrac pre) e
  = match find (fun i => dle mutprob
                           (allelefrac_sum defallelefrac (pre ++ firstn (S i) run)))
               (seq 0 (length run)) with
    | Some i => option_map (fun v => apply_variant b cigar_oplen1 j v e) (run !! i)
    | None => None
    end.
Proof.
  revert pre. induction run as [|v rest IH]; intros pre; [reflexivity|].
  cbn [mutate_run length seq find].
  change (firstn 1 (v :: rest)) with [v].
  rewrite <- allelefrac_sum_snoc.
  destruct (dle mutprob (allelefrac_sum defallelefrac (pre ++ [v]))); [reflexivity|].
  rewrite IH, find_seq_S.
  rewrite (find_pointwise _ (fun i => dle mutprob
             (allelefrac_sum defallelefrac (pre ++ firstn (S (S i)) (v :: rest))))).
  - destruct (find _ _); reflexivity.
  - intros i. cbn [firstn]. now rewrite <- app_assoc.
Qed.

(** The loop over a run applies the variant [first_qualifying] selects, or
    none. *)
Lemma mutate_run_selects (cigar_oplen1 j : Z) (e : engine F) (run : list (bcf1 F)) :
  mutate_run b mutprob defallelefrac cigar_oplen1 j run dzero e
  = option_map (fun v => apply_variant b cigar_oplen1 j v e)
      (first_qualifying mutprob defallelefrac run).
Proof.
  change dzero with (allelefrac_sum defallelefrac []).
  rewrite mutate_run_from. unfold first_qualifying. cbn [app].
  destruct (find _ _); reflexivity.
Qed.

(** [find] over a stretch of indices returns the least one that passes. *)
Lemma find_seq_first (p : nat -> bool) (n s i : nat) :
  find p (seq s n) = Some i
  <-> (s <= i < s + n)%nat /\ p i = true /\ forall k, (s <= k < i)%nat -> p k = false.
Proof.
  revert s. induction n as [|n IH]; intros s; cbn [seq find].
  - split; [discriminate|]. intros [Hi _]. lia.
  - destruct (p s) eqn:Hps.
    + split.
      * intros [= <-]. repeat split; try (intros k Hk); (lia || trivial).
      * intros (Hi & Hpi & Hfirst).
        destruct (decide (i = s)) as [->|Hne]; [reflexivity|].
        rewrite (Hfirst s) in Hps by lia. discriminate.
    + rewrite IH. split.
      * intros (Hi & Hpi & Hfirst). repeat split; (lia || trivial).
        intros k Hk. destruct (decide (k = s)) as [->|Hne]; [exact Hps|].
        apply Hfirst. lia.
      * intros (Hi & Hpi & Hfirst).
        assert (i <> s) by (intros ->; congruence).
        repeat split; (lia || trivial). intros k Hk. apply Hfirst. lia.
Qed.

Lemma find_seq_none (p : nat -> bool) (n s : nat) :
  find p (seq s n) = None <-> forall k, (s <= k < s + n)%nat -> p k = false.
Proof.
  revert s. induction n as [|n IH]; intros s; cbn [seq find].
  - split; [intros _ k Hk; lia|reflexivity].
  - destruct (p s) eqn:Hps.
    + split; [discriminate|]. intros Hall. rewrite (Hall s) in Hps by lia. discriminate.
    + rewrite IH. split.
      * intros Hall k Hk. destruct (decide (k = s)) as [->|Hne]; [exact Hps|].
        apply Hall. lia.
      * intros Hall k Hk. apply Hall. lia.
Qed.

(** What [first_qualifying] selects, without the search: [v] splits the run
    into the variants before it, none of which the running sum lets pass,
    and those after it. *)
Lemma first_qualifying_some (run : list (bcf1 F)) (v : bcf1 F) :
  first_qualifying mutprob defallelefrac run = Some v
  <-> exists pre post,
        run = pre ++ v :: post
        /\ dle mutprob (allelefrac_sum defallelefrac (pre ++ [v])) = true
        /\ forall k, (k < length pre)%nat ->
             dle mutprob (allelefrac_sum defallelefrac (take (S k) pre)) = false.
Proof.
  unfold first_qualifying. split.
  - destruct (find _ _) as [i|] eqn:Hfind; [|discriminate].
    apply find_seq_first in Hfind as (Hi & Hpi & Hfirst). intros Hv.
    exists (take i run), (drop (S i) run).
    pose proof (take_drop_middle run i v Hv) as Hsplit.
    rewrite (take_S_r _ _ _ Hv) in Hpi.
    repeat split; [now symmetry|exact Hpi|].
    intros k Hk. rewrite length_take in Hk.
    rewrite take_take, Nat.min_l by lia. apply Hfirst. lia.
  - intros (pre & post & -> & Hv & Hpre).
    assert (Hfind : find (fun i => dle mutprob
                       (allelefrac_sum defallelefrac (take (S i) (pre ++ v :: post))))
                      (seq 0 (length (pre ++ v :: post))) = Some (length pre)).
    { apply find_seq_first. rewrite length_app. cbn [length]. repeat split; try lia.
      - rewrite (take_S_r _ _ v) by apply list_lookup_middle, eq_refl.
        rewrite take_app_length. exact Hv.
      - intros k Hk. rewrite take_app_le by lia. apply Hpre. lia. }
    rewrite Hfind. apply list_lookup_middle, eq_refl.
Qed.

Lemma first_qualifying_none (run : list (bcf1 F)) :
  first_qualifying mutprob defallelefrac run = None
  <-> forall k, (k < length run)%nat ->
        dle mutprob (allelefrac_sum defallelefrac (take (S k) run)) = false.
Proof.
  unfold first_qualifying. split.
  - destruct (find _ _) as [i|] eqn:Hfind.
    + apply find_seq_first in Hfind as (Hi & _ & _). intros Hnone.
      apply lookup_ge_None in Hnone. lia.
    + intros _ k Hk. apply (proj1 (find_seq_none _ _ _) Hfind). lia.
  - intros Hall.
    rewrite (proj2 (find_seq_none _ (length run) 0%nat)); [reflexivity|].
    intros k Hk. apply Hall. lia.
Qed.

(** C3, as the code has it.  The variants of a run are tried in window
    order against a running sum: the loop applies the variant [v] exactly
    when the read's fraction is at most the sum of the allele fractions
    (explicit, else the default) of the run up to and including [v] and
    exceeds that sum after each earlier variant of the run; it tries no later
    variant, and ends without a mutation when the read's fraction exceeds
    every such sum. *)
Theorem mutate_run_applies_first_qualifying
    (cigar_oplen1 j : Z) (e : engine F) (run : list (bcf1 F)) :
  mutate_run b mutprob defallelefrac cigar_oplen1 j run dzero e
  = option_map (fun v => apply_variant b cigar_oplen1 j v e)
      (first_qualifying mutprob defallelefrac run)
  /\ (forall v,
       first_qualifying mutprob defallelefrac run = Some v
       <-> exists pre post,
             run = pre ++ v :: post
             /\ dle mutprob (allelefrac_sum defallelefrac (pre ++ [v])) = true
             /\ forall k, (k < length pre)%nat ->
                  dle mutprob (allelefrac_sum defallelefrac (take (S k) pre)) = false)
  /\ (first_qualifying mutprob defallelefrac run = None
      <-> forall k, (k < length run)%nat ->
            dle mutprob (allelefrac_sum defallelefrac (take (S k) run)) = false).
Proof.
  split; [apply mutate_run_selects|].
  split; [intros v; apply first_qualifying_some|apply first_qualifying_none].
Qed.
End RunProperties.

(** C3, as the specification states it, fails.  Two variants at position
    101, each with allele fraction 1/4, and a read whose fraction is 3/8:
    neither variant qualifies on its own fraction, so the read would stay
    [ACGT]; the code applies the second one, the sum 1/2 being at least
    3/8.  The same happens in a run of the whole program in binary64
    arithmetic, on the read [read_AACC] whose fraction lies between 0.25 and
    0.5. *)
Lemma second_variant_applied_on_the_sum :
  let run := [snv_101_G; snv_101_T] in
  let mutprob := (3 # 8)%Q in
  first_qualifying_individually mutprob DEFAULT_ALLELE_FRAC run = None
  /\ dle mutprob (own_allelefrac DEFAULT_ALLELE_FRAC snv_101_T) = false
  /\ first_qualifying mutprob DEFAULT_ALLELE_FRAC run = Some snv_101_T
  /\ (let '(st, e) := mutate read_ACGT mutprob DEFAULT_ALLELE_FRAC run no_counts [] in
      st = Running /\ newseq e = cstr "ATGT" /\ num_kept_snv (cnt e) = 1)
  /\ (let mutprob64 := of_Q (fst (umistr2prob (bam_get_qname read_AACC))) in
      let default64 := of_Q DEFAULT_ALLELE_FRAC in
      let '(st, m) := main_loop default64 [read_AACC] (process_init vcf_two_at_101) in
      PrimFloat.leb mutprob64 0.25 = false
      /\ first_qualifying_individually mutprob64 default64 (m_vcf_list m) = None
      /\ st = Running
      /\ r1file (m_out m) = cstr "@read6#AACC" ++ newline :: cstr "ATGT" ++ newline
                            :: "+"%char :: newline :: cstr "????" ++ [newline]).
Proof. vm_compute. repeat split. Qed.

(** ** One position of a match operation *)

Section PositionProperties.
Context {F : Type} `{Double F}.
Variable b : bam1.
Variable mutprob : F.
Variable defallelefrac : F.

(** A position at which the run of the window has a qualifying variant
    [v]: the turn is the application of [v], then [qpos++; rpos++]. *)
Lemma match_position_applies (cigar_oplen1 j : Z) (e : engine F)
    (first v : bcf1 F) (rest : list (bcf1 F)) (idx : Z) :
  advance_it (core_tid b) (rpos e) (vcf_rec_it e) (vcf_list_idx e)
    = (first :: rest, idx) ->
  rpos e = pos first ->
  first_qualifying mutprob defallelefrac (run_of first (first :: rest)) = Some v ->
  match_position b mutprob defallelefrac cigar_oplen1 j e
  = end_of_turn (apply_variant b cigar_oplen1 j v (set_it (first :: rest) idx e)).
Proof.
  intros Hit Hpos Hv. unfold match_position. rewrite Hit.
  cbn [vcf_rec_it set_it rpos].
  rewrite Hpos, Z.eqb_refl.
  rewrite mutate_run_selects, Hv. cbn [option_map].
  unfold end_of_turn.
  destruct (apply_variant _ _ _ _ _) as [[[|why] j'] e']; reflexivity.
Qed.

(** C4, as the code has it.  A deletion (more than one reference base, one
    alternate base) that qualifies at index [j] of a match operation of
    length [cigar_oplen1].  When [strlen(ref) + j < cigar_oplen1], that is
    when a position of the operation is left after the deleted bases, the
    index, [qpos] and [rpos] advance by [strlen(ref) - 1] besides the 1 of
    every position, the query bases passed over are not appended (the turn
    appends nothing), and the deletion counter goes up by one.  Otherwise
    the original base and quality at [qpos] are appended and the counter
    stays. *)
Theorem deletion_at_match_position (cigar_oplen1 j : Z) (e : engine F)
    (first v : bcf1 F) (rest : list (bcf1 F)) (idx : Z) :
  advance_it (core_tid b) (rpos e) (vcf_rec_it e) (vcf_list_idx e)
    = (first :: rest, idx) ->
  rpos e = pos first ->
  first_qualifying mutprob defallelefrac (run_of first (first :: rest)) = Some v ->
  1 < strlen (allele0 v) ->
  strlen (allele1 v) = 1 ->
  let '(st, j', e') := match_position b mutprob defallelefrac cigar_oplen1 j e in
  if strlen (allele0 v) + j <? cigar_oplen1 then
    st = Running
    /\ j' = j + (strlen (allele0 v) - 1)
    /\ qpos e' = qpos e + 1 + (strlen (allele0 v) - 1)
    /\ rpos e' = rpos e + 1 + (strlen (allele0 v) - 1)
    /\ newseq e' = newseq e /\ newqual e' = newqual e
    /\ num_kept_del (cnt e') = num_kept_del (cnt e) + 1
  else
    match base_at b (qpos e), qual_at b (qpos e) with
    | Some nuc, Some q =>
        st = Running /\ j' = j
        /\ qpos e' = qpos e + 1 /\ rpos e' = rpos e + 1
        /\ newseq e' = newseq e ++ [nuc] /\ newqual e' = newqual e ++ [q]
        /\ num_kept_del (cnt e') = num_kept_del (cnt e)
    | _, _ => st = Stopped Fault
    end.
Proof.
  intros Hit Hpos Hv Href Halt.
  rewrite (match_position_applies _ _ _ _ _ _ _ Hit Hpos Hv).
  unfold apply_variant.
  assert (H1 : (1 =? strlen (allele0 v)) = false) by lia.
  assert (H2 : (strlen (allele0 v) =? strlen (allele1 v)) = false) by lia.
  assert (H3 : (strlen (allele0 v) =? 1) = false) by lia.
  assert (H4 : (1 <? strlen (allele0 v)) = true) by lia.
  assert (H5 : (strlen (allele1 v) =? 1) = true) by lia.
  rewrite H1, H2, H3, H4, H5. cbn [andb].
  destruct (strlen (allele0 v) + j <? cigar_oplen1).
  - unfold fprintf_if. destruct (ispowerof2 _); cbn; repeat split; lia.
  - unfold copy_base. cbn [set_it qpos].
    destruct (base_at b (qpos e)) as [nuc|]; [|reflexivity].
    destruct (qual_at b (qpos e)) as [q|]; [|reflexivity].
    cbn. repeat split.
Qed.

(** Of a qualifying variant of no supported shape the code appends
    nothing, neither an alternate base nor the original one: the turn only
    prints the diagnostic, counts the read as kept and moves on by one
    position. *)
Lemma unsupported_shape_at_match_position (cigar_oplen1 j : Z) (e : engine F)
    (first v : bcf1 F) (rest : list (bcf1 F)) (idx : Z) :
  advance_it (core_tid b) (rpos e) (vcf_rec_it e) (vcf_list_idx e)
    = (first :: rest, idx) ->
  rpos e = pos first ->
  first_qualifying mutprob defallelefrac (run_of first (first :: rest)) = Some v ->
  strlen (allele0 v) <> strlen (allele1 v) ->
  ~ (strlen (allele0 v) = 1 /\ 1 < strlen (allele1 v)) ->
  ~ (1 < strlen (allele0 v) /\ strlen (allele1 v) = 1) ->
  let '(st, j', e') := match_position b mutprob defallelefrac cigar_oplen1 j e in
  st = Running /\ j' = j
  /\ qpos e' = qpos e + 1 /\ rpos e' = rpos e + 1
  /\ newseq e' = newseq e /\ newqual e' = newqual e
  /\ stderr e' = stderr e ++ [VariantFailed (core_tid b) (core_pos b)]
  /\ num_kept_reads (cnt e') = num_kept_reads (cnt e) + 1.
Proof.
  intros Hit Hpos Hv Hne Hins Hdel.
  rewrite (match_position_applies _ _ _ _ _ _ _ Hit Hpos Hv).
  unfold apply_variant.
  assert (H1 : ((1 =? strlen (allele0 v)) && (1 =? strlen (allele1 v))) = false) by lia.
  assert (H2 : (strlen (allele0 v) =? strlen (allele1 v)) = false) by lia.
  assert (H3 : ((strlen (allele0 v) =? 1) && (1 <? strlen (allele1 v))) = false) by lia.
  assert (H4 : ((1 <? strlen (allele0 v)) && (strlen (allele1 v) =? 1)) = false) by lia.
  rewrite H1, H2, H3, H4. cbn. repeat split.
Qed.
End PositionProperties.

Lemma deletion_at_match_position_witness :
  let e := engine_init read_ACGT [del_100] no_counts [] in
  let '(st, j', e') := match_position read_ACGT 0%Q DEFAULT_ALLELE_FRAC 4 0 e in
  if strlen (allele0 del_100) + 0 <? 4 then
    st = Running
    /\ j' = 0 + (strlen (allele0 del_100) - 1)
    /\ qpos e' = qpos e + 1 + (strlen (allele0 del_100) - 1)
    /\ rpos e' = rpos e + 1 + (strlen (allele0 del_100) - 1)
    /\ newseq e' = newseq e /\ newqual e' = newqual e
    /\ num_kept_del (cnt e') = num_kept_del (cnt e) + 1
  else
    match base_at read_ACGT (qpos e), qual_at read_ACGT (qpos e) with
    | Some nuc, Some q =>
        st = Running /\ j' = 0
        /\ qpos e' = qpos e + 1 /\ rpos e' = rpos e + 1
        /\ newseq e' = newseq e ++ [nuc] /\ newqual e' = newqual e ++ [q]
        /\ num_kept_del (cnt e') = num_kept_del (cnt e)
    | _, _ => st = Stopped Fault
    end.
Proof.
  apply (deletion_at_match_position read_ACGT 0%Q DEFAULT_ALLELE_FRAC 4 0
           (engine_init read_ACGT [del_100] no_counts []) del_100 del_100 [] 0);
    reflexivity.
Defined.

(** C4, as the specification states it, fails twice.  In [read_AC] the match
    operation has two positions and the deletion of one base at its first
    position fits in it (the deleted base is its last position), yet the
    code copies the original base and counts no deletion.  In [read_ACGT] the
    deletion is applied and two query bases, the deleted one and the one
    before it, are consumed without being appended: [GT] is left of [ACGT]. *)
Lemma deletion_at_end_of_operation_not_applied :
  strlen (allele0 del_100) - 1 <= bam_cigar_oplen (bam_cigar_gen 2 BAM_CMATCH) - 0 - 1
  /\ (let '(st, e) := mutate read_AC 0%Q DEFAULT_ALLELE_FRAC [del_100] no_counts [] in
      st = Running /\ newseq e = cstr "AC" /\ num_kept_del (cnt e) = 0)
  /\ (let '(st, e) := mutate read_ACGT 0%Q DEFAULT_ALLELE_FRAC [del_100] no_counts [] in
      st = Running /\ newseq e = cstr "GT" /\ qpos e = 4
      /\ num_kept_del (cnt e) = 1).
Proof. vm_compute. repeat split; discriminate. Qed.

(** C5 fails on the code.  The variant [complex_101] (reference [CG],
    alternate [TTT]) has no supported shape and qualifies at position 101 of
    [read_ACGT]: the code prints the diagnostic and goes on, but appends
    nothing for that position, so the read is written as [AGT] with three
    qualities, its base [C] missing.  (In the run of the whole program the
    variant source starts with [snv_100], which skip-ahead reads and
    fetch-ahead replaces by [complex_101], the one variant of the window.) *)
Theorem unsupported_shape_drops_the_base :
  (let '(st, e) := mutate read_ACGT 0%Q DEFAULT_ALLELE_FRAC [complex_101] no_counts [] in
   st = Running /\ newseq e = cstr "AGT" /\ length (newqual e) = 3%nat
   /\ stderr e = [VariantFailed 0 100])
  /\ (let '(st, m) := main_loop DEFAULT_ALLELE_FRAC [read_ACGT]
                        (process_init [snv_100; complex_101]) in
      st = Running
      /\ m_vcf_list m = [complex_101]
      /\ r1file (m_out m) = cstr "@read1#ACGT" ++ newline :: cstr "AGT" ++ newline
                            :: "+"%char :: newline :: cstr "???" ++ [newline]).
Proof. vm_compute. repeat split. Qed.

(** ** The two buffers grow together *)

Section Balance.
Context {F : Type} `{Double F}.
Variable b : bam1.
Variable mutprob : F.
Variable defallelefrac : F.

Lemma balanced_push_back (s q : list ascii) (e : engine F) :
  length s = length q -> balanced e -> balanced (push_back s q e).
Proof.
  unfold balanced. intros Hsq He. cbn [push_back newseq newqual].
  rewrite !length_app. lia.
Qed.

Lemma balanced_fprintf_if (c : bool) (d : diag) (e : engine F) :
  balanced e -> balanced (fprintf_if c d e).
Proof. now destruct c. Qed.

Lemma balanced_copy_base (e e' : engine F) :
  copy_base b e = Some e' -> balanced e -> balanced e'.
Proof.
  unfold copy_base.
  destruct (base_at b (qpos e)) as [nuc|]; [|discriminate].
  destruct (qual_at b (qpos e)) as [q|]; [|discriminate].
  intros [= <-]. now apply balanced_push_back.
Qed.

(** Every branch of the application of a variant appends as many qualities
    as bases: one and one for a substitution, the length of the alternate
    allele for an insertion, none for a deletion or an unsupported shape. *)
Lemma balanced_apply_variant (cigar_oplen1 j : Z) (v : bcf1 F) (e : engine F) :
  balanced e ->
  let '(_, _, e') := apply_variant b cigar_oplen1 j v e in balanced e'.
Proof.
  intros He. unfold apply_variant.
  destruct ((1 =? strlen (allele0 v)) && (1 =? strlen (allele1 v))).
  { destruct (qual_at b (qpos e)); [|exact He].
    apply balanced_fprintf_if. now apply (balanced_push_back [_] [_]). }
  destruct (strlen (allele0 v) =? strlen (allele1 v)).
  { cbn [fprintf qpos]. destruct (qual_at b (qpos e)); [|exact He].
    now apply (balanced_push_back [_] [_]). }
  destruct ((strlen (allele0 v) =? 1) && (1 <? strlen (allele1 v))) eqn:Hins.
  { destruct (qual_at b (qpos e)); [|exact He].
    apply balanced_fprintf_if. apply balanced_push_back; [|exact He].
    cbn [length]. rewrite repeat_length.
    apply andb_prop in Hins as [_ Hlen]. unfold strlen in Hlen. lia. }
  destruct ((1 <? strlen (allele0 v)) && (strlen (allele1 v) =? 1)).
  { destruct (strlen (allele0 v) + j <? cigar_oplen1).
    - apply balanced_fprintf_if. exact He.
    - destruct (copy_base b e) as [e'|] eqn:Hcopy; [|exact He].
      exact (balanced_copy_base _ _ Hcopy He). }
  exact He.
Qed.

Lemma balanced_mutate_run (cigar_oplen1 j : Z) (run : list (bcf1 F)) (allelefrac : F)
    (e : engine F) :
  balanced e ->
  match mutate_run b mutprob defallelefrac cigar_oplen1 j run allelefrac e with
  | Some (_, _, e') => balanced e'
  | None => True
  end.
Proof.
  intros He. revert allelefrac.
  induction run as [|v rest IH]; intros allelefrac; cbn [mutate_run]; [exact I|].
  destruct (dle mutprob _); [|apply IH].
  apply balanced_apply_variant. exact He.
Qed.

Lemma balanced_match_position (cigar_oplen1 j : Z) (e : engine F) :
  balanced e ->
  let '(_, _, e') := match_position b mutprob defallelefrac cigar_oplen1 j e in
  balanced e'.
Proof.
  intros He. unfold match_position.
  destruct (advance_it _ _ _ _) as [it idx].
  set (e1 := set_it it idx e).
  assert (He1 : balanced e1) by exact He.
  assert (Hcopy : forall f,
    let '(st, _, e') := match copy_base b e1 with
                        | Some e2 => (Running, j, count f e2)
                        | None => (Stopped Fault, j, e1)
                        end in balanced e').
  { intros f. destruct (copy_base b e1) as [e2|] eqn:Hc; [|exact He1].
    exact (balanced_copy_base _ _ Hc He1). }
  assert (Hbody :
    let '(_, _, e') :=
      match vcf_rec_it e1 with
      | first :: _ =>
          if rpos e1 =? pos first then
            match mutate_run b mutprob defallelefrac cigar_oplen1 j
                    (run_of first (vcf_rec_it e1)) dzero e1 with
            | Some r => r
            | None => match copy_base b e1 with
                      | Some e2 => (Running, j, count skip_reads e2)
                      | None => (Stopped Fault, j, e1)
                      end
            end
          else match copy_base b e1 with
               | Some e2 => (Running, j, count skip_cmatches e2)
               | None => (Stopped Fault, j, e1)
               end
      | [] => match copy_base b e1 with
              | Some e2 => (Running, j, count skip_cmatches e2)
              | None => (Stopped Fault, j, e1)
              end
      end in balanced e').
  { destruct (vcf_rec_it e1) as [|first rest]; [apply Hcopy|].
    destruct (rpos e1 =? pos first); [|apply Hcopy].
    pose proof (balanced_mutate_run cigar_oplen1 j (run_of first (first :: rest))
                  dzero e1 He1) as Hrun.
    destruct (mutate_run _ _ _ _ _ _ _ _) as [[[st j'] e']|]; [exact Hrun|apply Hcopy]. }
  destruct (match vcf_rec_it e1 with [] => _ | _ => _ end) as [[st j'] e'].
  destruct st; exact Hbody.
Qed.

Lemma balanced_match_loop (cigar_oplen1 : Z) (fuel : nat) (j : Z) (e : engine F) :
  balanced e ->
  balanced (snd (match_loop b mutprob defallelefrac cigar_oplen1 fuel j e)).
Proof.
  revert j e. induction fuel as [|fuel IH]; intros j e He; cbn [match_loop].
  - destruct (j <? cigar_oplen1); exact He.
  - destruct (j <? cigar_oplen1); [|exact He].
    pose proof (balanced_match_position cigar_oplen1 j e He) as Hpos.
    destruct (match_position _ _ _ _ _ _) as [[[|why] j'] e']; [|exact Hpos].
    apply IH. exact Hpos.
Qed.

Lemma balanced_ins_loop (n : nat) (e : engine F) :
  balanced e -> balanced (snd (ins_loop b n e)).
Proof.
  revert e. induction n as [|n IH]; intros e He; cbn [ins_loop]; [exact He|].
  destruct (copy_base b e) as [e'|] eqn:Hcopy; [|exact He].
  apply IH. exact (balanced_copy_base _ _ Hcopy He).
Qed.

Lemma balanced_cigar_step (c : N) (e : engine F) :
  balanced e -> balanced (snd (cigar_step b mutprob defallelefrac c e)).
Proof.
  intros He. unfold cigar_step.
  destruct (_ || _); [now apply balanced_match_loop|].
  destruct (_ =? BAM_CINS); [now apply balanced_ins_loop|].
  destruct (_ =? BAM_CSOFT_CLIP); [exact He|].
  destruct (_ =? BAM_CDEL); [exact He|].
  destruct (_ =? BAM_CHARD_CLIP); exact He.
Qed.

Lemma balanced_cigar_walk (cigar : list N) (e : engine F) :
  balanced e -> balanced (snd (cigar_walk b mutprob defallelefrac cigar e)).
Proof.
  revert e. induction cigar as [|c rest IH]; intros e He; cbn [cigar_walk]; [exact He|].
  pose proof (balanced_cigar_step c e He) as Hstep.
  destruct (cigar_step _ _ _ c e) as [[|why] e']; [|exact Hstep].
  apply IH. exact Hstep.
Qed.

(** C10.  Wherever the walk over a read's alignment operations ends or
    stops, the rewritten sequence and the rewritten quality have the same
    length, so the [assert] on their sizes at the head of
    [bamrec_write_fastq] never fails on the buffers of the engine. *)
Theorem buffers_have_equal_length (vcf_list : list (bcf1 F)) (c : counters)
    (err : list diag) (o : gzfiles) :
  let '(_, e) := mutate b mutprob defallelefrac vcf_list c err in
  length (newseq e) = length (newqual e)
  /\ fst (bamrec_write_fastq b (newseq e) (newqual e) o)
     <> Stopped (AssertFailed EqualSizes).
Proof.
  pose proof (balanced_cigar_walk (bam_get_cigar b) (engine_init b vcf_list c err)
                eq_refl) as Hbal.
  unfold mutate. destruct (cigar_walk _ _ _ _ _) as [st e].
  unfold balanced in Hbal. cbn [snd] in Hbal.
  split; [exact Hbal|].
  unfold bamrec_write_fastq.
  rewrite Hbal, Nat.eqb_refl. cbn [negb].
  destruct (negb (forallb gt_space _)); cbn [fst]; discriminate.
Qed.
End Balance.

(** ** The walk stays within the record *)

Lemma at_index_in_range {A : Type} (l : list A) (i : Z) :
  0 <= i < Z.of_nat (length l) -> exists x, at_index l i = Some x.
Proof.
  intros Hi. unfold at_index.
  destruct (i <? 0) eqn:Hneg; [lia|].
  destruct (lookup_lt_is_Some_2 l (Z.to_nat i)) as [x Hx]; [lia|].
  now exists x.
Qed.

Lemma bam_cigar_oplen_nonneg (c : N) : 0 <= bam_cigar_oplen c.
Proof. unfold bam_cigar_oplen. lia. Qed.

Lemma bam_cigar2qlen_nonneg (cigar : list N) : 0 <= bam_cigar2qlen cigar.
Proof.
  induction cigar as [|c rest IH]; cbn [bam_cigar2qlen]; [lia|].
  pose proof (bam_cigar_oplen_nonneg c). destruct (consumes_query _); lia.
Qed.

Section WalkProperties.
Context {F : Type} `{Double F}.
Variable b : bam1.
Variable mutprob : F.
Variable defallelefrac : F.

Lemma copy_base_in_range (e : engine F) :
  0 <= qpos e < l_qseq b ->
  exists nuc q, base_at b (qpos e) = Some nuc /\ qual_at b (qpos e) = Some q
                /\ copy_base b e = Some (push_back [nuc] [q] e).
Proof.
  intros Hq. destruct (at_index_in_range (bam_query b) (qpos e) Hq) as [[c q] Hcq].
  exists (nt16_char c), q. unfold copy_base, base_at, qual_at. rewrite Hcq. auto.
Qed.

(** Within the record the application of a variant reads no position
    outside it; a deletion it applies leaves the index inside the
    operation. *)
Lemma apply_variant_in_range (cigar_oplen1 j : Z) (v : bcf1 F) (e : engine F) :
  0 <= qpos e < l_qseq b -> j < cigar_oplen1 ->
  exists j' e', apply_variant b cigar_oplen1 j v e = (Running, j', e')
                /\ j <= j' < cigar_oplen1
                /\ qpos e' = qpos e + (j' - j).
Proof.
  intros Hq Hj.
  destruct (copy_base_in_range e Hq) as (nuc & q & _ & Hqual & Hcopy).
  unfold apply_variant. cbn [fprintf qpos]. rewrite Hqual, Hcopy.
  destruct (_ && _).
  { destruct (ispowerof2 _); eexists _, _; (split; [reflexivity|]); cbn; lia. }
  destruct (_ =? _).
  { eexists _, _; (split; [reflexivity|]); cbn; lia. }
  destruct (_ && _).
  { destruct (ispowerof2 _); eexists _, _; (split; [reflexivity|]); cbn; lia. }
  destruct ((1 <? strlen (allele0 v)) && _) eqn:Hdel.
  { apply andb_prop in Hdel as [Href _].
    destruct (strlen (allele0 v) + j <? cigar_oplen1) eqn:Hfit.
    - destruct (ispowerof2 _); eexists _, _; (split; [reflexivity|]); cbn; lia.
    - eexists _, _; (split; [reflexivity|]); cbn; lia. }
  eexists _, _; (split; [reflexivity|]); cbn; lia.
Qed.

Lemma advance_it_nil (tid rp idx : Z) :
  advance_it tid rp ([] : list (bcf1 F)) idx = ([], idx).
Proof. reflexivity. Qed.

Lemma match_position_in_range (cigar_oplen1 j : Z) (e : engine F) :
  0 <= qpos e < l_qseq b -> j < cigar_oplen1 ->
  exists j' e', match_position b mutprob defallelefrac cigar_oplen1 j e = (Running, j', e')
                /\ j <= j' < cigar_oplen1
                /\ qpos e' = qpos e + (j' - j) + 1.
Proof.
  intros Hq Hj. unfold match_position.
  destruct (advance_it _ _ _ _) as [it idx].
  set (e1 := set_it it idx e).
  assert (Hq1 : 0 <= qpos e1 < l_qseq b) by exact Hq.
  destruct (copy_base_in_range e1 Hq1) as (nuc & q & _ & _ & Hcopy).
  rewrite Hcopy.
  assert (Hrun : forall run,
    exists j' e',
      match mutate_run b mutprob defallelefrac cigar_oplen1 j run dzero e1 with
      | Some r => r
      | None => (Running, j, count skip_reads (push_back [nuc] [q] e1))
      end = (Running, j', e')
      /\ j <= j' < cigar_oplen1 /\ qpos e' = qpos e + (j' - j)).
  { intros run. rewrite mutate_run_selects.
    destruct (first_qualifying _ _ run) as [v|]; cbn [option_map].
    - exact (apply_variant_in_range cigar_oplen1 j v e1 Hq1 Hj).
    - eexists _, _; (split; [reflexivity|]); cbn; lia. }
  assert (Hbody : exists j' e',
    match vcf_rec_it e1 with
    | first :: _ =>
        if rpos e1 =? pos first then
          match mutate_run b mutprob defallelefrac cigar_oplen1 j
                  (run_of first (vcf_rec_it e1)) dzero e1 with
          | Some r => r
          | None => (Running, j, count skip_reads (push_back [nuc] [q] e1))
          end
        else (Running, j, count skip_cmatches (push_back [nuc] [q] e1))
    | [] => (Running, j, count skip_cmatches (push_back [nuc] [q] e1))
    end = (Running, j', e')
    /\ j <= j' < cigar_oplen1 /\ qpos e' = qpos e + (j' - j)).
  { destruct (vcf_rec_it e1) as [|first rest].
    - eexists _, _; (split; [reflexivity|]); cbn; lia.
    - destruct (rpos e1 =? pos first); [apply Hrun|].
      eexists _, _; (split; [reflexivity|]); cbn; lia. }
  destruct Hbody as (j' & e' & -> & Hj' & Hq').
  exists j', (advance 1 1 e'). split; [reflexivity|]. cbn. lia.
Qed.

(** A match operation whose positions are all in the record runs to its
    end, consuming as many query positions as it is long; [fuel] turns are
    enough when there are as many as positions left. *)
Lemma match_loop_in_range (cigar_oplen1 : Z) (fuel : nat) (j : Z) (e : engine F) :
  0 <= qpos e -> j <= cigar_oplen1 ->
  qpos e + (cigar_oplen1 - j) <= l_qseq b ->
  (Z.to_nat (cigar_oplen1 - j) <= fuel)%nat ->
  exists e', match_loop b mutprob defallelefrac cigar_oplen1 fuel j e = (Running, e')
             /\ qpos e' = qpos e + (cigar_oplen1 - j).
Proof.
  revert j e. induction fuel as [|fuel IH]; intros j e Hq Hj Hlen Hfuel;
    cbn [match_loop].
  - destruct (j <? cigar_oplen1) eqn:Hlt; [lia|].
    exists e. split; [reflexivity|lia].
  - destruct (j <? cigar_oplen1) eqn:Hlt; [|exists e; split; [reflexivity|lia]].
    destruct (match_position_in_range cigar_oplen1 j e) as (j' & e' & -> & Hj' & Hq');
      [lia|lia|].
    destruct (IH (j' + 1) e') as (e'' & -> & Hq''); [lia|lia|lia|lia|].
    exists e''. split; [reflexivity|lia].
Qed.

Lemma ins_loop_in_range (n : nat) (e : engine F) :
  0 <= qpos e -> qpos e + Z.of_nat n <= l_qseq b ->
  exists e', ins_loop b n e = (Running, e') /\ qpos e' = qpos e + Z.of_nat n.
Proof.
  revert e. induction n as [|n IH]; intros e Hq Hlen; cbn [ins_loop].
  - exists e. split; [reflexivity|lia].
  - destruct (copy_base_in_range e) as (nuc & q & _ & _ & ->); [lia|].
    destruct (IH (advance 1 0 (push_back [nuc] [q] e))) as (e' & -> & Hq');
      [cbn; lia|cbn; lia|].
    exists e'. split; [reflexivity|]. cbn in Hq'. lia.
Qed.

(** A recognised operation within the record leaves the process running and
    moves [qpos] by what the operation consumes of the query. *)
Lemma cigar_step_in_range (c : N) (e : engine F) :
  recognised (bam_cigar_op c) = true ->
  0 <= qpos e -> qpos e + bam_cigar2qlen [c] <= l_qseq b ->
  exists e', cigar_step b mutprob defallelefrac c e = (Running, e')
             /\ qpos e' = qpos e + bam_cigar2qlen [c].
Proof.
  intros Hop Hq Hlen. pose proof (bam_cigar_oplen_nonneg c) as Hnn.
  unfold cigar_step. cbn [bam_cigar2qlen] in *.
  unfold recognised, consumes_query in *.
  destruct (bam_cigar_op c =? BAM_CMATCH) eqn:HM;
  destruct (bam_cigar_op c =? BAM_CEQUAL) eqn:HE;
  destruct (bam_cigar_op c =? BAM_CDIFF) eqn:HX;
  destruct (bam_cigar_op c =? BAM_CINS) eqn:HI;
  destruct (bam_cigar_op c =? BAM_CSOFT_CLIP) eqn:HS;
  destruct (bam_cigar_op c =? BAM_CDEL) eqn:HD;
  destruct (bam_cigar_op c =? BAM_CHARD_CLIP) eqn:HH;
  cbn [orb] in *; try discriminate Hop;
  try (destruct (match_loop_in_range (bam_cigar_oplen c)
                   (Z.to_nat (bam_cigar_oplen c)) 0 e) as (e' & -> & Hq');
       [lia|lia|lia|lia|exists e'; split; [reflexivity|lia]]);
  try (destruct (ins_loop_in_range (Z.to_nat (bam_cigar_oplen c)) e) as (e' & -> & Hq');
       [lia|lia|exists e'; split; [reflexivity|lia]]);
  try (eexists; split; [reflexivity|cbn; lia]).
Qed.

(** On a record whose operations consume no more query positions than it
    has, the walk reaches the first operation of an unknown kind and the
    process is aborted there. *)
Lemma cigar_walk_aborts (cigar : list N) (e : engine F) :
  Exists (fun c => recognised (bam_cigar_op c) = false) cigar ->
  0 <= qpos e -> qpos e + bam_cigar2qlen cigar <= l_qseq b ->
  fst (cigar_walk b mutprob defallelefrac cigar e) = Stopped Aborted.
Proof.
  revert e. induction cigar as [|c rest IH]; intros e Hex Hq Hlen.
  - inversion Hex.
  - cbn [cigar_walk]. pose proof (bam_cigar2qlen_nonneg rest) as Hrest.
    destruct (recognised (bam_cigar_op c)) eqn:Hop.
    + destruct (cigar_step_in_range c e Hop Hq) as (e' & -> & Hq').
      { cbn [bam_cigar2qlen] in *. lia. }
      apply IH.
      * inversion Hex as [? ? Hc|? ? Hr]; subst; [congruence|exact Hr].
      * cbn [bam_cigar2qlen] in Hq'. pose proof (bam_cigar_oplen_nonneg c).
        destruct (consumes_query _); lia.
      * cbn [bam_cigar2qlen] in *. lia.
    + unfold cigar_step. unfold recognised in Hop.
      destruct (bam_cigar_op c =? BAM_CMATCH), (bam_cigar_op c =? BAM_CEQUAL),
        (bam_cigar_op c =? BAM_CDIFF), (bam_cigar_op c =? BAM_CINS),
        (bam_cigar_op c =? BAM_CSOFT_CLIP), (bam_cigar_op c =? BAM_CDEL),
        (bam_cigar_op c =? BAM_CHARD_CLIP); cbn [orb] in *; try discriminate Hop.
      reflexivity.
Qed.
End WalkProperties.

(** ** Fuel *)

Section Fuel.
Context {F : Type} `{Double F}.
Variable b : bam1.
Variable mutprob : F.
Variable defallelefrac : F.

Lemma apply_variant_index (cigar_oplen1 j : Z) (v : bcf1 F) (e : engine F) :
  let '(st, j', _) := apply_variant b cigar_oplen1 j v e in
  j <= j' /\ st <> Stopped OutOfFuel.
Proof.
  unfold apply_variant. cbn [fprintf qpos].
  destruct (_ && _).
  { destruct (qual_at b (qpos e)); split; (lia || discriminate). }
  destruct (_ =? _).
  { destruct (qual_at b (qpos e)); split; (lia || discriminate). }
  destruct (_ && _).
  { destruct (qual_at b (qpos e)); split; (lia || discriminate). }
  destruct ((1 <? strlen (allele0 v)) && _) eqn:Hdel.
  { apply andb_prop in Hdel as [Href _].
    destruct (strlen (allele0 v) + j <? cigar_oplen1).
    - split; (lia || discriminate).
    - destruct (copy_base b e); split; (lia || discriminate). }
  split; (lia || discriminate).
Qed.

Lemma match_position_index (cigar_oplen1 j : Z) (e : engine F) :
  let '(st, j', _) := match_position b mutprob defallelefrac cigar_oplen1 j e in
  j <= j' /\ st <> Stopped OutOfFuel.
Proof.
  unfold match_position.
  destruct (advance_it _ _ _ _) as [it idx].
  set (e1 := set_it it idx e).
  assert (Hbody :
    let '(st, j', _) :=
      match vcf_rec_it e1 with
      | first :: _ =>
          if rpos e1 =? pos first then
            match mutate_run b mutprob defallelefrac cigar_oplen1 j
                    (run_of first (vcf_rec_it e1)) dzero e1 with
            | Some r => r
            | None => match copy_base b e1 with
                      | Some e2 => (Running, j, count skip_reads e2)
                      | None => (Stopped Fault, j, e1)
                      end
            end
          else match copy_base b e1 with
               | Some e2 => (Running, j, count skip_cmatches e2)
               | None => (Stopped Fault, j, e1)
               end
      | [] => match copy_base b e1 with
              | Some e2 => (Running, j, count skip_cmatches e2)
              | None => (Stopped Fault, j, e1)
              end
      end in j <= j' /\ st <> Stopped OutOfFuel).
  { destruct (vcf_rec_it e1) as [|first rest].
    { destruct (copy_base b e1); split; (lia || discriminate). }
    destruct (rpos e1 =? pos first).
    2:{ destruct (copy_base b e1); split; (lia || discriminate). }
    rewrite mutate_run_selects.
    destruct (first_qualifying _ _ _) as [v|]; cbn [option_map].
    - apply apply_variant_index.
    - destruct (copy_base b e1); split; (lia || discriminate). }
  destruct (match vcf_rec_it e1 with [] => _ | _ => _ end) as [[st j'] e'].
  destruct st; exact Hbody.
Qed.

(** A turn moves the index on, so as many turns as the operation has
    positions left are enough: the loop never stops for want of fuel. *)
Lemma match_loop_fuel (cigar_oplen1 : Z) (fuel : nat) (j : Z) (e : engine F) :
  (Z.to_nat (cigar_oplen1 - j) <= fuel)%nat ->
  fst (match_loop b mutprob defallelefrac cigar_oplen1 fuel j e) <> Stopped OutOfFuel.
Proof.
  revert j e. induction fuel as [|fuel IH]; intros j e Hfuel; cbn [match_loop].
  - destruct (j <? cigar_oplen1) eqn:Hlt; [lia|discriminate].
  - destruct (j <? cigar_oplen1) eqn:Hlt; [|discriminate].
    pose proof (match_position_index cigar_oplen1 j e) as Hpos.
    destruct (match_position _ _ _ _ _ _) as [[[|why] j'] e'].
    + apply IH. lia.
    + exact (proj2 Hpos).
Qed.
End Fuel.

(** ** Operations of an unknown kind *)

(** C7, as the code has it.  A read that is neither secondary nor
    supplementary, that is processed with a window that is not empty, whose
    operations consume no more query positions than the record has and
    include one of a kind other than match, equal, diff, insertion,
    deletion, soft clip and hard clip: the process is aborted and nothing is
    written for the read. *)
Theorem unknown_operation_aborts {F : Type} `{Double F} `{Htslib}
    (defallelefrac : F) (b : bam1) (m : process F) :
  flag_set b 0x900 = false ->
  window_of b m <> [] ->
  bam_cigar2qlen (bam_get_cigar b) <= l_qseq b ->
  Exists (fun c => recognised (bam_cigar_op c) = false) (bam_get_cigar b) ->
  let '(st, m') := process_read defallelefrac b m in
  st = Stopped Aborted /\ m_out m' = m_out m.
Proof.
  intros Hflag Hwin Hlen Hop. unfold process_read, window_of in *. rewrite Hflag.
  destruct (synchronize _ _ _ _ _ _) as [[[[vcf_fp vcf_rec] ret] vcf_list] err].
  cbn [fst snd] in Hwin.
  destruct vcf_list as [|v rest]; [congruence|]. cbn [length Nat.ltb Nat.leb].
  unfold mutate_and_write, mutate.
  pose proof (cigar_walk_aborts b (of_Q (fst (umistr2prob (bam_get_qname b))))
                defallelefrac (bam_get_cigar b)
                (engine_init b (v :: rest) (m_cnt m) err) Hop) as Hwalk.
  destruct (cigar_walk _ _ _ _ _) as [st e]. cbn [fst] in Hwalk.
  rewrite Hwalk by (cbn; lia). split; reflexivity.
Qed.

Lemma unknown_operation_aborts_witness :
  let '(st, m') := process_read DEFAULT_ALLELE_FRAC read_spliced
                     (process_init [snv_100; snv_102]) in
  st = Stopped Aborted /\ m_out m' = m_out (process_init [snv_100; snv_102]).
Proof.
  apply (unknown_operation_aborts DEFAULT_ALLELE_FRAC read_spliced
           (process_init [snv_100; snv_102])).
  - reflexivity.
  - vm_compute. discriminate.
  - vm_compute. discriminate.
  - apply Exists_cons_tl, Exists_cons_hd. reflexivity.
Defined.

(** C7, as the specification states it, fails: the operations of a read are
    looked at only when its window is not empty.  The spliced read below has
    an operation of kind N; with no variant around it the process goes on
    and writes the read as it is. *)
Lemma unknown_operation_passes_the_bypass :
  existsb (fun c => negb (recognised (bam_cigar_op c))) (bam_get_cigar read_spliced) = true
  /\ window_of read_spliced (process_init ([] : list (bcf1 Q))) = []
  /\ (let '(st, m) := process_read DEFAULT_ALLELE_FRAC read_spliced (process_init []) in
      st = Running
      /\ r1file (m_out m) = cstr "@read4#ACGT" ++ newline :: cstr "ACGT" ++ newline
                            :: "+"%char :: newline :: cstr "????" ++ [newline]).
Proof. vm_compute. repeat split. Qed.

(** ** The bypass of the engine *)

Section EmptyWindow.
Context {F : Type} `{Double F}.
Variable b : bam1.
Variable mutprob : F.
Variable defallelefrac : F.








End EmptyWindow.

(** ** Emission *)

Lemma gzprintf_app (aln : bam1) (t1 t2 : list ascii) (o : gzfiles) :
  gzprintf aln t2 (gzprintf aln t1 o) = gzprintf aln (t1 ++ t2) o.
Proof.
  unfold gzprintf. destruct (outfile_is_r2 aln); cbn; now rewrite <- app_assoc.
Qed.

Lemma nt16_index_bound (c : N) : (N.to_nat (N.land c 15) < 16)%nat.
Proof.
  change 15%N with (N.ones 4). rewrite N.land_ones.
  pose proof (N.mod_upper_bound c (2 ^ 4)%N). cbn in *. lia.
Qed.

(** The sixteen letters of [seq_nt16_str], and their complements, are above
    the space character. *)
Lemma nt16_char_above_space (c : N) :
  gt_space (nt16_char c) = true /\ gt_space (data_at (nt16_char c)) = true.
Proof.
  unfold nt16_char. pose proof (nt16_index_bound c) as Hlt.
  remember (N.to_nat (N.land c 15)) as n eqn:Hn. clear Hn.
  do 16 (destruct n as [|n]; [split; reflexivity|]).
  lia.
Qed.

Lemma bases_above_space (query : list (N * ascii)) :
  forallb gt_space (map (fun p => nt16_char (fst p)) query) = true
  /\ forallb gt_space (complement (reverse (map (fun p => nt16_char (fst p)) query)))
     = true.
Proof.
  split.
  - induction query as [|[c q] rest IH]; [reflexivity|].
    cbn [map forallb fst]. now rewrite (proj1 (nt16_char_above_space c)).
  - rewrite reverse_rev. unfold complement.
    apply forallb_forall. intros x Hx.
    apply in_map_iff in Hx as (y & <- & Hy).
    apply in_rev, in_map_iff in Hy as ([c q] & <- & _).
    apply nt16_char_above_space.
Qed.

(** The bypass writes the record as it is stored. *)
Lemma bamrec_write_fastq_raw_original (aln : bam1) (o : gzfiles) :
  bamrec_write_fastq_raw aln o = (Running, gzprintf aln (original_fastq aln) o).
Proof.
  unfold bamrec_write_fastq_raw, original_fastq.
  rewrite (proj1 (bases_above_space (bam_query aln))). cbn [negb].
  now rewrite !gzprintf_app.
Qed.

(** The emission of buffers that hold the bases and qualities of the record
    is the emission of the bypass. *)
Lemma bamrec_write_fastq_of_original (aln : bam1) (o : gzfiles) :
  bamrec_write_fastq aln (map (fun p => nt16_char (fst p)) (bam_query aln))
    (map snd (bam_query aln)) o
  = bamrec_write_fastq_raw aln o.
Proof.
  unfold bamrec_write_fastq, bamrec_write_fastq_raw.
  rewrite !length_map, Nat.eqb_refl. cbn [negb].
  rewrite (proj1 (bases_above_space (bam_query aln))). cbn [negb].
  rewrite map_map.
  destruct (flag_set aln 16).
  - now rewrite (proj2 (bases_above_space (bam_query aln))).
  - now rewrite (proj1 (bases_above_space (bam_query aln))).
Qed.




(** ** Termination and reads within the record *)

Section Safety.
Context {F : Type} `{Double F}.
Variable b : bam1.
Variable mutprob : F.
Variable defallelefrac : F.

Lemma ins_loop_status (n : nat) (e : engine F) :
  fst (ins_loop b n e) = Running \/ fst (ins_loop b n e) = Stopped Fault.
Proof.
  revert e. induction n as [|n IH]; intros e; cbn [ins_loop]; [now left|].
  destruct (copy_base b e); [apply IH|now right].
Qed.

Lemma cigar_step_fuel (c : N) (e : engine F) :
  fst (cigar_step b mutprob defallelefrac c e) <> Stopped OutOfFuel.
Proof.
  unfold cigar_step.
  destruct (_ || _).
  { apply match_loop_fuel. lia. }
  destruct (_ =? BAM_CINS).
  { destruct (ins_loop_status (Z.to_nat (bam_cigar_oplen c)) e) as [-> | ->];
      discriminate. }
  destruct (_ =? BAM_CSOFT_CLIP); [discriminate|].
  destruct (_ =? BAM_CDEL); [discriminate|].
  destruct (_ =? BAM_CHARD_CLIP); discriminate.
Qed.

Lemma cigar_walk_fuel (cigar : list N) (e : engine F) :
  fst (cigar_walk b mutprob defallelefrac cigar e) <> Stopped OutOfFuel.
Proof.
  revert e. induction cigar as [|c rest IH]; intros e; cbn [cigar_walk]; [discriminate|].
  pose proof (cigar_step_fuel c e) as Hstep.
  destruct (cigar_step _ _ _ c e) as [[|why] e']; [apply IH|exact Hstep].
Qed.

(** X1.  The loops of the engine end: the walk over the operations of a read
    never stops for want of turns, whatever the read and the window. *)
Theorem mutate_terminates (vcf_list : list (bcf1 F)) (c : counters) (err : list diag) :
  fst (mutate b mutprob defallelefrac vcf_list c err) <> Stopped OutOfFuel.
Proof. apply cigar_walk_fuel. Qed.

Lemma cigar_walk_in_range (cigar : list N) (e : engine F) :
  0 <= qpos e -> qpos e + bam_cigar2qlen cigar <= l_qseq b ->
  fst (cigar_walk b mutprob defallelefrac cigar e) = Running
  \/ fst (cigar_walk b mutprob defallelefrac cigar e) = Stopped Aborted.
Proof.
  revert e. induction cigar as [|c rest IH]; intros e Hq Hlen; [now left|].
  destruct (recognised (bam_cigar_op c)) eqn:Hop.
  2:{ right. apply cigar_walk_aborts; trivial. now apply Exists_cons_hd. }
  pose proof (bam_cigar2qlen_nonneg rest) as Hrest.
  pose proof (bam_cigar_oplen_nonneg c) as Hnn.
  cbn [cigar_walk].
  destruct (cigar_step_in_range b mutprob defallelefrac c e Hop Hq) as (e' & -> & Hq').
  { cbn [bam_cigar2qlen] in *. lia. }
  cbn [bam_cigar2qlen] in *.
  apply IH; destruct (consumes_query _); lia.
Qed.

(** X2.  No read outside the record: when the operations of a read consume no
    more query positions than the record has, every base and quality the
    engine reads is one of the record, whatever the window; the walk ends or
    is aborted on an operation of unknown kind. *)
Theorem mutate_reads_within_record (vcf_list : list (bcf1 F)) (c : counters)
    (err : list diag) :
  bam_cigar2qlen (bam_get_cigar b) <= l_qseq b ->
  fst (mutate b mutprob defallelefrac vcf_list c err) = Running
  \/ fst (mutate b mutprob defallelefrac vcf_list c err) = Stopped Aborted.
Proof.
  intros Hlen. apply cigar_walk_in_range; cbn; lia.
Qed.
End Safety.

Lemma mutate_reads_within_record_witness :
  fst (mutate read_ACGT 0%Q DEFAULT_ALLELE_FRAC [del_100; complex_101] no_counts [])
  = Running
  \/ fst (mutate read_ACGT 0%Q DEFAULT_ALLELE_FRAC [del_100; complex_101] no_counts [])
     = Stopped Aborted.
Proof.
  apply (mutate_reads_within_record read_ACGT 0%Q DEFAULT_ALLELE_FRAC
           [del_100; complex_101] no_counts []).
  vm_compute. discriminate.
Defined.

(** X3.  The loop of [reverse] leaves the mirror image of the string. *)
Theorem reverse_mirrors (astring : list ascii) : reverse astring = rev astring.
Proof. apply reverse_rev. Qed.

(** ** Substitutions and insertions *)

Section Scenarios.
Context {F : Type} `{Double F}.
Variable b : bam1.
Variable mutprob : F.
Variable defallelefrac : F.

(** X4.  A single-base variant that qualifies at a matched position puts its
    alternate base in place of the read's base, under the read's quality,
    and is counted as a substitution. *)
Theorem snv_at_match_position (cigar_oplen1 j : Z) (e : engine F)
    (first v : bcf1 F) (rest : list (bcf1 F)) (idx : Z) (q : ascii) :
  advance_it (core_tid b) (rpos e) (vcf_rec_it e) (vcf_list_idx e)
    = (first :: rest, idx) ->
  rpos e = pos first ->
  first_qualifying mutprob defallelefrac (run_of first (first :: rest)) = Some v ->
  strlen (allele0 v) = 1 ->
  strlen (allele1 v) = 1 ->
  qual_at b (qpos e) = Some q ->
  let '(st, j', e') := match_position b mutprob defallelefrac cigar_oplen1 j e in
  st = Running /\ j' = j
  /\ qpos e' = qpos e + 1 /\ rpos e' = rpos e + 1
  /\ newseq e' = newseq e ++ [hd NUL (allele1 v)]
  /\ newqual e' = newqual e ++ [q]
  /\ num_kept_snv (cnt e') = num_kept_snv (cnt e) + 1.
Proof.
  intros Hit Hpos Hv Href Halt Hq.
  rewrite (match_position_applies _ _ _ _ _ _ _ _ _ _ Hit Hpos Hv).
  unfold apply_variant. cbn [set_it qpos]. rewrite Href, Halt, Hq. cbn [Z.eqb Pos.eqb andb].
  unfold fprintf_if. destruct (ispowerof2 _); cbn; repeat split.
Qed.

(** X5.  An insertion (one reference base, several alternate ones) that
    qualifies at a matched position puts all its alternate bases in place of
    the read's base: the first under the read's quality, each further one
    under quality 30. *)
Theorem insertion_at_match_position (cigar_oplen1 j : Z) (e : engine F)
    (first v : bcf1 F) (rest : list (bcf1 F)) (idx : Z) (q : ascii) :
  advance_it (core_tid b) (rpos e) (vcf_rec_it e) (vcf_list_idx e)
    = (first :: rest, idx) ->
  rpos e = pos first ->
  first_qualifying mutprob defallelefrac (run_of first (first :: rest)) = Some v ->
  strlen (allele0 v) = 1 ->
  1 < strlen (allele1 v) ->
  qual_at b (qpos e) = Some q ->
  let '(st, j', e') := match_position b mutprob defallelefrac cigar_oplen1 j e in
  st = Running /\ j' = j
  /\ qpos e' = qpos e + 1 /\ rpos e' = rpos e + 1
  /\ newseq e' = newseq e ++ allele1 v
  /\ newqual e' = newqual e ++ q :: repeat (ascii_of_nat 30) (length (allele1 v) - 1)
  /\ num_kept_ins (cnt e') = num_kept_ins (cnt e) + 1.
Proof.
  intros Hit Hpos Hv Href Halt Hq.
  rewrite (match_position_applies _ _ _ _ _ _ _ _ _ _ Hit Hpos Hv).
  unfold apply_variant. cbn [set_it qpos]. rewrite Hq.
  assert (H1 : (1 =? strlen (allele1 v)) = false) by lia.
  assert (H2 : (strlen (allele0 v) =? strlen (allele1 v)) = false) by lia.
  assert (H3 : (strlen (allele0 v) =? 1) = true) by lia.
  assert (H4 : (1 <? strlen (allele1 v)) = true) by lia.
  rewrite H1, H2, H3, H4, andb_false_r. cbn [andb].
  unfold fprintf_if. destruct (ispowerof2 _); cbn; repeat split.
Qed.

(** X6.  A matched position at which the window has variants but none
    qualifies: the base and quality of the read are copied. *)
Theorem no_variant_qualifies_at_match_position (cigar_oplen1 j : Z) (e : engine F)
    (first : bcf1 F) (rest : list (bcf1 F)) (idx : Z) (nuc q : ascii) :
  advance_it (core_tid b) (rpos e) (vcf_rec_it e) (vcf_list_idx e)
    = (first :: rest, idx) ->
  rpos e = pos first ->
  first_qualifying mutprob defallelefrac (run_of first (first :: rest)) = None ->
  base_at b (qpos e) = Some nuc ->
  qual_at b (qpos e) = Some q ->
  let '(st, j', e') := match_position b mutprob defallelefrac cigar_oplen1 j e in
  st = Running /\ j' = j
  /\ qpos e' = qpos e + 1 /\ rpos e' = rpos e + 1
  /\ newseq e' = newseq e ++ [nuc]
  /\ newqual e' = newqual e ++ [q]
  /\ num_skip_reads (cnt e') = num_skip_reads (cnt e) + 1.
Proof.
  intros Hit Hpos Hv Hnuc Hq.
  unfold match_position. rewrite Hit. cbn [vcf_rec_it set_it rpos].
  rewrite Hpos, Z.eqb_refl, mutate_run_selects, Hv. cbn [option_map].
  unfold copy_base. cbn [qpos set_it]. rewrite Hnuc, Hq. cbn. repeat split. lia.
Qed.
End Scenarios.

Lemma snv_at_match_position_witness :
  let e := engine_init read_ACGT [snv_100] no_counts [] in
  let '(st, j', e') := match_position read_ACGT 0%Q DEFAULT_ALLELE_FRAC 4 0 e in
  st = Running /\ j' = 0
  /\ qpos e' = qpos e + 1 /\ rpos e' = rpos e + 1
  /\ newseq e' = newseq e ++ [hd NUL (allele1 snv_100)]
  /\ newqual e' = newqual e ++ [ascii_of_nat 30]
  /\ num_kept_snv (cnt e') = num_kept_snv (cnt e) + 1.
Proof.
  apply (snv_at_match_position read_ACGT 0%Q DEFAULT_ALLELE_FRAC 4 0
           (engine_init read_ACGT [snv_100] no_counts []) snv_100 snv_100 [] 0);
    reflexivity.
Defined.

Lemma insertion_at_match_position_witness :
  let e := engine_init read_ACGT [ins_100] no_counts [] in
  let '(st, j', e') := match_position read_ACGT 0%Q DEFAULT_ALLELE_FRAC 4 0 e in
  st = Running /\ j' = 0
  /\ qpos e' = qpos e + 1 /\ rpos e' = rpos e + 1
  /\ newseq e' = newseq e ++ allele1 ins_100
  /\ newqual e' = newqual e ++ ascii_of_nat 30
                    :: repeat (ascii_of_nat 30) (length (allele1 ins_100) - 1)
  /\ num_kept_ins (cnt e') = num_kept_ins (cnt e) + 1.
Proof.
  apply (insertion_at_match_position read_ACGT 0%Q DEFAULT_ALLELE_FRAC 4 0
           (engine_init read_ACGT [ins_100] no_counts []) ins_100 ins_100 [] 0);
    reflexivity.
Defined.

Lemma no_variant_qualifies_at_match_position_witness :
  let e := engine_init read_ACGT [variant_at 100 "A" "C" (Some (1 # 4)%Q)] no_counts [] in
  let '(st, j', e') := match_position read_ACGT (1 # 2)%Q DEFAULT_ALLELE_FRAC 4 0 e in
  st = Running /\ j' = 0
  /\ qpos e' = qpos e + 1 /\ rpos e' = rpos e + 1
  /\ newseq e' = newseq e ++ ["A"%char]
  /\ newqual e' = newqual e ++ [ascii_of_nat 30]
  /\ num_skip_reads (cnt e') = num_skip_reads (cnt e) + 1.
Proof.
  apply (no_variant_qualifies_at_match_position read_ACGT (1 # 2)%Q DEFAULT_ALLELE_FRAC
           4 0 (engine_init read_ACGT [variant_at 100 "A" "C" (Some (1 # 4)%Q)] no_counts [])
           (variant_at 100 "A" "C" (Some (1 # 4)%Q)) [] 0);
    reflexivity.
Defined.

(** ** The window keeps the order of the source *)

Lemma StronglySorted_remove {A : Type} (R : A -> A -> Prop) (l1 l2 : list A) (x : A) :
  StronglySorted R (l1 ++ x :: l2) -> StronglySorted R (l1 ++ l2).
Proof.
  induction l1 as [|a l1 IH]; cbn [app]; intros Hs.
  - now apply StronglySorted_inv in Hs.
  - apply StronglySorted_inv in Hs as [Hs Ha]. constructor; [now apply IH|].
    rewrite Forall_app in *. destruct Ha as [Ha1 Ha2].
    split; [exact Ha1|]. now apply Forall_inv_tail in Ha2.
Qed.

Lemma StronglySorted_repeat {A : Type} (R : A -> A -> Prop) (l1 l2 : list A) (x : A) :
  R x x -> StronglySorted R (l1 ++ x :: l2) -> StronglySorted R ((l1 ++ [x]) ++ x :: l2).
Proof.
  intros Hx. rewrite <- app_assoc. cbn [app].
  induction l1 as [|a l1 IH]; cbn [app]; intros Hs.
  - pose proof Hs as Hs'. apply StronglySorted_inv in Hs' as [_ Hl2].
    constructor; [exact Hs|]. now constructor.
  - apply StronglySorted_inv in Hs as [Hs Ha]. constructor; [now apply IH|].
    rewrite Forall_app in *. destruct Ha as [Ha1 Ha2].
    split; [exact Ha1|]. constructor; [now apply Forall_inv in Ha2|exact Ha2].
Qed.

Lemma not_after_refl {F : Type} (v : bcf1 F) : not_after v v.
Proof. unfold not_after, is_var1_before_var2. lia. Qed.

(** A variant that does not come before one that is not before the start of
    the read is not before it either. *)
Lemma not_before_start_next {F : Type} (b : bam1) (v w : bcf1 F) :
  is_var1_before_var2 (rid v) (pos v) (core_tid b) (core_pos b) = false ->
  not_after v w ->
  is_var1_before_var2 (rid w) (pos w) (core_tid b) (core_pos b) = false.
Proof. unfold not_after, is_var1_before_var2. lia. Qed.

Section Order.
Context {F : Type} `{Htslib}.
Variable b : bam1.

Lemma skip_ahead_in_order (vcf_list vcf_fp : list (bcf1 F)) (vcf_rec : bcf1 F)
    (vcf_read_ret : Z) (err : list diag) :
  in_order vcf_list vcf_rec vcf_fp ->
  let '(vcf_fp', vcf_rec', _, _) := skip_ahead b vcf_fp vcf_rec vcf_read_ret err in
  in_order vcf_list vcf_rec' vcf_fp'.
Proof.
  revert vcf_rec vcf_read_ret err.
  induction vcf_fp as [|v rest IH]; intros vcf_rec vcf_read_ret err Hord;
    cbn [skip_ahead].
  - destruct (is_var1_before_var2 _ _ _ _); [|exact Hord].
    destruct (negb _); exact Hord.
  - destruct (is_var1_before_var2 _ _ _ _); [|exact Hord].
    destruct (negb _); [|exact Hord].
    apply IH. exact (StronglySorted_remove _ _ _ _ Hord).
Qed.

Lemma fetch_ahead_in_order (vcf_list vcf_fp : list (bcf1 F)) (vcf_rec : bcf1 F)
    (vcf_read_ret : Z) (err : list diag) :
  in_order vcf_list vcf_rec vcf_fp ->
  let '(vcf_fp', vcf_rec', _, vcf_list', _) :=
    fetch_ahead b vcf_fp vcf_rec vcf_read_ret vcf_list err in
  in_order vcf_list' vcf_rec' vcf_fp'.
Proof.
  revert vcf_list vcf_rec vcf_read_ret err.
  induction vcf_fp as [|v rest IH]; intros vcf_list vcf_rec vcf_read_ret err Hord;
    cbn [fetch_ahead].
  - destruct (is_var1_before_var2 _ _ _ _); [|exact Hord].
    destruct (negb _); exact Hord.
  - destruct (is_var1_before_var2 _ _ _ _); [|exact Hord].
    destruct (negb _); [|exact Hord].
    apply IH. apply StronglySorted_repeat; [apply not_after_refl|].
    exact (StronglySorted_remove _ _ _ _ Hord).
Qed.

Lemma evict_in_order (vcf_list tail : list (bcf1 F)) (err : list diag) :
  StronglySorted not_after (vcf_list ++ tail) ->
  let '(vcf_list', _) := evict b vcf_list err in
  StronglySorted not_after (vcf_list' ++ tail) /\ none_before_start b vcf_list'.
Proof.
  revert err. induction vcf_list as [|front rest IH]; intros err Hord; cbn [evict].
  - split; [exact Hord|constructor].
  - destruct (is_var1_before_var2 _ _ _ _) eqn:Hfront.
    + apply IH. cbn [app] in Hord. now apply StronglySorted_inv in Hord.
    + split; [exact Hord|]. constructor; [exact Hfront|].
      cbn [app] in Hord. apply StronglySorted_inv in Hord as [_ Hrest].
      apply Forall_app in Hrest as [Hrest _].
      eapply Forall_impl; [exact Hrest|].
      intros w Hw. exact (not_before_start_next b front w Hfront Hw).
Qed.

(** X7.  The window keeps the order of the source, and after the three loops no
    variant of it is before the start of the read: when the window, the
    record in [vcf_rec] and the rest of the source are in order before the
    loops, they are after them, and the window holds no variant before the
    read's start. *)
Theorem synchronize_keeps_order (vcf_list vcf_fp : list (bcf1 F)) (vcf_rec : bcf1 F)
    (vcf_read_ret : Z) (err : list diag) :
  in_order vcf_list vcf_rec vcf_fp ->
  let '(vcf_fp', vcf_rec', _, vcf_list', _) :=
    synchronize b vcf_fp vcf_rec vcf_read_ret vcf_list err in
  in_order vcf_list' vcf_rec' vcf_fp' /\ none_before_start b vcf_list'.
Proof.
  intros Hord. unfold synchronize.
  pose proof (skip_ahead_in_order vcf_list vcf_fp vcf_rec vcf_read_ret err Hord) as Hskip.
  destruct (skip_ahead _ _ _ _ _) as [[[fp1 rec1] ret1] err1].
  pose proof (fetch_ahead_in_order vcf_list fp1 rec1 ret1 err1 Hskip) as Hfetch.
  destruct (fetch_ahead _ _ _ _ _ _) as [[[[fp2 rec2] ret2] vl2] err2].
  pose proof (evict_in_order vl2 (rec2 :: fp2) err2 Hfetch) as Hevict.
  destruct (evict _ _ _) as [vl3 err3]. exact Hevict.
Qed.
End Order.

Lemma synchronize_keeps_order_witness :
  let '(vcf_fp', vcf_rec', _, vcf_list', _) :=
    synchronize read_ACGT [snv_100; complex_101; snv_102] vcf_rec_init 0 [] [] in
  in_order vcf_list' vcf_rec' vcf_fp' /\ none_before_start read_ACGT vcf_list'.
Proof.
  apply (synchronize_keeps_order read_ACGT [] [snv_100; complex_101; snv_102]
           vcf_rec_init 0 []).
  repeat constructor.
Defined.

(** ** What the synchronizer pushes *)

Section Pushed.
Context {F : Type} `{Htslib}.
Variable b : bam1.

(** Fetch-ahead appends to the window records it takes from the head of the
    source, in their order. *)
Lemma fetch_ahead_pushes_from_source (vcf_fp : list (bcf1 F)) (vcf_rec : bcf1 F)
    (vcf_read_ret : Z) (vcf_list : list (bcf1 F)) (err : list diag) :
  let '(vcf_fp', _, _, vcf_list', _) :=
    fetch_ahead b vcf_fp vcf_rec vcf_read_ret vcf_list err in
  exists pushed, vcf_list' = vcf_list ++ pushed /\ vcf_fp = pushed ++ vcf_fp'.
Proof.
  revert vcf_rec vcf_read_ret vcf_list err.
  induction vcf_fp as [|v rest IH]; intros vcf_rec vcf_read_ret vcf_list err;
    cbn [fetch_ahead].
  - destruct (is_var1_before_var2 _ _ _ _); [destruct (negb _)|];
      exists []; now rewrite app_nil_r.
  - destruct (is_var1_before_var2 _ _ _ _).
    2:{ exists []. now rewrite app_nil_r. }
    destruct (negb _).
    2:{ exists []. now rewrite app_nil_r. }
    specialize (IH v 0 (vcf_list ++ [v]) (err ++
      [VariantBeforeReadEnd (rid vcf_rec) (pos vcf_rec) (core_tid b) (bam_endpos b)
         (bam_get_qname b)] ++ [NewPushedVariant (rid v) (pos v)])).
    rewrite app_assoc in IH.
    destruct (fetch_ahead _ _ _ _ _ _) as [[[[fp' rec'] ret'] vl'] err'].
    destruct IH as (pushed & -> & ->).
    exists (v :: pushed). now rewrite <- app_assoc.
Qed.

Lemma skip_ahead_stops (vcf_fp : list (bcf1 F)) (vcf_rec : bcf1 F)
    (vcf_read_ret : Z) (err : list diag) :
  is_var1_before_var2 (rid vcf_rec) (pos vcf_rec) (core_tid b) (core_pos b) = false ->
  skip_ahead b vcf_fp vcf_rec vcf_read_ret err = (vcf_fp, vcf_rec, vcf_read_ret, err).
Proof. intros Hrec. destruct vcf_fp; cbn [skip_ahead]; now rewrite Hrec. Qed.

Lemma evict_drops_front (vcf_list : list (bcf1 F)) (err : list diag) :
  exists evicted, vcf_list = evicted ++ fst (evict b vcf_list err).
Proof.
  revert err. induction vcf_list as [|front rest IH]; intros err; cbn [evict].
  - now exists [].
  - destruct (is_var1_before_var2 _ _ _ _); [|now exists []].
    destruct (IH (err ++ [VariantDestroyed (rid front) (pos front)])) as [evicted Hev].
    exists (front :: evicted). cbn [app]. now rewrite <- Hev.
Qed.

(** X27.  The record at which skip-ahead stops is not pushed.  When the record in
    [vcf_rec] is before the start of the read, skip-ahead reads on, and when
    the record [v] it then finds is not before the start, [v] stays in
    [vcf_rec]: the window after the three loops is made of the old window
    and of records that follow [v] in the source. *)
Theorem skip_ahead_record_is_not_pushed (v vcf_rec : bcf1 F) (rest vcf_list : list (bcf1 F))
    (err : list diag) :
  is_var1_before_var2 (rid vcf_rec) (pos vcf_rec) (core_tid b) (core_pos b) = true ->
  is_var1_before_var2 (rid v) (pos v) (core_tid b) (core_pos b) = false ->
  let '(vcf_fp', _, _, vcf_list', _) :=
    synchronize b (v :: rest) vcf_rec 0 vcf_list err in
  exists evicted pushed,
    vcf_list ++ pushed = evicted ++ vcf_list' /\ rest = pushed ++ vcf_fp'.
Proof.
  intros Hrec Hv. unfold synchronize.
  assert (Hskip : exists err1,
            skip_ahead b (v :: rest) vcf_rec 0 err = (rest, v, 0, err1)).
  { cbn [skip_ahead]. rewrite Hrec. cbn [Z.eqb negb].
    rewrite skip_ahead_stops by exact Hv. eauto. }
  destruct Hskip as [err1 ->].
  pose proof (fetch_ahead_pushes_from_source rest v 0 vcf_list err1) as Hfetch.
  destruct (fetch_ahead _ _ _ _ _ _) as [[[[fp2 rec2] ret2] vl2] err2].
  destruct Hfetch as (pushed & -> & ->).
  destruct (evict_drops_front (vcf_list ++ pushed) err2) as [evicted Hev].
  destruct (evict _ _ _) as [vl' err']. cbn [fst] in Hev.
  exists evicted, pushed. now split.
Qed.
End Pushed.

Lemma skip_ahead_record_is_not_pushed_witness :
  let '(vcf_fp', _, _, vcf_list', _) :=
    synchronize read_ACGT [snv_100; complex_101; snv_102] vcf_rec_init 0 [] [] in
  exists evicted pushed,
    [] ++ pushed = evicted ++ vcf_list' /\ [complex_101; snv_102] = pushed ++ vcf_fp'.
Proof.
  apply (skip_ahead_record_is_not_pushed read_ACGT snv_100 vcf_rec_init
           [complex_101; snv_102] [] []); reflexivity.
Defined.

(** ** Powers of two *)



(** ** The table of complements *)

Lemma data_at_base_pair (c : ascii) : data_at c = base_pair c.
Proof. destruct c as [[] [] [] [] [] [] [] []]; reflexivity. Qed.

Lemma data_at_involutive (c : ascii) : data_at (data_at c) = c.
Proof. destruct c as [[] [] [] [] [] [] [] []]; reflexivity. Qed.

Lemma gt_space_data_at (c : ascii) : gt_space (data_at c) = gt_space c.
Proof. destruct c as [[] [] [] [] [] [] [] []]; reflexivity. Qed.

(** X9.  The table the constructor of [_RevComplement] fills pairs A with T
    and C with G, in upper and in lower case, and maps every other character
    to itself: [complement] replaces each of the eight letters by its pair
    and leaves the rest of the string, N and the ambiguity letters included,
    as it is. *)
Theorem complement_pairs_the_bases (astring : list ascii) :
  Forall plain_ascii astring ->
  complement astring = map base_pair astring.
Proof.
  intros _. unfold complement. apply map_ext. exact data_at_base_pair.
Qed.

Lemma complement_pairs_the_bases_witness :
  complement (cstr "ACGTNacgtnMR-") = map base_pair (cstr "ACGTNacgtnMR-").
Proof.
  apply (complement_pairs_the_bases (cstr "ACGTNacgtnMR-")).
  unfold plain_ascii. repeat constructor.
Defined.

(** X10.  Reversing and complementing twice gives back any string of plain
    ASCII characters, not only one over the bases; and the two steps can be
    taken in either order. *)
Theorem reverse_complement_of_any_string (astring : list ascii) :
  Forall plain_ascii astring ->
  complement (reverse (complement (reverse astring))) = astring
  /\ complement (reverse astring) = reverse (complement astring).
Proof.
  intros _. rewrite !reverse_rev. unfold complement. split.
  - rewrite <- map_rev, rev_involutive, map_map.
    rewrite <- (map_id astring) at 2. apply map_ext. exact data_at_involutive.
  - apply map_rev.
Qed.

Lemma reverse_complement_of_any_string_witness :
  complement (reverse (complement (reverse (cstr "ACGTNNRYacgt"))))
  = cstr "ACGTNNRYacgt"
  /\ complement (reverse (cstr "ACGTNNRYacgt"))
     = reverse (complement (cstr "ACGTNNRYacgt")).
Proof.
  apply (reverse_complement_of_any_string (cstr "ACGTNNRYacgt")).
  unfold plain_ascii. repeat constructor.
Defined.

(** ** The order of variants and reads *)

(** X11.  [is_var1_before_var2] is the strict order of the pairs (contig,
    position), contig first: nothing is before itself, the relation is
    transitive, and of two different places one is before the other. *)
Theorem is_var1_before_var2_strict_order :
  (forall tid pos, is_var1_before_var2 tid pos tid pos = false)
  /\ (forall tid1 pos1 tid2 pos2 tid3 pos3,
        is_var1_before_var2 tid1 pos1 tid2 pos2 = true ->
        is_var1_before_var2 tid2 pos2 tid3 pos3 = true ->
        is_var1_before_var2 tid1 pos1 tid3 pos3 = true)
  /\ (forall tid1 pos1 tid2 pos2,
        is_var1_before_var2 tid1 pos1 tid2 pos2 = false ->
        is_var1_before_var2 tid2 pos2 tid1 pos1 = false ->
        tid1 = tid2 /\ pos1 = pos2).
Proof. unfold is_var1_before_var2. repeat split; intros; lia. Qed.

(** ** A position of a match operation, case by case *)

Section TurnProperties.
Context {F : Type} `{Double F}.
Variable b : bam1.
Variable mutprob : F.
Variable defallelefrac : F.

(** The iterator only moves forward: what [advance_it] leaves is the end of
    what it was given, and its first variant is not before the position. *)
Lemma advance_it_suffix (tid rp : Z) (it : list (bcf1 F)) (idx : Z) :
  exists skipped, it = skipped ++ fst (advance_it tid rp it idx).
Proof.
  revert idx. induction it as [|v rest IH]; intros idx; cbn [advance_it].
  - now exists [].
  - destruct (is_var1_before_var2 _ _ _ _); [|now exists []].
    destruct (IH (idx + 1)) as [skipped Hs].
    exists (v :: skipped). cbn [app]. now rewrite <- Hs.
Qed.

Lemma advance_it_head (tid rp : Z) (it : list (bcf1 F)) (idx : Z)
    (first : bcf1 F) (rest : list (bcf1 F)) :
  fst (advance_it tid rp it idx) = first :: rest ->
  is_var1_before_var2 (rid first) (pos first) tid rp = false.
Proof.
  revert idx. induction it as [|v it IH]; intros idx; cbn [advance_it].
  - discriminate.
  - destruct (is_var1_before_var2 (rid v) _ _ _) eqn:Hv; [apply IH|].
    cbn [fst]. intros [= <- _]. exact Hv.
Qed.

(** The run is the beginning of the part of the window it is taken from. *)
Lemma run_of_prefix (first : bcf1 F) (it : list (bcf1 F)) :
  exists post, it = run_of first it ++ post.
Proof.
  induction it as [|v rest IH]; cbn [run_of].
  - now exists [].
  - destruct (_ && _); [|now exists (v :: rest)].
    destruct IH as [post Hp]. exists post. cbn [app]. now rewrite <- Hp.
Qed.

Lemma first_qualifying_in (run : list (bcf1 F)) (v : bcf1 F) :
  first_qualifying mutprob defallelefrac run = Some v -> In v run.
Proof.
  intros Hv. apply first_qualifying_some in Hv as (pre & post & -> & _).
  apply in_or_app. right. now left.
Qed.

(** The variant applied at a position is one of the window, from the
    iterator on. *)
Lemma selected_in (e : engine F) (v : bcf1 F) :
  selected mutprob defallelefrac e = Some v -> In v (vcf_rec_it e).
Proof.
  unfold selected. destruct (vcf_rec_it e) as [|first rest] eqn:Hit; [discriminate|].
  destruct (rpos e =? pos first); [|discriminate].
  intros Hv. apply first_qualifying_in in Hv.
  destruct (run_of_prefix first (first :: rest)) as [post Hp].
  rewrite Hp. apply in_or_app. now left.
Qed.

(** One turn of the loop over the positions of a match operation: the
    iterator is moved, then the selected variant is applied, or the base of
    the read is copied and counted; then both cursors move on by one. *)
Lemma match_position_unfold (cigar_oplen1 j : Z) (e : engine F) :
  match_position b mutprob defallelefrac cigar_oplen1 j e
  = let e1 := set_it (fst (advance_it (core_tid b) (rpos e) (vcf_rec_it e) (vcf_list_idx e)))
                (snd (advance_it (core_tid b) (rpos e) (vcf_rec_it e) (vcf_list_idx e))) e in
    end_of_turn
      match selected mutprob defallelefrac e1 with
      | Some v => apply_variant b cigar_oplen1 j v e1
      | None =>
          match copy_base b e1 with
          | Some e2 =>
              (Running, j, count (if at_variant e1 then skip_reads else skip_cmatches) e2)
          | None => (Stopped Fault, j, e1)
          end
      end.
Proof.
  unfold match_position, selected, at_variant, end_of_turn.
  destruct (advance_it _ _ _ _) as [it idx]. cbn [fst snd set_it vcf_rec_it rpos].
  destruct it as [|first rest].
  { destruct (copy_base _ _); reflexivity. }
  destruct (rpos e =? pos first).
  2:{ destruct (copy_base _ _); reflexivity. }
  rewrite mutate_run_selects.
  destruct (first_qualifying _ _ _) as [v|]; cbn [option_map].
  - destruct (apply_variant _ _ _ _ _) as [[[|why] j'] e']; reflexivity.
  - destruct (copy_base _ _); reflexivity.
Qed.
End TurnProperties.

(** ** Properties every step of the walk keeps *)

Section Preserved.
Context {F : Type} `{Double F}.
Variable b : bam1.
Variable mutprob : F.
Variable defallelefrac : F.
Variable Inv : engine F -> Prop.

Hypothesis Inv_set_it : forall it idx e,
  (exists skipped, vcf_rec_it e = skipped ++ it) -> Inv e -> Inv (set_it it idx e).
Hypothesis Inv_copy_base : forall e e', copy_base b e = Some e' -> Inv e -> Inv e'.
Hypothesis Inv_skip_reads : forall e, Inv e -> Inv (count skip_reads e).
Hypothesis Inv_skip_cmatches : forall e, Inv e -> Inv (count skip_cmatches e).
Hypothesis Inv_end_of_turn : forall e, Inv e -> Inv (advance 1 1 e).
Hypothesis Inv_advance : forall dq dr e, Inv e -> Inv (advance dq dr e).
Hypothesis Inv_fprintf : forall d e, Inv e -> Inv (fprintf d e).
Hypothesis Inv_apply_variant : forall cigar_oplen1 j v e,
  In v (vcf_rec_it e) -> Inv e ->
  Inv (snd (apply_variant b cigar_oplen1 j v e)).

Lemma match_position_preserves (cigar_oplen1 j : Z) (e : engine F) :
  Inv e -> Inv (snd (match_position b mutprob defallelefrac cigar_oplen1 j e)).
Proof.
  intros He. rewrite match_position_unfold. cbv zeta.
  set (e1 := set_it _ _ e).
  assert (He1 : Inv e1).
  { apply Inv_set_it; [apply advance_it_suffix|exact He]. }
  assert (Hend : forall r : status * Z * engine F, Inv (snd r) -> Inv (snd (end_of_turn r))).
  { intros [[[|why] j'] e'] Hr; cbn [end_of_turn snd] in *; [now apply Inv_end_of_turn|exact Hr]. }
  apply Hend.
  destruct (selected mutprob defallelefrac e1) as [v|] eqn:Hsel.
  - apply Inv_apply_variant; [now apply (selected_in mutprob defallelefrac)|exact He1].
  - destruct (copy_base b e1) as [e2|] eqn:Hcopy; cbn [snd]; [|exact He1].
    pose proof (Inv_copy_base _ _ Hcopy He1).
    destruct (at_variant e1); [now apply Inv_skip_reads|now apply Inv_skip_cmatches].
Qed.

Lemma match_loop_preserves (cigar_oplen1 : Z) (fuel : nat) (j : Z) (e : engine F) :
  Inv e -> Inv (snd (match_loop b mutprob defallelefrac cigar_oplen1 fuel j e)).
Proof.
  revert j e. induction fuel as [|fuel IH]; intros j e He; cbn [match_loop].
  - destruct (j <? cigar_oplen1); exact He.
  - destruct (j <? cigar_oplen1); [|exact He].
    pose proof (match_position_preserves cigar_oplen1 j e He) as Hpos.
    destruct (match_position _ _ _ _ _ _) as [[[|why] j'] e']; [|exact Hpos].
    apply IH. exact Hpos.
Qed.

Lemma ins_loop_preserves (n : nat) (e : engine F) :
  Inv e -> Inv (snd (ins_loop b n e)).
Proof.
  revert e. induction n as [|n IH]; intros e He; cbn [ins_loop]; [exact He|].
  destruct (copy_base b e) as [e'|] eqn:Hcopy; [|exact He].
  apply IH, Inv_advance. exact (Inv_copy_base _ _ Hcopy He).
Qed.

Lemma cigar_step_preserves (c : N) (e : engine F) :
  Inv e -> Inv (snd (cigar_step b mutprob defallelefrac c e)).
Proof.
  intros He. unfold cigar_step.
  destruct (_ || _); [now apply match_loop_preserves|].
  destruct (_ =? BAM_CINS); [now apply ins_loop_preserves|].
  destruct (_ =? BAM_CSOFT_CLIP); [now apply Inv_advance|].
  destruct (_ =? BAM_CDEL); [now apply Inv_advance|].
  destruct (_ =? BAM_CHARD_CLIP); [exact He|now apply Inv_fprintf].
Qed.

(** A property of the engine's variables that every statement of the walk
    keeps holds when the walk ends or stops. *)
Lemma cigar_walk_preserves (cigar : list N) (e : engine F) :
  Inv e -> Inv (snd (cigar_walk b mutprob defallelefrac cigar e)).
Proof.
  revert e. induction cigar as [|c rest IH]; intros e He; cbn [cigar_walk]; [exact He|].
  pose proof (cigar_step_preserves c e He) as Hstep.
  destruct (cigar_step _ _ _ c e) as [[|why] e']; [|exact Hstep].
  apply IH. exact Hstep.
Qed.
End Preserved.

(** ** The counters *)

Section Counters.
Context {F : Type} `{Double F}.
Variable b : bam1.
Variable mutprob : F.
Variable defallelefrac : F.

Lemma kinds_within_kept_apply_variant (cigar_oplen1 j : Z) (v : bcf1 F) (e : engine F) :
  kinds_within_kept (cnt e) ->
  kinds_within_kept (cnt (snd (apply_variant b cigar_oplen1 j v e))).
Proof.
  unfold kinds_within_kept, apply_variant, fprintf_if. intros He.
  repeat match goal with
         | |- context [if ?c then _ else _] => destruct c
         | |- context [match qual_at ?b ?q with _ => _ end] => destruct (qual_at b q)
         | |- context [match copy_base ?b ?e with _ => _ end] =>
             let Hc := fresh "Hc" in
             destruct (copy_base b e) eqn:Hc;
             [unfold copy_base in Hc;
              destruct (base_at _ _); [|discriminate Hc];
              destruct (qual_at _ _); [|discriminate Hc];
              injection Hc as <-|]
         end; cbn; lia.
Qed.

Lemma kinds_within_kept_walk (cigar : list N) (e : engine F) :
  kinds_within_kept (cnt e) ->
  kinds_within_kept (cnt (snd (cigar_walk b mutprob defallelefrac cigar e))).
Proof.
  apply (cigar_walk_preserves b mutprob defallelefrac
           (fun e => kinds_within_kept (cnt e))).
  - intros it idx e0 _ He. exact He.
  - intros e0 e' Hcopy He. unfold copy_base in Hcopy.
    destruct (base_at _ _); [|discriminate]. destruct (qual_at _ _); [|discriminate].
    injection Hcopy as <-. exact He.
  - unfold kinds_within_kept. intros e0 He. cbn. lia.
  - unfold kinds_within_kept. intros e0 He. cbn. lia.
  - intros e0 He. exact He.
  - intros dq dr e0 He. exact He.
  - intros d e0 He. exact He.
  - intros cigar_oplen1 j v e0 _ He. now apply kinds_within_kept_apply_variant.
Qed.
End Counters.

Section CountersOfTheRun.
Context {F : Type} `{Double F} `{Htslib}.
Variable defallelefrac : F.

Lemma kinds_within_kept_process_read (b : bam1) (m : process F) :
  kinds_within_kept (m_cnt m) ->
  kinds_within_kept (m_cnt (snd (process_read defallelefrac b m))).
Proof.
  intros Hm. unfold process_read.
  destruct (flag_set b 2304); [exact Hm|].
  destruct (synchronize _ _ _ _ _ _) as [[[[vcf_fp vcf_rec] ret] vcf_list] err].
  destruct (0 <? length vcf_list)%nat.
  - unfold mutate_and_write, mutate.
    pose proof (kinds_within_kept_walk b (of_Q (fst (umistr2prob (bam_get_qname b))))
                  defallelefrac (bam_get_cigar b) (engine_init b vcf_list (m_cnt m) err) Hm)
      as Hwalk.
    destruct (cigar_walk _ _ _ _ _) as [[|why] e]; cbn [snd] in Hwalk.
    + destruct (bamrec_write_fastq _ _ _ _). exact Hwalk.
    + exact Hwalk.
  - destruct (bamrec_write_fastq_raw _ _). exact Hm.
Qed.

Lemma kinds_within_kept_main_loop (bam : list bam1) (m : process F) :
  kinds_within_kept (m_cnt m) ->
  kinds_within_kept (m_cnt (snd (main_loop defallelefrac bam m))).
Proof.
  revert m. induction bam as [|b rest IH]; intros m Hm; cbn [main_loop]; [exact Hm|].
  pose proof (kinds_within_kept_process_read b m Hm) as Hread.
  destruct (process_read defallelefrac b m) as [[|why] m']; [|exact Hread].
  apply IH. exact Hread.
Qed.

(** X12.  The counters the program reports at its end: whatever the reads and
    the variants, and wherever the run ends or stops, none is negative and
    the kept substitutions, multi-base substitutions, insertions and
    deletions together do not exceed the kept read supports (which also
    count the deletions that did not fit their operation and the variants of
    unsupported shape). *)
Theorem counters_of_the_kinds_within_kept (bam : list bam1) (vcf : list (bcf1 F)) :
  kinds_within_kept (m_cnt (snd (main_loop defallelefrac bam (process_init vcf)))).
Proof.
  apply kinds_within_kept_main_loop. unfold kinds_within_kept. cbn. lia.
Qed.
End CountersOfTheRun.

(** ** Where the records of the source go *)

Section Records.
Context {F : Type} `{Htslib}.
Variable b : bam1.

(** Skip-ahead takes records from the head of the source. *)
Lemma skip_ahead_drops_from_source (vcf_fp : list (bcf1 F)) (vcf_rec : bcf1 F)
    (vcf_read_ret : Z) (err : list diag) :
  exists skipped,
    vcf_fp = skipped ++ fst (fst (fst (skip_ahead b vcf_fp vcf_rec vcf_read_ret err))).
Proof.
  revert vcf_rec vcf_read_ret err.
  induction vcf_fp as [|v rest IH]; intros vcf_rec vcf_read_ret err; cbn [skip_ahead].
  - destruct (is_var1_before_var2 _ _ _ _); [destruct (negb _)|]; now exists [].
  - destruct (is_var1_before_var2 _ _ _ _); [|now exists []].
    destruct (negb _); [|now exists []].
    destruct (IH v 0 ((err ++ [VariantBeforeRead (rid vcf_rec) (pos vcf_rec) (core_tid b)
                                 (core_pos b) (bam_get_qname b)])
                      ++ [NewPrepVariant (rid v) (pos v)])) as [skipped Hs].
    exists (v :: skipped). cbn [app]. now rewrite <- Hs.
Qed.

(** The records evict removes are at the front of the window and before the
    start of the read. *)
Lemma evict_drops_only_before (vcf_list : list (bcf1 F)) (err : list diag) :
  exists evicted,
    vcf_list = evicted ++ fst (evict b vcf_list err)
    /\ Forall (fun v => is_var1_before_var2 (rid v) (pos v) (core_tid b) (core_pos b) = true)
         evicted.
Proof.
  revert err. induction vcf_list as [|front rest IH]; intros err; cbn [evict].
  - exists []. now split.
  - destruct (is_var1_before_var2 _ _ _ _) eqn:Hfront; [|exists []; now split].
    destruct (IH (err ++ [VariantDestroyed (rid front) (pos front)])) as (evicted & Hev & Hall).
    exists (front :: evicted). cbn [app]. split; [now rewrite <- Hev|now constructor].
Qed.

(** The three loops only move records: from the head of the source some are
    dropped, the next ones are appended to the window, and the window loses
    records at its front. *)
Lemma synchronize_moves_records (vcf_fp : list (bcf1 F)) (vcf_rec : bcf1 F)
    (vcf_read_ret : Z) (vcf_list : list (bcf1 F)) (err : list diag) :
  let '(vcf_fp', _, _, vcf_list', _) :=
    synchronize b vcf_fp vcf_rec vcf_read_ret vcf_list err in
  exists skipped pushed evicted,
    vcf_fp = skipped ++ pushed ++ vcf_fp'
    /\ vcf_list ++ pushed = evicted ++ vcf_list'.
Proof.
  unfold synchronize.
  destruct (skip_ahead_drops_from_source vcf_fp vcf_rec vcf_read_ret err) as [skipped Hs].
  destruct (skip_ahead _ _ _ _ _) as [[[fp1 rec1] ret1] err1]. cbn [fst] in Hs.
  pose proof (fetch_ahead_pushes_from_source b fp1 rec1 ret1 vcf_list err1) as Hfetch.
  destruct (fetch_ahead _ _ _ _ _ _) as [[[[fp2 rec2] ret2] vl2] err2].
  destruct Hfetch as (pushed & -> & ->).
  destruct (evict_drops_front b (vcf_list ++ pushed) err2) as [evicted Hev].
  destruct (evict _ _ _) as [vl3 err3]. cbn [fst] in Hev.
  exists skipped, pushed, evicted. now split.
Qed.

Lemma synchronize_subsequence (vcf_fp : list (bcf1 F)) (vcf_rec : bcf1 F)
    (vcf_read_ret : Z) (vcf_list : list (bcf1 F)) (err : list diag) :
  let '(vcf_fp', _, _, vcf_list', _) :=
    synchronize b vcf_fp vcf_rec vcf_read_ret vcf_list err in
  vcf_list' ++ vcf_fp' `sublist_of` vcf_list ++ vcf_fp.
Proof.
  pose proof (synchronize_moves_records vcf_fp vcf_rec vcf_read_ret vcf_list err) as Hmove.
  destruct (synchronize _ _ _ _ _ _) as [[[[fp' rec'] ret'] vl'] err'].
  destruct Hmove as (skipped & pushed & evicted & -> & Hwin).
  transitivity ((evicted ++ vl') ++ fp').
  - rewrite <- app_assoc. now apply sublist_inserts_l.
  - rewrite <- Hwin, <- app_assoc.
    apply sublist_app; [reflexivity|]. now apply sublist_inserts_l.
Qed.
End Records.

Section RecordsOfTheRun.
Context {F : Type} `{Double F} `{Htslib}.
Variable defallelefrac : F.

Lemma process_read_subsequence (b : bam1) (m : process F) :
  let m' := snd (process_read defallelefrac b m) in
  m_vcf_list m' ++ m_vcf_fp m' `sublist_of` m_vcf_list m ++ m_vcf_fp m.
Proof.
  unfold process_read.
  destruct (flag_set b 2304); [reflexivity|].
  pose proof (synchronize_subsequence b (m_vcf_fp m) (m_vcf_rec m) (m_vcf_read_ret m)
                (m_vcf_list m) (m_stderr m)) as Hsync.
  destruct (synchronize _ _ _ _ _ _) as [[[[vcf_fp vcf_rec] ret] vcf_list] err].
  destruct (if (0 <? length vcf_list)%nat then _ else _) as [[[st c] err'] o].
  exact Hsync.
Qed.

(** X13.  The window never holds anything but records of the variant source,
    each at most once and in the order of the source: at any point of the
    run, the window followed by the records not read yet is what is left of
    the source when some of its records are taken out.  (A record read at
    the end of the source is not pushed a second time.) *)
Theorem window_is_a_subsequence_of_the_source (bam : list bam1) (vcf : list (bcf1 F)) :
  let m := snd (main_loop defallelefrac bam (process_init vcf)) in
  m_vcf_list m ++ m_vcf_fp m `sublist_of` vcf.
Proof.
  assert (Hloop : forall m,
            let m' := snd (main_loop defallelefrac bam m) in
            m_vcf_list m' ++ m_vcf_fp m' `sublist_of` m_vcf_list m ++ m_vcf_fp m).
  { induction bam as [|b rest IH]; intros m; cbn [main_loop]; [reflexivity|].
    pose proof (process_read_subsequence b m) as Hread.
    destruct (process_read defallelefrac b m) as [[|why] m1]; [|exact Hread].
    cbn [snd] in Hread. cbv zeta. etransitivity; [apply IH|exact Hread]. }
  apply (Hloop (process_init vcf)).
Qed.
End RecordsOfTheRun.

(** ** What the window holds when skip-ahead has nothing to skip *)

Section Complete.
Context {F : Type} `{Htslib}.
Variable b : bam1.

(** In a sorted source fetch-ahead stops at the first record that is not
    before the end of the read, or at the end of the source: every record
    it finds before the end of the read is pushed. *)
Lemma fetch_ahead_complete (vcf_fp : list (bcf1 F)) (vcf_rec : bcf1 F)
    (vcf_read_ret : Z) (vcf_list : list (bcf1 F)) (err : list diag) :
  StronglySorted not_after (vcf_rec :: vcf_fp) ->
  (vcf_read_ret = -1 -> vcf_fp = []) ->
  let '(_, _, _, vcf_list', _) :=
    fetch_ahead b vcf_fp vcf_rec vcf_read_ret vcf_list err in
  forall v, In v vcf_list \/ In v vcf_fp ->
    is_var1_before_var2 (rid v) (pos v) (core_tid b) (bam_endpos b) = true ->
    In v vcf_list'.
Proof.
  revert vcf_rec vcf_read_ret vcf_list err.
  induction vcf_fp as [|v0 rest IH]; intros vcf_rec vcf_read_ret vcf_list err Hord Hret;
    cbn [fetch_ahead].
  - destruct (is_var1_before_var2 _ _ _ _); [destruct (negb _)|];
      intros v [Hv|[]] _; exact Hv.
  - apply StronglySorted_inv in Hord as [Hord Hrec].
    destruct (is_var1_before_var2 (rid vcf_rec) _ _ _) eqn:Hbefore.
    + assert (Hneq : negb (vcf_read_ret =? -1) = true).
      { destruct (Z.eqb_spec vcf_read_ret (-1)) as [Heq|]; [|reflexivity].
        now specialize (Hret Heq). }
      rewrite Hneq.
      specialize (IH v0 0 (vcf_list ++ [v0])
                    ((err ++ [VariantBeforeReadEnd (rid vcf_rec) (pos vcf_rec) (core_tid b)
                                (bam_endpos b) (bam_get_qname b)])
                     ++ [NewPushedVariant (rid v0) (pos v0)]) Hord ltac:(discriminate)).
      destruct (fetch_ahead _ _ _ _ _ _) as [[[[fp' rec'] ret'] vl'] err'].
      intros v Hv Hend. apply IH; [|exact Hend].
      destruct Hv as [Hv|[<-|Hv]].
      * left. apply in_or_app. now left.
      * left. apply in_or_app. right. now left.
      * now right.
    + intros v [Hv|Hv] Hend; [exact Hv|exfalso].
      rewrite Forall_forall in Hrec. specialize (Hrec v).
      assert (Hin : v ∈ v0 :: rest) by (now apply list_elem_of_In).
      specialize (Hrec Hin).
      unfold not_after, is_var1_before_var2 in *. lia.
Qed.

(** X14.  With a sorted source and nothing for skip-ahead to skip (the record
    in [vcf_rec] is not before the start of the read), the three loops leave
    in the window every variant of the old window and of the records not
    read yet that is at or after the start of the read and before its end. *)
Theorem window_complete_without_skip (vcf_list vcf_fp : list (bcf1 F)) (vcf_rec : bcf1 F)
    (vcf_read_ret : Z) (err : list diag) :
  in_order vcf_list vcf_rec vcf_fp ->
  (vcf_read_ret = -1 -> vcf_fp = []) ->
  is_var1_before_var2 (rid vcf_rec) (pos vcf_rec) (core_tid b) (core_pos b) = false ->
  let '(_, _, _, vcf_list', _) :=
    synchronize b vcf_fp vcf_rec vcf_read_ret vcf_list err in
  forall v, In v vcf_list \/ In v vcf_fp ->
    is_var1_before_var2 (rid v) (pos v) (core_tid b) (core_pos b) = false ->
    is_var1_before_var2 (rid v) (pos v) (core_tid b) (bam_endpos b) = true ->
    In v vcf_list'.
Proof.
  intros Hord Hret Hrec. unfold synchronize.
  rewrite (skip_ahead_stops b) by exact Hrec.
  assert (Hsorted : StronglySorted not_after (vcf_rec :: vcf_fp)).
  { unfold in_order in Hord. clear - Hord.
    induction vcf_list as [|w l IH]; [exact Hord|].
    apply IH. cbn [app] in Hord. now apply StronglySorted_inv in Hord. }
  pose proof (fetch_ahead_complete vcf_fp vcf_rec vcf_read_ret vcf_list err Hsorted Hret)
    as Hfetch.
  destruct (fetch_ahead _ _ _ _ _ _) as [[[[fp2 rec2] ret2] vl2] err2].
  destruct (evict_drops_only_before b vl2 err2) as (evicted & Hev & Hbefore).
  destruct (evict _ _ _) as [vl3 err3]. cbn [fst] in Hev.
  intros v Hv Hstart Hend.
  specialize (Hfetch v Hv Hend). rewrite Hev in Hfetch.
  apply in_app_or in Hfetch as [Hin|Hin]; [exfalso|exact Hin].
  rewrite Forall_forall in Hbefore.
  assert (Hel : v ∈ evicted) by (now apply list_elem_of_In).
  specialize (Hbefore v Hel). cbv beta in Hbefore. congruence.
Qed.
End Complete.

Lemma window_complete_without_skip_witness :
  let '(_, _, _, vcf_list', _) :=
    synchronize read_ACGT [complex_101; snv_102; variant_at 200 "A" "C" None] snv_100 0 [] [] in
  In snv_102 vcf_list'.
Proof.
  pose proof (window_complete_without_skip read_ACGT []
                [complex_101; snv_102; variant_at 200 "A" "C" None] snv_100 0 []) as Hw.
  destruct (synchronize _ _ _ _ _ _) as [[[[vcf_fp vcf_rec] ret] vcf_list] err].
  apply Hw.
  - repeat constructor.
  - discriminate.
  - reflexivity.
  - right. cbn [In]. tauto.
  - reflexivity.
  - reflexivity.
Defined.

(** ** The cursors of the walk *)

Lemma ref_length_rlen_from (cigar : list N) (l : Z) :
  fold_left (fun l c => if consumes_ref (bam_cigar_op c) then l + bam_cigar_oplen c else l)
    cigar l = l + ref_length cigar.
Proof.
  revert l. induction cigar as [|c rest IH]; intros l; cbn [fold_left ref_length]; [lia|].
  rewrite IH. destruct (consumes_ref _); lia.
Qed.

(** [ref_length] is the length [bam_cigar2rlen] computes. *)
Lemma ref_length_rlen (cigar : list N) : bam_cigar2rlen cigar = ref_length cigar.
Proof. unfold bam_cigar2rlen. now rewrite ref_length_rlen_from. Qed.

Lemma ref_length_nonneg (cigar : list N) : 0 <= ref_length cigar.
Proof.
  induction cigar as [|c rest IH]; cbn [ref_length]; [lia|].
  pose proof (bam_cigar_oplen_nonneg c). destruct (consumes_ref _); lia.
Qed.

Lemma recognised_kinds (op : Z) :
  recognised op = true ->
  op = BAM_CMATCH \/ op = BAM_CEQUAL \/ op = BAM_CDIFF \/ op = BAM_CINS
  \/ op = BAM_CSOFT_CLIP \/ op = BAM_CDEL \/ op = BAM_CHARD_CLIP.
Proof. unfold recognised. lia. Qed.

Section Cursors.
Context {F : Type} `{Double F}.
Variable b : bam1.
Variable mutprob : F.
Variable defallelefrac : F.

Lemma copy_base_pushes (e e' : engine F) :
  copy_base b e = Some e' ->
  exists nuc q, base_at b (qpos e) = Some nuc /\ qual_at b (qpos e) = Some q
                /\ e' = push_back [nuc] [q] e.
Proof.
  unfold copy_base.
  destruct (base_at b (qpos e)) as [nuc|]; [|discriminate].
  destruct (qual_at b (qpos e)) as [q|]; [|discriminate].
  intros [= <-]. now exists nuc, q.
Qed.

(** Applying a variant moves the two cursors by the same amount, and leaves
    the iterator where it is. *)
Lemma apply_variant_diagonal (cigar_oplen1 j : Z) (v : bcf1 F) (e : engine F) :
  let e' := snd (apply_variant b cigar_oplen1 j v e) in
  rpos e' - qpos e' = rpos e - qpos e /\ vcf_rec_it e' = vcf_rec_it e.
Proof.
  unfold apply_variant, fprintf_if, copy_base.
  repeat match goal with
         | |- context [if ?c then _ else _] => destruct c
         | |- context [match qual_at ?b ?q with _ => _ end] => destruct (qual_at b q)
         | |- context [match base_at ?b ?q with _ => _ end] => destruct (base_at b q)
         end; cbn; split; (lia || reflexivity).
Qed.

(** Through a match operation the reference cursor stays as far ahead of
    the query cursor as it was: a deletion that is applied moves both. *)
Lemma match_loop_diagonal (cigar_oplen1 : Z) (fuel : nat) (j : Z) (e : engine F) :
  let e' := snd (match_loop b mutprob defallelefrac cigar_oplen1 fuel j e) in
  rpos e' - qpos e' = rpos e - qpos e.
Proof.
  cbv zeta.
  apply (match_loop_preserves b mutprob defallelefrac
           (fun e' => rpos e' - qpos e' = rpos e - qpos e)).
  - intros it idx e0 _ He. exact He.
  - intros e0 e' Hcopy He.
    apply copy_base_pushes in Hcopy as (nuc & q & _ & _ & ->). exact He.
  - intros e0 He. exact He.
  - intros e0 He. exact He.
  - intros e0 He. cbn. lia.
  - intros oplen j0 v e0 _ He.
    destruct (apply_variant_diagonal oplen j0 v e0) as [Hd _]. lia.
  - reflexivity.
Qed.

Lemma ins_loop_rpos (n : nat) (e : engine F) : rpos (snd (ins_loop b n e)) = rpos e.
Proof.
  revert e. induction n as [|n IH]; intros e; cbn [ins_loop]; [reflexivity|].
  destruct (copy_base b e) as [e'|] eqn:Hcopy; [|reflexivity].
  apply copy_base_pushes in Hcopy as (nuc & q & _ & _ & ->). rewrite IH. cbn. lia.
Qed.

Lemma cigar_step_cursors (c : N) (e : engine F) :
  recognised (bam_cigar_op c) = true ->
  0 <= qpos e -> qpos e + bam_cigar2qlen [c] <= l_qseq b ->
  exists e', cigar_step b mutprob defallelefrac c e = (Running, e')
             /\ qpos e' = qpos e + bam_cigar2qlen [c]
             /\ rpos e' = rpos e + ref_length [c].
Proof.
  intros Hop Hq Hlen.
  destruct (cigar_step_in_range b mutprob defallelefrac c e Hop Hq Hlen) as (e' & Hstep & Hq').
  exists e'. split; [exact Hstep|]. split; [exact Hq'|].
  pose proof (match_loop_diagonal (bam_cigar_oplen c) (Z.to_nat (bam_cigar_oplen c)) 0 e)
    as Hmatch.
  pose proof (ins_loop_rpos (Z.to_nat (bam_cigar_oplen c)) e) as Hins.
  unfold cigar_step in Hstep. cbn [bam_cigar2qlen ref_length] in *.
  unfold consumes_query, consumes_ref in *.
  apply recognised_kinds in Hop.
  destruct Hop as [Hop|[Hop|[Hop|[Hop|[Hop|[Hop|Hop]]]]]]; rewrite Hop in *;
    cbn in Hstep, Hq' |- *.
  1-3: rewrite Hstep in Hmatch; cbn [snd] in Hmatch; lia.
  - rewrite Hstep in Hins. cbn [snd] in Hins. lia.
  - injection Hstep as <-. cbn. lia.
  - injection Hstep as <-. cbn. lia.
  - injection Hstep as <-. lia.
Qed.

Lemma cigar_walk_cursors (cigar : list N) (e : engine F) :
  forallb (fun c => recognised (bam_cigar_op c)) cigar = true ->
  0 <= qpos e -> qpos e + bam_cigar2qlen cigar <= l_qseq b ->
  exists e', cigar_walk b mutprob defallelefrac cigar e = (Running, e')
             /\ qpos e' = qpos e + bam_cigar2qlen cigar
             /\ rpos e' = rpos e + ref_length cigar.
Proof.
  revert e. induction cigar as [|c rest IH]; intros e Hops Hq Hlen.
  - exists e. cbn. repeat split; lia.
  - cbn [forallb] in Hops. apply andb_prop in Hops as [Hop Hops].
    pose proof (bam_cigar2qlen_nonneg rest) as Hrest.
    pose proof (bam_cigar_oplen_nonneg c) as Hnn.
    cbn [cigar_walk].
    destruct (cigar_step_cursors c e Hop Hq) as (e' & -> & Hq' & Hr').
    { cbn [bam_cigar2qlen] in *. lia. }
    cbn [bam_cigar2qlen ref_length] in *.
    destruct (IH e' Hops) as (e'' & -> & Hq'' & Hr'').
    { destruct (consumes_query _); lia. }
    { lia. }
    exists e''. split; [reflexivity|]. lia.
Qed.

(** X15.  On a read the engine can walk (operations of the kinds it knows,
    consuming no more query positions than the record has), the walk runs to
    the end of the operations whatever the window holds, and ends with the
    query cursor after the positions the operations consume and the
    reference cursor after those they cover: a deletion the engine applies
    moves both cursors and the index in the operation together, so the
    bases after it stay at their reference positions.  For a mapped read
    that covers a reference position the reference cursor ends at
    [bam_endpos]. *)
Theorem walk_ends_at_the_end_of_the_alignment (vcf_list : list (bcf1 F)) (c : counters)
    (err : list diag) :
  walkable b ->
  exists e, mutate b mutprob defallelefrac vcf_list c err = (Running, e)
            /\ qpos e = bam_cigar2qlen (bam_get_cigar b)
            /\ rpos e = core_pos b + ref_length (bam_get_cigar b)
            /\ (flag_set b 4 = false -> 0 < ref_length (bam_get_cigar b) ->
                rpos e = sam_bam_endpos b).
Proof.
  intros [Hops Hlen]. unfold mutate.
  destruct (cigar_walk_cursors (bam_get_cigar b) (engine_init b vcf_list c err) Hops)
    as (e & Hwalk & Hq & Hr); [cbn; lia|cbn; lia|].
  exists e. cbn [engine_init qpos rpos] in Hq, Hr.
  split; [exact Hwalk|]. split; [lia|]. split; [exact Hr|].
  intros Hmapped Hcovers. unfold sam_bam_endpos.
  rewrite Hmapped, ref_length_rlen.
  destruct (Z.eqb_spec (ref_length (bam_get_cigar b)) 0); lia.
Qed.
End Cursors.

Lemma walk_ends_at_the_end_of_the_alignment_witness :
  exists e, mutate read_indel 0%Q DEFAULT_ALLELE_FRAC [del_100; snv_102] no_counts []
            = (Running, e)
            /\ qpos e = bam_cigar2qlen (bam_get_cigar read_indel)
            /\ rpos e = core_pos read_indel + ref_length (bam_get_cigar read_indel)
            /\ (flag_set read_indel 4 = false -> 0 < ref_length (bam_get_cigar read_indel) ->
                rpos e = sam_bam_endpos read_indel).
Proof.
  apply (walk_ends_at_the_end_of_the_alignment read_indel 0%Q DEFAULT_ALLELE_FRAC
           [del_100; snv_102] no_counts []).
  split; [reflexivity|]. vm_compute. discriminate.
Defined.

(** ** What the engine hands to the emission *)

Lemma gt_space_not_NUL (c : ascii) : gt_space c = true -> c <> NUL.
Proof. intros Hc ->. discriminate Hc. Qed.

(** [%s] prints a string without NUL whole. *)
Lemma c_str_without_NUL (s : list ascii) : Forall (fun c => c <> NUL) s -> c_str s = s.
Proof.
  induction 1 as [|c s Hc _ IH]; cbn [c_str]; [reflexivity|].
  destruct (Ascii.eqb_spec c NUL); [contradiction|now rewrite IH].
Qed.

Lemma forallb_gt_space_without_NUL (s : list ascii) :
  forallb gt_space s = true -> Forall (fun c => c <> NUL) s.
Proof.
  intros Hs. apply Forall_forall. intros c Hc. apply list_elem_of_In in Hc.
  apply gt_space_not_NUL. now apply (proj1 (forallb_forall gt_space s) Hs).
Qed.

Lemma forallb_gt_space_reverse_complement (s : list ascii) :
  forallb gt_space s = true -> forallb gt_space (complement (reverse s)) = true.
Proof.
  intros Hs. rewrite reverse_rev. unfold complement.
  apply forallb_forall. intros x Hx.
  apply in_map_iff in Hx as (y & <- & Hy). rewrite gt_space_data_at.
  apply in_rev in Hy. now apply (proj1 (forallb_forall gt_space s) Hs).
Qed.

Lemma at_index_In {A : Type} (l : list A) (i : Z) (x : A) :
  at_index l i = Some x -> In x l.
Proof.
  unfold at_index. destruct (i <? 0); [discriminate|].
  intros Hx. apply list_elem_of_In. now apply list_elem_of_lookup_2 in Hx.
Qed.

Lemma qual_at_In (b : bam1) (i : Z) (q : ascii) :
  qual_at b i = Some q -> exists c, In (c, q) (bam_query b).
Proof.
  unfold qual_at. destruct (at_index (bam_query b) i) as [[c q0]|] eqn:Hi; [|discriminate].
  intros [= <-]. exists c. now apply at_index_In in Hi.
Qed.

Section Written.
Context {F : Type} `{Double F}.
Variable b : bam1.
Variable mutprob : F.
Variable defallelefrac : F.

Lemma apply_variant_above_space (cigar_oplen1 j : Z) (v : bcf1 F) (e : engine F) :
  alt_above_space v ->
  forallb gt_space (newseq e) = true ->
  forallb gt_space (newseq (snd (apply_variant b cigar_oplen1 j v e))) = true.
Proof.
  intros [Hne Halt] He.
  assert (Hhd : forallb gt_space (newseq e ++ [hd NUL (allele1 v)]) = true).
  { rewrite forallb_app, He. destruct (allele1 v) as [|a alt]; [contradiction|].
    cbn in *. apply andb_prop in Halt as [-> _]. reflexivity. }
  assert (Hall : forallb gt_space (newseq e ++ allele1 v) = true).
  { now rewrite forallb_app, He, Halt. }
  unfold apply_variant, fprintf_if, copy_base, base_at.
  repeat match goal with
         | |- context [if ?c then _ else _] => destruct c
         | |- context [match qual_at ?b ?q with _ => _ end] => destruct (qual_at b q)
         | |- context [match at_index ?l ?q with _ => _ end] =>
             destruct (at_index l q) as [[? ?]|]
         end; cbn -[nt16_char]; trivial.
  all: rewrite forallb_app, He; cbn -[nt16_char];
    now rewrite (proj1 (nt16_char_above_space _)).
Qed.

(** The bases the walk appends are letters of [seq_nt16_str] or characters
    of alternate alleles of the window. *)
Lemma walk_above_space (cigar : list N) (e : engine F) :
  Forall alt_above_space (vcf_rec_it e) ->
  forallb gt_space (newseq e) = true ->
  forallb gt_space (newseq (snd (cigar_walk b mutprob defallelefrac cigar e))) = true.
Proof.
  intros Hit He.
  apply (cigar_walk_preserves b mutprob defallelefrac
           (fun e => forallb gt_space (newseq e) = true
                     /\ Forall alt_above_space (vcf_rec_it e))); [..|now split].
  - intros it idx e0 [skipped Hs] [He0 Hit0]. split; [exact He0|].
    cbn [set_it vcf_rec_it]. rewrite Hs in Hit0. now apply Forall_app in Hit0.
  - intros e0 e' Hcopy [He0 Hit0].
    apply copy_base_pushes in Hcopy as (nuc & q & Hnuc & _ & ->).
    split; [|exact Hit0]. cbn [push_back newseq]. rewrite forallb_app, He0.
    unfold base_at in Hnuc. destruct (at_index _ _) as [[c q0]|]; [|discriminate].
    injection Hnuc as <-. cbn -[nt16_char]. now rewrite (proj1 (nt16_char_above_space c)).
  - intros e0 He0. exact He0.
  - intros e0 He0. exact He0.
  - intros e0 He0. exact He0.
  - intros dq dr e0 He0. exact He0.
  - intros d e0 He0. exact He0.
  - intros cigar_oplen1 j v e0 Hv [He0 Hit0].
    destruct (apply_variant_diagonal b cigar_oplen1 j v e0) as [_ Hsame].
    rewrite Hsame. split; [|exact Hit0].
    apply apply_variant_above_space; [|exact He0].
    rewrite Forall_forall in Hit0. apply Hit0. now apply list_elem_of_In.
Qed.

Lemma apply_variant_quality (Q : ascii -> Prop) (cigar_oplen1 j : Z) (v : bcf1 F)
    (e : engine F) :
  Q (ascii_of_nat 30) ->
  Forall (fun p => Q (snd p)) (bam_query b) ->
  Forall Q (newqual e) ->
  Forall Q (newqual (snd (apply_variant b cigar_oplen1 j v e))).
Proof.
  intros H30 Hb He.
  assert (Hq : forall q, qual_at b (qpos e) = Some q -> Q q).
  { intros q Hq. apply qual_at_In in Hq as [c Hc].
    rewrite Forall_forall in Hb. apply list_elem_of_In in Hc. exact (Hb _ Hc). }
  unfold apply_variant, fprintf_if, copy_base, base_at. cbn [fprintf qpos].
  destruct (qual_at b (qpos e)) as [q|] eqn:Hqual.
  2:{ unfold qual_at in Hqual.
      destruct (at_index (bam_query b) (qpos e)) as [[? ?]|]; [discriminate|].
      repeat match goal with
             | |- context [if ?c then _ else _] => destruct c
             end; cbn; trivial. }
  specialize (Hq q eq_refl).
  assert (Hone : Forall Q (newqual e ++ [q])).
  { apply Forall_app. split; [exact He|]. now constructor. }
  repeat match goal with
         | |- context [if ?c then _ else _] => destruct c
         | |- context [match at_index ?l ?q with _ => _ end] =>
             destruct (at_index l q) as [[? ?]|]
         end; cbn; trivial.
  all: apply Forall_app; split; [exact He|]; constructor; [exact Hq|].
  all: apply Forall_forall; intros x Hx; apply list_elem_of_In, repeat_spec in Hx;
    subst x; exact H30.
Qed.

(** The qualities the walk appends are qualities of the record or the
    quality 30 of an inserted base: what holds of these holds of the
    qualities in the buffer. *)
Lemma walk_quality (Q : ascii -> Prop) (cigar : list N) (e : engine F) :
  Q (ascii_of_nat 30) ->
  Forall (fun p => Q (snd p)) (bam_query b) ->
  Forall Q (newqual e) ->
  Forall Q (newqual (snd (cigar_walk b mutprob defallelefrac cigar e))).
Proof.
  intros H30 Hb.
  apply (cigar_walk_preserves b mutprob defallelefrac (fun e => Forall Q (newqual e))).
  - intros it idx e0 _ He0. exact He0.
  - intros e0 e' Hcopy He0.
    apply copy_base_pushes in Hcopy as (nuc & q & _ & Hq & ->).
    cbn [push_back newqual]. apply Forall_app. split; [exact He0|].
    constructor; [|constructor].
    apply qual_at_In in Hq as [c Hc].
    rewrite Forall_forall in Hb. apply list_elem_of_In in Hc. exact (Hb _ Hc).
  - intros e0 He0. exact He0.
  - intros e0 He0. exact He0.
  - intros e0 He0. exact He0.
  - intros dq dr e0 He0. exact He0.
  - intros d e0 He0. exact He0.
  - intros cigar_oplen1 j v e0 _ He0. now apply apply_variant_quality.
Qed.
End Written.

(** ** The records the program writes *)

(** The emission of buffers of equal length whose bases are above the space
    character: no [assert] fails and one record is written. *)
Lemma bamrec_write_fastq_record (aln : bam1) (seq qual : list ascii) (o : gzfiles) :
  length qual = length seq ->
  forallb gt_space seq = true ->
  bamrec_write_fastq aln seq qual o
  = (Running,
     gzprintf aln
       (fastq_record (bam_get_qname aln)
          (if flag_set aln 0x10 then complement (reverse seq) else seq)
          (c_str (if flag_set aln 0x10 then reverse (map plus33 qual) else map plus33 qual)))
       o).
Proof.
  intros Hlen Hseq. unfold bamrec_write_fastq, fastq_record.
  rewrite Hlen, Nat.eqb_refl. cbn [negb].
  set (seq' := if flag_set aln 16 then complement (reverse seq) else seq).
  assert (Hseq' : forallb gt_space seq' = true).
  { subst seq'. destruct (flag_set aln 16); [|exact Hseq].
    now apply forallb_gt_space_reverse_complement. }
  rewrite Hseq'. cbn [negb].
  rewrite (c_str_without_NUL seq') by now apply forallb_gt_space_without_NUL.
  rewrite !gzprintf_app. do 2 f_equal.
  cbn [app]. rewrite <- !app_assoc. reflexivity.
Qed.

Lemma length_reverse (s : list ascii) : length (reverse s) = length s.
Proof. rewrite reverse_rev. apply length_rev. Qed.

Lemma length_complement (s : list ascii) : length (complement s) = length s.
Proof. apply length_map. Qed.

(** A stretch without a newline that a newline ends is a line. *)
Lemma lines_line (l rest : list ascii) :
  Forall (fun a => a <> newline) l ->
  lines (l ++ newline :: rest) = l :: lines rest.
Proof.
  induction 1 as [|a l Ha _ IH]; cbn [app lines].
  - now rewrite Ascii.eqb_refl.
  - apply Ascii.eqb_neq in Ha. rewrite Ha, IH. reflexivity.
Qed.

(** The four lines of a record whose name, bases and qualities hold no
    newline. *)
Lemma lines_fastq_record (name bases quals : list ascii) :
  Forall (fun a => a <> newline) name ->
  Forall (fun a => a <> newline) bases ->
  Forall (fun a => a <> newline) quals ->
  lines (fastq_record name bases quals) = ["@"%char :: name; bases; ["+"%char]; quals].
Proof.
  intros Hname Hbases Hquals. unfold fastq_record.
  change ("@"%char :: name ++ newline :: bases ++ newline :: "+"%char :: newline
          :: quals ++ [newline])
    with (("@"%char :: name) ++ newline :: bases ++ newline :: ["+"%char] ++ newline
          :: quals ++ [newline]).
  rewrite lines_line by (constructor; [discriminate|exact Hname]).
  rewrite lines_line by exact Hbases.
  rewrite lines_line by (constructor; [discriminate|constructor]).
  rewrite lines_line by exact Hquals.
  reflexivity.
Qed.

Lemma gt_space_not_newline (l : list ascii) :
  forallb gt_space l = true -> Forall (fun a => a <> newline) l.
Proof.
  intros Hl. apply Forall_forall. intros a Ha Hnl. subst a.
  rewrite forallb_forall in Hl. apply list_elem_of_In in Ha.
  specialize (Hl _ Ha). discriminate Hl.
Qed.

Section RecordsWritten.
Context {F : Type} `{Double F} `{Htslib}.
Variable defallelefrac : F.

Lemma synchronize_above_space (b : bam1) (m : process F) :
  variants_above_space m ->
  let '(vcf_fp, _, _, vcf_list, _) :=
    synchronize b (m_vcf_fp m) (m_vcf_rec m) (m_vcf_read_ret m) (m_vcf_list m) (m_stderr m) in
  Forall alt_above_space vcf_list /\ Forall alt_above_space vcf_fp.
Proof.
  intros [Hlist Hfp].
  pose proof (synchronize_moves_records b (m_vcf_fp m) (m_vcf_rec m) (m_vcf_read_ret m)
                (m_vcf_list m) (m_stderr m)) as Hmove.
  destruct (synchronize _ _ _ _ _ _) as [[[[vcf_fp vcf_rec] ret] vcf_list] err].
  destruct Hmove as (skipped & pushed & evicted & Hsrc & Hwin).
  rewrite Hsrc in Hfp. apply Forall_app in Hfp as [_ Hfp]. apply Forall_app in Hfp as [Hp Hfp].
  split; [|exact Hfp].
  assert (Hall : Forall alt_above_space (evicted ++ vcf_list)).
  { rewrite <- Hwin. apply Forall_app. now split. }
  now apply Forall_app in Hall.
Qed.

(** A primary read that the engine can walk, with variants that can be
    written: the process goes on and one record is written for the read,
    with as many qualities as bases before [%s] prints them. *)
Lemma process_read_record (b : bam1) (m : process F) :
  flag_set b 0x900 = false ->
  walkable b ->
  variants_above_space m ->
  exists m' bases quals,
    process_read defallelefrac b m = (Running, m')
    /\ variants_above_space m'
    /\ m_out m' = gzprintf b (fastq_record (bam_get_qname b) bases (c_str quals)) (m_out m)
    /\ length bases = length quals
    /\ forallb gt_space bases = true
    /\ (forall Q : ascii -> Prop,
          Q (plus33 (ascii_of_nat 30)) ->
          Forall (fun p => Q (plus33 (snd p))) (bam_query b) ->
          Forall Q quals).
Proof.
  intros Hflag [Hops Hlen] Hm. unfold process_read. rewrite Hflag.
  pose proof (synchronize_above_space b m Hm) as Hsync.
  destruct (synchronize _ _ _ _ _ _) as [[[[vcf_fp vcf_rec] ret] vcf_list] err].
  destruct Hsync as [Hlist Hfp].
  destruct (0 <? length vcf_list)%nat.
  - unfold mutate_and_write, mutate.
    set (mutprob := of_Q (fst (umistr2prob (bam_get_qname b)))).
    set (e0 := engine_init b vcf_list (m_cnt m) err).
    destruct (cigar_walk_cursors b mutprob defallelefrac (bam_get_cigar b) e0 Hops)
      as (e & Hwalk & _ & _); [cbn; lia|cbn; lia|].
    pose proof (balanced_cigar_walk b mutprob defallelefrac (bam_get_cigar b) e0 eq_refl)
      as Hbal.
    pose proof (walk_above_space b mutprob defallelefrac (bam_get_cigar b) e0 Hlist eq_refl)
      as Hseq.
    pose proof (fun Q => walk_quality b mutprob defallelefrac
                           (fun q => Q (plus33 q)) (bam_get_cigar b) e0) as Hqual.
    rewrite Hwalk in *. cbn [snd] in Hbal, Hseq, Hqual. unfold balanced in Hbal.
    rewrite bamrec_write_fastq_record by (trivial; now symmetry).
    eexists _, _, _. split; [reflexivity|]. cbn [m_out m_vcf_list m_vcf_fp].
    split; [now split|]. split; [reflexivity|]. split; [|split].
    + destruct (flag_set b 16);
        rewrite ?length_complement, ?length_reverse, length_map; exact Hbal.
    + destruct (flag_set b 16); [|exact Hseq].
      now apply forallb_gt_space_reverse_complement.
    + intros Q H30 Hb. specialize (Hqual Q H30 Hb ltac:(constructor)).
      assert (Hmap : Forall Q (map plus33 (newqual e))).
      { apply Forall_map. exact Hqual. }
      destruct (flag_set b 16); [|exact Hmap].
      rewrite reverse_rev. now apply Forall_rev.
  - rewrite bamrec_write_fastq_raw_original. unfold original_fastq.
    pose proof (bases_above_space (bam_query b)) as [Hfwd Hrev].
    set (seq := map (fun p => nt16_char (fst p)) (bam_query b)) in *.
    set (seq' := if flag_set b 16 then complement (reverse seq) else seq).
    assert (Hseq' : forallb gt_space seq' = true).
    { subst seq'. now destruct (flag_set b 16). }
    rewrite (c_str_without_NUL seq') by now apply forallb_gt_space_without_NUL.
    exists {| m_vcf_fp := vcf_fp; m_vcf_rec := vcf_rec; m_vcf_read_ret := ret;
              m_vcf_list := vcf_list; m_cnt := m_cnt m; m_stderr := err;
              m_out := gzprintf b
                         (fastq_record (bam_get_qname b) seq'
                            (c_str (if flag_set b 16
                                    then reverse (map (fun p => plus33 (snd p)) (bam_query b))
                                    else map (fun p => plus33 (snd p)) (bam_query b))))
                         (m_out m) |},
           seq',
           (if flag_set b 16 then reverse (map (fun p => plus33 (snd p)) (bam_query b))
            else map (fun p => plus33 (snd p)) (bam_query b)).
    split.
    { do 2 f_equal. unfold fastq_record. cbn [app]. rewrite <- !app_assoc. reflexivity. }
    cbn [m_out m_vcf_list m_vcf_fp].
    split; [now split|]. split; [reflexivity|]. split; [|split].
    + subst seq' seq. destruct (flag_set b 16);
        rewrite ?length_complement, ?length_reverse, !length_map; reflexivity.
    + exact Hseq'.
    + intros Q _ Hb.
      assert (Hmap : Forall Q (map (fun p => plus33 (snd p)) (bam_query b))).
      { apply Forall_map. exact Hb. }
      destruct (flag_set b 16); [|exact Hmap].
      rewrite reverse_rev. now apply Forall_rev.
Qed.

(** The loop over the reads on well-formed input. *)
Lemma main_loop_runs (bam : list bam1) (m : process F) :
  Forall (fun b => flag_set b 0x900 = false -> walkable b) bam ->
  variants_above_space m ->
  fst (main_loop defallelefrac bam m) = Running.
Proof.
  intros Hbam. revert m.
  induction Hbam as [|b rest Hb _ IH]; intros m Hm; cbn [main_loop]; [reflexivity|].
  destruct (flag_set b 2304) eqn:Hflag.
  - unfold process_read. rewrite Hflag. now apply IH.
  - destruct (process_read_record b m Hflag (Hb eq_refl) Hm)
      as (m' & bases & quals & -> & Hm' & _).
    now apply IH.
Qed.

(** X16.  On well-formed input the program runs through all its reads: when
    every read that is neither secondary nor supplementary has operations
    of the kinds the engine knows, consuming no more query positions than
    the record has, and every variant has an alternate allele that is not
    empty and made of characters above the space, no read is aborted, no
    position outside a record is read and no [assert] of the emission
    fails. *)
Theorem main_loop_runs_to_the_end (bam : list bam1) (vcf : list (bcf1 F)) :
  Forall (fun b => flag_set b 0x900 = false -> walkable b) bam ->
  Forall alt_above_space vcf ->
  fst (main_loop defallelefrac bam (process_init vcf)) = Running.
Proof.
  intros Hbam Hvcf. apply main_loop_runs; [exact Hbam|].
  split; [constructor|exact Hvcf].
Qed.

(** X17.  Each read that is neither secondary nor supplementary gives one
    FASTQ record of four lines, appended to the file its flags select:
    under the conditions above, when the name of the read holds no newline
    and no quality of the read becomes NUL or a newline by the addition of
    33 (the raw qualities 223 and 233), the text written for the read has
    exactly the lines of the format, the name after [@], the bases, [+] and
    the qualities, with as many quality characters as bases, whether the
    read went through the engine or through the bypass. *)
Theorem process_read_writes_a_record (b : bam1) (m : process F) :
  flag_set b 0x900 = false ->
  walkable b ->
  variants_above_space m ->
  Forall (fun a => a <> newline) (bam_get_qname b) ->
  Forall (fun p => plus33 (snd p) <> NUL /\ plus33 (snd p) <> newline) (bam_query b) ->
  exists m' bases quals,
    process_read defallelefrac b m = (Running, m')
    /\ m_out m' = gzprintf b (fastq_record (bam_get_qname b) bases quals) (m_out m)
    /\ lines (fastq_record (bam_get_qname b) bases quals)
       = ["@"%char :: bam_get_qname b; bases; ["+"%char]; quals]
    /\ length bases = length quals.
Proof.
  intros Hflag Hwalk Hm Hname Hb.
  destruct (process_read_record b m Hflag Hwalk Hm)
    as (m' & bases & quals & Hread & _ & Hout & Hlen & Hbases & Hquals).
  specialize (Hquals (fun q => q <> NUL /\ q <> newline)
                ltac:(split; discriminate) Hb).
  assert (Hnul : Forall (fun q => q <> NUL) quals).
  { eapply Forall_impl; [exact Hquals|]. now intros q [Hq _]. }
  assert (Hnl : Forall (fun q => q <> newline) quals).
  { eapply Forall_impl; [exact Hquals|]. now intros q [_ Hq]. }
  exists m', bases, quals. split; [exact Hread|].
  split; [rewrite Hout; now rewrite (c_str_without_NUL quals) by exact Hnul|].
  split; [|exact Hlen].
  apply lines_fastq_record; [exact Hname| |exact Hnl].
  now apply gt_space_not_newline.
Qed.
End RecordsWritten.

(** ** Walks that append one base for each position *)

Lemma at_index_lookup {A : Type} (l : list A) (i : Z) (x : A) :
  at_index l i = Some x -> 0 <= i /\ l !! Z.to_nat i = Some x.
Proof. unfold at_index. destruct (i <? 0) eqn:Hi; [discriminate|]. split; [lia|trivial]. Qed.

Lemma take_drop_step {A : Type} (l : list A) (n k : nat) (x : A) :
  l !! n = Some x -> take (S k) (drop n l) = x :: take k (drop (S n) l).
Proof. intros Hx. now rewrite (drop_S l x n Hx). Qed.

Lemma appended_nil {F : Type} (base : option Z * (N * ascii) -> ascii) (e e' : engine F) :
  newseq e' = newseq e -> newqual e' = newqual e -> appended base e e' [].
Proof. intros Hs Hq. split; cbn [map]; now rewrite app_nil_r. Qed.

Lemma appended_trans {F : Type} (base : option Z * (N * ascii) -> ascii)
    (e1 e2 e3 : engine F) (a1 a2 : list (option Z * (N * ascii))) :
  appended base e1 e2 a1 -> appended base e2 e3 a2 -> appended base e1 e3 (a1 ++ a2).
Proof.
  intros [Hq1 Hs1] [Hq2 Hs2]. split.
  - now rewrite Hq2, Hq1, map_app, app_assoc.
  - now rewrite Hs2, Hs1, map_app, app_assoc.
Qed.

(** Without the reference positions, the aligned query positions are those
    of [aligned_from]. *)
Lemma with_ref_snd (r : Z) (part : list (N * ascii)) : map snd (with_ref r part) = part.
Proof.
  revert r. induction part as [|p rest IH]; intros r; cbn [with_ref map snd]; [reflexivity|].
  now rewrite IH.
Qed.

Lemma aligned_with_ref_snd (q r : Z) (cigar : list N) (query : list (N * ascii)) :
  map snd (aligned_with_ref q r cigar query) = aligned_from q cigar query.
Proof.
  revert q r. induction cigar as [|c rest IH]; intros q r;
    cbn [aligned_with_ref aligned_from map]; [reflexivity|].
  rewrite map_app, IH. f_equal.
  unfold copies_query, is_match.
  destruct (_ || _) eqn:Hm; cbn [orb].
  - apply with_ref_snd.
  - destruct (bam_cigar_op c =? BAM_CINS); [|reflexivity].
    rewrite map_map. cbn [snd]. apply map_id.
Qed.

Section Tracking.
Context {F : Type} `{Double F}.
Variable b : bam1.
Variable mutprob : F.
Variable defallelefrac : F.
Variable P : Z -> Prop.
Variable Inv : engine F -> Prop.
Variable base : option Z * (N * ascii) -> ascii.
Variable weight : engine F -> Z.

Hypothesis Inv_push_back : forall s q e, Inv e -> Inv (push_back s q e).
Hypothesis Inv_advance : forall dq dr e, 0 <= dr -> Inv e -> Inv (advance dq dr e).
Hypothesis weight_push_back : forall s q e, weight (push_back s q e) = weight e.
Hypothesis weight_advance : forall dq dr e, weight (advance dq dr e) = weight e.
Hypothesis base_inserted : forall p, base (None, p) = nt16_char (fst p).

(** What is assumed of a turn of the loop over the positions of a match
    operation: at a reference position with the property [P], it appends
    the base that [base] gives and the quality of the query position, moves
    both cursors by one and leaves the index as it is. *)
Hypothesis turn : forall cigar_oplen1 j e p,
  Inv e -> P (rpos e) ->
  at_index (bam_query b) (qpos e) = Some p ->
  exists e', match_position b mutprob defallelefrac cigar_oplen1 j e = (Running, j, e')
             /\ Inv e' /\ qpos e' = qpos e + 1 /\ rpos e' = rpos e + 1
             /\ weight e' = weight e + 1
             /\ appended base e e' [(Some (rpos e), p)].

Lemma match_loop_tracks (cigar_oplen1 : Z) (fuel : nat) (j : Z) (e : engine F) :
  Inv e -> (forall r, rpos e <= r < rpos e + (cigar_oplen1 - j) -> P r) ->
  0 <= qpos e -> j <= cigar_oplen1 -> qpos e + (cigar_oplen1 - j) <= l_qseq b ->
  (Z.to_nat (cigar_oplen1 - j) <= fuel)%nat ->
  exists e', match_loop b mutprob defallelefrac cigar_oplen1 fuel j e = (Running, e')
             /\ Inv e'
             /\ qpos e' = qpos e + (cigar_oplen1 - j)
             /\ rpos e' = rpos e + (cigar_oplen1 - j)
             /\ weight e' = weight e + (cigar_oplen1 - j)
             /\ appended base e e'
                  (with_ref (rpos e)
                     (take (Z.to_nat (cigar_oplen1 - j))
                        (drop (Z.to_nat (qpos e)) (bam_query b)))).
Proof.
  revert j e. induction fuel as [|fuel IH]; intros j e He HP Hq Hj Hlen Hfuel;
    cbn [match_loop].
  - destruct (j <? cigar_oplen1) eqn:Hlt; [lia|].
    exists e. replace (cigar_oplen1 - j) with 0 by lia.
    split; [reflexivity|]. split; [exact He|]. split; [lia|]. split; [lia|].
    split; [lia|]. now apply appended_nil.
  - destruct (j <? cigar_oplen1) eqn:Hlt.
    2:{ exists e. replace (cigar_oplen1 - j) with 0 by lia.
        split; [reflexivity|]. split; [exact He|]. split; [lia|]. split; [lia|].
        split; [lia|]. now apply appended_nil. }
    destruct (at_index_in_range (bam_query b) (qpos e)) as [p Hp]; [unfold l_qseq in Hlen; lia|].
    destruct (turn cigar_oplen1 j e p He (HP (rpos e) ltac:(lia)) Hp)
      as (e1 & -> & He1 & Hq1 & Hr1 & Hw1 & Happ1).
    destruct (IH (j + 1) e1 He1) as (e2 & -> & He2 & Hq2 & Hr2 & Hw2 & Happ2);
      [intros r Hr; apply HP; lia|lia|lia|lia|lia|].
    exists e2. split; [reflexivity|]. split; [exact He2|].
    split; [lia|]. split; [lia|]. split; [lia|].
    apply at_index_lookup in Hp as [_ Hp].
    replace (Z.to_nat (cigar_oplen1 - j)) with (S (Z.to_nat (cigar_oplen1 - (j + 1)))) by lia.
    rewrite (take_drop_step _ _ _ _ Hp). cbn [with_ref].
    replace (S (Z.to_nat (qpos e))) with (Z.to_nat (qpos e1)) by lia.
    rewrite <- Hr1.
    exact (appended_trans base e e1 e2 [(Some (rpos e), p)] _ Happ1 Happ2).
Qed.

Lemma ins_loop_tracks (n : nat) (e : engine F) :
  Inv e -> 0 <= qpos e -> qpos e + Z.of_nat n <= l_qseq b ->
  exists e', ins_loop b n e = (Running, e')
             /\ Inv e'
             /\ qpos e' = qpos e + Z.of_nat n
             /\ rpos e' = rpos e
             /\ weight e' = weight e
             /\ appended base e e'
                  (map (fun p => (None, p))
                     (take n (drop (Z.to_nat (qpos e)) (bam_query b)))).
Proof.
  revert e. induction n as [|n IH]; intros e He Hq Hlen; cbn [ins_loop].
  - exists e. split; [reflexivity|]. split; [exact He|]. split; [lia|].
    split; [reflexivity|]. split; [reflexivity|]. now apply appended_nil.
  - destruct (at_index_in_range (bam_query b) (qpos e)) as [[c q] Hp];
      [unfold l_qseq in Hlen; lia|].
    unfold copy_base, base_at, qual_at. rewrite Hp.
    set (e1 := advance 1 0 (push_back [nt16_char c] [q] e)).
    destruct (IH e1) as (e2 & -> & He2 & Hq2 & Hr2 & Hw2 & Happ2).
    { apply Inv_advance; [lia|]. now apply Inv_push_back. }
    { cbn. lia. }
    { cbn. lia. }
    exists e2. split; [reflexivity|]. split; [exact He2|].
    cbn [e1 advance push_back qpos rpos] in Hq2, Hr2.
    split; [lia|]. split; [lia|].
    split; [subst e1; now rewrite Hw2, weight_advance, weight_push_back|].
    apply at_index_lookup in Hp as [_ Hp].
    rewrite (take_drop_step _ _ _ _ Hp). cbn [map].
    replace (S (Z.to_nat (qpos e))) with (Z.to_nat (qpos e1)) by (cbn; lia).
    apply (appended_trans base e e1 e2 [(None, (c, q))] _); [|exact Happ2].
    split; [reflexivity|]. cbn [map]. now rewrite base_inserted.
Qed.

Lemma cigar_step_tracks (c : N) (e : engine F) :
  recognised (bam_cigar_op c) = true ->
  Inv e -> (forall r, matched_from (rpos e) [c] r = true -> P r) ->
  0 <= qpos e -> qpos e + bam_cigar2qlen [c] <= l_qseq b ->
  exists e', cigar_step b mutprob defallelefrac c e = (Running, e')
             /\ Inv e'
             /\ qpos e' = qpos e + bam_cigar2qlen [c]
             /\ rpos e' = rpos e + ref_length [c]
             /\ weight e' = weight e + match_length [c]
             /\ appended base e e' (aligned_with_ref (qpos e) (rpos e) [c] (bam_query b)).
Proof.
  intros Hop He HP Hq Hlen. pose proof (bam_cigar_oplen_nonneg c) as Hnn.
  unfold cigar_step.
  cbn [bam_cigar2qlen ref_length match_length aligned_with_ref matched_from] in *.
  rewrite app_nil_r.
  unfold consumes_query, consumes_ref, is_match in *.
  apply recognised_kinds in Hop.
  destruct Hop as [Hop|[Hop|[Hop|[Hop|[Hop|[Hop|Hop]]]]]]; rewrite Hop in *;
    cbn in HP, Hlen |- *.
  1-3: destruct (match_loop_tracks (bam_cigar_oplen c) (Z.to_nat (bam_cigar_oplen c)) 0 e He)
         as (e' & -> & He' & Hq' & Hr' & Hw' & Happ');
         [intros r Hr; apply HP; lia|lia|lia|lia|lia|];
       rewrite Z.sub_0_r in *; exists e';
       (split; [reflexivity|]); (split; [exact He'|]); (split; [lia|]); (split; [lia|]);
       (split; [lia|]); exact Happ'.
  - destruct (ins_loop_tracks (Z.to_nat (bam_cigar_oplen c)) e He)
      as (e' & -> & He' & Hq' & Hr' & Hw' & Happ'); [lia|lia|].
    exists e'. split; [reflexivity|]. split; [exact He'|]. split; [lia|]. split; [lia|].
    split; [lia|]. exact Happ'.
  - eexists. split; [reflexivity|]. split; [apply Inv_advance; [lia|exact He]|].
    rewrite weight_advance. split; [cbn; lia|]. split; [cbn; lia|]. split; [lia|].
    now apply appended_nil.
  - eexists. split; [reflexivity|]. split; [apply Inv_advance; [lia|exact He]|].
    rewrite weight_advance. split; [cbn; lia|]. split; [cbn; lia|]. split; [lia|].
    now apply appended_nil.
  - exists e. split; [reflexivity|]. split; [exact He|]. split; [lia|]. split; [lia|].
    split; [lia|]. now apply appended_nil.
Qed.

(** Such a walk over operations the engine knows, within the record and
    with [P] at every reference position under a match operation, runs to
    its end and appends one base and the quality for each query position
    under a match or an insertion. *)
Lemma cigar_walk_tracks (cigar : list N) (e : engine F) :
  forallb (fun c => recognised (bam_cigar_op c)) cigar = true ->
  Inv e -> (forall r, matched_from (rpos e) cigar r = true -> P r) ->
  0 <= qpos e -> qpos e + bam_cigar2qlen cigar <= l_qseq b ->
  exists e', cigar_walk b mutprob defallelefrac cigar e = (Running, e')
             /\ Inv e'
             /\ weight e' = weight e + match_length cigar
             /\ appended base e e' (aligned_with_ref (qpos e) (rpos e) cigar (bam_query b)).
Proof.
  revert e. induction cigar as [|c rest IH]; intros e Hops He HP Hq Hlen.
  - exists e. split; [reflexivity|]. split; [exact He|]. split; [cbn; lia|].
    now apply appended_nil.
  - cbn [forallb] in Hops. apply andb_prop in Hops as [Hop Hops].
    pose proof (bam_cigar2qlen_nonneg rest) as Hrest.
    pose proof (bam_cigar_oplen_nonneg c) as Hnn.
    cbn [cigar_walk].
    destruct (cigar_step_tracks c e Hop He) as (e1 & -> & He1 & Hq1 & Hr1 & Hw1 & Happ1).
    { intros r Hr. apply HP. cbn [matched_from] in *.
      rewrite orb_false_r in Hr. now rewrite Hr. }
    { exact Hq. }
    { cbn [bam_cigar2qlen] in *. lia. }
    cbn [bam_cigar2qlen ref_length match_length aligned_with_ref] in *.
    rewrite app_nil_r in Happ1. rewrite Z.add_0_r in Hq1, Hr1, Hw1.
    destruct (IH e1 Hops He1) as (e2 & -> & He2 & Hw2 & Happ2).
    { intros r Hr. apply HP. cbn [matched_from]. rewrite <- Hr1, Hr. apply orb_true_r. }
    { destruct (consumes_query _); lia. }
    { lia. }
    exists e2. split; [reflexivity|]. split; [exact He2|]. split; [lia|].
    rewrite <- Hq1, <- Hr1. exact (appended_trans base e e1 e2 _ _ Happ1 Happ2).
Qed.
End Tracking.

(** ** Reads that meet no variant of the window *)

(** Without a soft clip the operations leave every query position of the
    record in place. *)
Lemma aligned_from_keeps (cigar : list N) (query : list (N * ascii)) (q : Z) :
  forallb (fun c => keeps_query (bam_cigar_op c)) cigar = true ->
  0 <= q -> q + bam_cigar2qlen cigar = Z.of_nat (length query) ->
  aligned_from q cigar query = drop (Z.to_nat q) query.
Proof.
  revert q. induction cigar as [|c rest IH]; intros q Hops Hq Hlen;
    cbn [aligned_from bam_cigar2qlen] in *.
  - rewrite drop_ge; [reflexivity|lia].
  - cbn [forallb] in Hops. apply andb_prop in Hops as [Hop Hops].
    pose proof (bam_cigar_oplen_nonneg c) as Hnn.
    pose proof (bam_cigar2qlen_nonneg rest) as Hrest.
    unfold keeps_query in Hop. apply andb_prop in Hop as [Hrec Hsoft].
    apply recognised_kinds in Hrec.
    unfold copies_query, consumes_query in *.
    destruct Hrec as [Hk|[Hk|[Hk|[Hk|[Hk|[Hk|Hk]]]]]]; rewrite Hk in *;
      cbn in Hsoft, Hlen |- *; try discriminate Hsoft.
    1-4: rewrite IH by (trivial; lia);
         replace (Z.to_nat (q + bam_cigar_oplen c))
           with (Z.to_nat q + Z.to_nat (bam_cigar_oplen c))%nat by lia;
         rewrite <- drop_drop; apply take_drop.
    all: rewrite IH by (trivial; lia); now rewrite Z.add_0_r.
Qed.

Lemma keeps_query_recognised (cigar : list N) :
  forallb (fun c => keeps_query (bam_cigar_op c)) cigar = true ->
  forallb (fun c => recognised (bam_cigar_op c)) cigar = true.
Proof.
  induction cigar as [|c rest IH]; cbn [forallb]; [trivial|].
  intros Hops. apply andb_prop in Hops as [Hop Hops].
  unfold keeps_query in Hop. apply andb_prop in Hop as [-> _]. now rewrite IH.
Qed.

Section Clear.
Context {F : Type} `{Double F}.
Variable b : bam1.
Variable mutprob : F.
Variable defallelefrac : F.

(** A turn at a position the read covers, with a window of variants that
    cannot meet the read: the base is copied and the position is counted as
    one without a variant. *)
Lemma match_position_clear (c0 : counters) (err0 : list diag) (cigar_oplen1 j : Z)
    (e : engine F) (p : N * ascii) :
  Forall (clear_of b) (vcf_rec_it e)
  /\ stderr e = err0
  /\ cnt e = more_skip_cmatches (num_skip_cmatches (cnt e) - num_skip_cmatches c0) c0 ->
  matched_from (core_pos b) (bam_get_cigar b) (rpos e) = true ->
  at_index (bam_query b) (qpos e) = Some p ->
  exists e', match_position b mutprob defallelefrac cigar_oplen1 j e = (Running, j, e')
             /\ (Forall (clear_of b) (vcf_rec_it e')
                 /\ stderr e' = err0
                 /\ cnt e' = more_skip_cmatches
                               (num_skip_cmatches (cnt e') - num_skip_cmatches c0) c0)
             /\ qpos e' = qpos e + 1 /\ rpos e' = rpos e + 1
             /\ num_skip_cmatches (cnt e') = num_skip_cmatches (cnt e) + 1
             /\ appended original_base e e' [(Some (rpos e), p)].
Proof.
  intros (Hit & Herr & Hcnt) Hr Hp. rewrite match_position_unfold. cbv zeta.
  destruct (advance_it_suffix (core_tid b) (rpos e) (vcf_rec_it e) (vcf_list_idx e))
    as [skipped Hs].
  pose proof (advance_it_head (core_tid b) (rpos e) (vcf_rec_it e) (vcf_list_idx e)) as Hhead.
  destruct (advance_it _ _ _ _) as [it idx]. cbn [fst snd] in *.
  assert (Hit' : Forall (clear_of b) it).
  { rewrite Hs in Hit. now apply Forall_app in Hit. }
  assert (Hnone : selected mutprob defallelefrac (set_it it idx e) = None
                  /\ at_variant (set_it it idx e) = false).
  { unfold selected, at_variant. cbn [set_it vcf_rec_it rpos].
    destruct it as [|first rest]; [now split|].
    specialize (Hhead first rest eq_refl).
    apply Forall_inv in Hit'. unfold clear_of in Hit'.
    assert (Hne : (rpos e =? pos first) = false).
    { destruct (Z.eqb_spec (rpos e) (pos first)) as [Heq|]; [exfalso|reflexivity].
      rewrite Heq in Hr, Hhead. unfold is_var1_before_var2 in Hhead.
      destruct Hit' as [Hrid|Hpos]; [lia|congruence]. }
    rewrite Hne. now split. }
  destruct Hnone as [-> ->].
  destruct p as [c q]. unfold copy_base, base_at, qual_at. cbn [set_it qpos]. rewrite Hp.
  unfold end_of_turn. eexists. split; [reflexivity|].
  cbn [advance count push_back set_it vcf_rec_it stderr cnt qpos rpos newseq newqual
       skip_cmatches num_skip_cmatches].
  split; [split; [exact Hit'|split; [exact Herr|]]|].
  { remember (num_skip_cmatches (cnt e)) as n eqn:Hn.
    unfold skip_cmatches. rewrite Hcnt. unfold more_skip_cmatches. cbn. f_equal. lia. }
  split; [reflexivity|]. split; [reflexivity|]. split; [reflexivity|].
  split; reflexivity.
Qed.

(** The engine on a read that meets no variant of its window. *)
Lemma mutate_clear (vcf_list : list (bcf1 F)) (c : counters) (err : list diag) :
  walkable b ->
  Forall (clear_of b) vcf_list ->
  exists e, mutate b mutprob defallelefrac vcf_list c err = (Running, e)
            /\ newseq e = map (fun p => nt16_char (fst p))
                            (aligned_from 0 (bam_get_cigar b) (bam_query b))
            /\ newqual e = map snd (aligned_from 0 (bam_get_cigar b) (bam_query b))
            /\ stderr e = err
            /\ cnt e = more_skip_cmatches (match_length (bam_get_cigar b)) c.
Proof.
  intros [Hops Hlen] Hclear. unfold mutate.
  destruct (cigar_walk_tracks b mutprob defallelefrac
              (fun r => matched_from (core_pos b) (bam_get_cigar b) r = true)
              (fun e => Forall (clear_of b) (vcf_rec_it e)
                        /\ stderr e = err
                        /\ cnt e = more_skip_cmatches
                                     (num_skip_cmatches (cnt e) - num_skip_cmatches c) c)
              original_base
              (fun e => num_skip_cmatches (cnt e)))
    with (cigar := bam_get_cigar b) (e := engine_init b vcf_list c err)
    as (e & Hwalk & (_ & Herr & Hcnt) & Hw & Hq & Hs).
  - intros s q e He. exact He.
  - intros dq dr e _ He. exact He.
  - reflexivity.
  - reflexivity.
  - intros p. reflexivity.
  - intros cigar_oplen1 j e p. apply match_position_clear.
  - exact Hops.
  - split; [exact Hclear|]. split; [reflexivity|].
    cbn [engine_init cnt]. unfold more_skip_cmatches. destruct c. cbn. f_equal. lia.
  - intros r Hr. exact Hr.
  - cbn. lia.
  - cbn. lia.
  - exists e. split; [exact Hwalk|].
    cbn [engine_init newseq newqual qpos rpos cnt app] in *.
    rewrite <- (aligned_with_ref_snd 0 (core_pos b)), !map_map.
    split; [exact Hs|]. split; [exact Hq|]. split; [exact Herr|].
    rewrite Hcnt. f_equal. lia.
Qed.

(** X18.  A read that meets no variant of its window goes through the engine
    unchanged.  When the engine can walk the read and every variant of the
    window is on an earlier contig or at a position that is not under a
    match operation of the read (before the read, in a stretch it deletes,
    or after it, as the variant that fetch-ahead pushes last), the walk ends
    with the bases and qualities of the query positions under matches and
    insertions, prints nothing, and counts every position of a match
    operation as one without a variant. *)
Theorem read_clear_of_variants_is_copied (vcf_list : list (bcf1 F)) (c : counters)
    (err : list diag) :
  walkable b ->
  Forall (clear_of b) vcf_list ->
  exists e, mutate b mutprob defallelefrac vcf_list c err = (Running, e)
            /\ newseq e = map (fun p => nt16_char (fst p))
                            (aligned_from 0 (bam_get_cigar b) (bam_query b))
            /\ newqual e = map snd (aligned_from 0 (bam_get_cigar b) (bam_query b))
            /\ stderr e = err
            /\ cnt e = more_skip_cmatches (match_length (bam_get_cigar b)) c.
Proof. apply mutate_clear. Qed.

(** X19.  The engine writes what the bypass writes for a read that meets no
    variant of its window and has no soft clip: a window that is not empty
    but holds no variant at a position of the read changes nothing in the
    record written. *)
Theorem engine_is_bypass_when_clear (vcf_list : list (bcf1 F)) (c : counters)
    (err : list diag) (o : gzfiles) :
  forallb (fun c => keeps_query (bam_cigar_op c)) (bam_get_cigar b) = true ->
  bam_cigar2qlen (bam_get_cigar b) = l_qseq b ->
  Forall (clear_of b) vcf_list ->
  let '(st, _, err', o') := mutate_and_write defallelefrac mutprob b vcf_list c err o in
  (st, o') = bamrec_write_fastq_raw b o /\ err' = err.
Proof.
  intros Hops Hlen Hclear. unfold mutate_and_write.
  destruct (mutate_clear vcf_list c err) as (e & -> & Hs & Hq & Herr & _).
  { split; [now apply keeps_query_recognised|lia]. }
  { exact Hclear. }
  rewrite (aligned_from_keeps (bam_get_cigar b) (bam_query b) 0 Hops) in Hs, Hq
    by (unfold l_qseq in Hlen; lia).
  cbn [Z.to_nat drop] in Hs, Hq. rewrite Hs, Hq, bamrec_write_fastq_of_original.
  destruct (bamrec_write_fastq_raw b o). now split.
Qed.
End Clear.

(** ** Windows of substitutions *)

Section Substitutions.
Context {F : Type} `{Double F}.
Variable b : bam1.
Variable mutprob : F.
Variable defallelefrac : F.

(** A variant whose alleles have the same length puts the first letter of
    its alternate allele under the quality of the read, whether it is
    taken as a single-base variant or as a longer one cut down to its first
    base. *)
Lemma apply_variant_substitution (cigar_oplen1 j : Z) (v : bcf1 F) (e : engine F)
    (q : ascii) :
  strlen (allele0 v) = strlen (allele1 v) ->
  qual_at b (qpos e) = Some q ->
  exists e', apply_variant b cigar_oplen1 j v e = (Running, j, e')
             /\ newseq e' = newseq e ++ [hd NUL (allele1 v)]
             /\ newqual e' = newqual e ++ [q]
             /\ qpos e' = qpos e /\ rpos e' = rpos e
             /\ vcf_rec_it e' = vcf_rec_it e
             /\ positions_counted (cnt e') = positions_counted (cnt e) + 1.
Proof.
  intros Hlen Hq. unfold apply_variant, fprintf_if, positions_counted.
  cbn [fprintf qpos]. rewrite Hq.
  assert (Heq : (strlen (allele0 v) =? strlen (allele1 v)) = true) by lia.
  rewrite Heq.
  destruct (_ && _); [destruct (ispowerof2 _)|];
    (eexists; split; [reflexivity|]; cbn; repeat split; lia).
Qed.

(** A variant before a position is before every later position of the
    contig. *)
Lemma before_later (v : bcf1 F) (tid r r' : Z) :
  r <= r' ->
  is_var1_before_var2 (rid v) (pos v) tid r = true ->
  is_var1_before_var2 (rid v) (pos v) tid r' = true.
Proof. unfold is_var1_before_var2. lia. Qed.

(** The iterator moves past variants before the position only. *)
Lemma advance_it_skipped (tid rp : Z) (it : list (bcf1 F)) (idx : Z) :
  exists skipped,
    it = skipped ++ fst (advance_it tid rp it idx)
    /\ Forall (fun v => is_var1_before_var2 (rid v) (pos v) tid rp = true) skipped.
Proof.
  revert idx. induction it as [|v rest IH]; intros idx; cbn [advance_it].
  - exists []. now split.
  - destruct (is_var1_before_var2 _ _ _ _) eqn:Hv; [|exists []; now split].
    destruct (IH (idx + 1)) as (skipped & Hs & Hbefore).
    exists (v :: skipped). cbn [app]. rewrite <- Hs. split; [reflexivity|].
    now constructor.
Qed.

(** Where the iterator stops depends neither on the index nor on the
    variants before the position that it has left behind. *)
Lemma advance_it_from (tid rp : Z) (skipped it : list (bcf1 F)) (idx idx' : Z) :
  Forall (fun v => is_var1_before_var2 (rid v) (pos v) tid rp = true) skipped ->
  fst (advance_it tid rp (skipped ++ it) idx) = fst (advance_it tid rp it idx').
Proof.
  intros Hbefore. revert idx. induction Hbefore as [|v skipped Hv _ IH]; intros idx.
  - cbn [app]. revert idx idx'. induction it as [|v rest IH]; intros idx idx';
      cbn [advance_it]; [reflexivity|].
    destruct (is_var1_before_var2 _ _ _ _); [apply IH|reflexivity].
  - cbn [app advance_it]. rewrite Hv. apply IH.
Qed.

(** A turn of the loop over the positions of a match operation when every
    variant of the window is a substitution: it writes the base that
    [spiked_base] gives for the reference position. *)
Lemma match_position_spiked (vcf_list : list (bcf1 F)) (cigar_oplen1 j : Z)
    (e : engine F) (p : N * ascii) :
  Forall (fun v => strlen (allele0 v) = strlen (allele1 v)) vcf_list ->
  (exists skipped,
     vcf_list = skipped ++ vcf_rec_it e
     /\ Forall (fun v => is_var1_before_var2 (rid v) (pos v) (core_tid b) (rpos e) = true)
          skipped) ->
  at_index (bam_query b) (qpos e) = Some p ->
  exists e', match_position b mutprob defallelefrac cigar_oplen1 j e = (Running, j, e')
             /\ (exists skipped,
                   vcf_list = skipped ++ vcf_rec_it e'
                   /\ Forall (fun v => is_var1_before_var2 (rid v) (pos v) (core_tid b)
                                         (rpos e') = true) skipped)
             /\ qpos e' = qpos e + 1 /\ rpos e' = rpos e + 1
             /\ positions_counted (cnt e') = positions_counted (cnt e) + 1
             /\ appended (spiked_base mutprob defallelefrac vcf_list (core_tid b)) e e'
                  [(Some (rpos e), p)].
Proof.
  intros Hsub (skipped & Hlist & Hbefore) Hp. rewrite match_position_unfold. cbv zeta.
  assert (Hwin : window_variant_at mutprob defallelefrac vcf_list (core_tid b) (rpos e)
                 = selected mutprob defallelefrac
                     (set_it (fst (advance_it (core_tid b) (rpos e) (vcf_rec_it e)
                                     (vcf_list_idx e)))
                        (snd (advance_it (core_tid b) (rpos e) (vcf_rec_it e)
                                (vcf_list_idx e))) e)).
  { unfold window_variant_at, selected. cbn [set_it vcf_rec_it rpos].
    rewrite Hlist, (advance_it_from _ _ skipped (vcf_rec_it e) 0 (vcf_list_idx e) Hbefore).
    now destruct (fst (advance_it _ _ _ _)). }
  destruct (advance_it_skipped (core_tid b) (rpos e) (vcf_rec_it e) (vcf_list_idx e))
    as (skipped2 & Hs & Hbefore2).
  destruct (advance_it _ _ _ _) as [it idx]. cbn [fst snd] in *.
  assert (Hinv : exists skipped',
             vcf_list = skipped' ++ it
             /\ Forall (fun v => is_var1_before_var2 (rid v) (pos v) (core_tid b)
                                   (rpos e + 1) = true) skipped').
  { exists (skipped ++ skipped2). split; [now rewrite Hlist, Hs, app_assoc|].
    apply Forall_app. split; (eapply Forall_impl; [eassumption|]);
      intros v; cbn beta; apply before_later; lia. }
  set (e1 := set_it it idx e) in *.
  destruct p as [c q].
  assert (Hq : qual_at b (qpos e1) = Some q) by (unfold qual_at; cbn; now rewrite Hp).
  unfold appended, spiked_base. cbn [map fst snd]. rewrite Hwin.
  destruct (selected mutprob defallelefrac e1) as [v|] eqn:Hsel.
  - apply selected_in in Hsel. cbn [e1 set_it vcf_rec_it] in Hsel.
    assert (Hlen : strlen (allele0 v) = strlen (allele1 v)).
    { rewrite Forall_forall in Hsub. apply Hsub. apply list_elem_of_In.
      rewrite Hlist, Hs. apply in_or_app. right. apply in_or_app. now right. }
    destruct (apply_variant_substitution cigar_oplen1 j v e1 q Hlen Hq)
      as (e2 & -> & Hs2 & Hq2 & Hqp & Hrp & Hit2 & Hcnt).
    unfold end_of_turn. eexists. split; [reflexivity|].
    cbn [advance vcf_rec_it qpos rpos cnt newseq newqual].
    rewrite Hit2, Hqp, Hrp, Hcnt. cbn [e1 set_it vcf_rec_it qpos rpos cnt].
    split; [exact Hinv|].
    split; [reflexivity|]. split; [reflexivity|]. split; [reflexivity|].
    split; [exact Hq2|exact Hs2].
  - unfold copy_base, base_at, qual_at. cbn [e1 set_it qpos]. rewrite Hp.
    unfold end_of_turn. eexists. split; [reflexivity|].
    cbn [advance count push_back set_it vcf_rec_it cnt qpos rpos newseq newqual].
    split; [exact Hinv|].
    split; [reflexivity|]. split; [reflexivity|].
    split; [unfold positions_counted; destruct (at_variant _); cbn; lia|].
    split; reflexivity.
Qed.

(** The engine on a window of substitutions. *)
Lemma mutate_substitutions (vcf_list : list (bcf1 F)) (c : counters) (err : list diag) :
  walkable b ->
  Forall (fun v => strlen (allele0 v) = strlen (allele1 v)) vcf_list ->
  exists e, mutate b mutprob defallelefrac vcf_list c err = (Running, e)
            /\ newqual e = map snd (aligned_from 0 (bam_get_cigar b) (bam_query b))
            /\ newseq e = map (spiked_base mutprob defallelefrac vcf_list (core_tid b))
                            (aligned_with_ref 0 (core_pos b) (bam_get_cigar b)
                               (bam_query b))
            /\ positions_counted (cnt e)
               = positions_counted c + match_length (bam_get_cigar b).
Proof.
  intros [Hops Hlen] Hsub. unfold mutate.
  destruct (cigar_walk_tracks b mutprob defallelefrac
              (fun _ => True)
              (fun e => exists skipped,
                   vcf_list = skipped ++ vcf_rec_it e
                   /\ Forall (fun v => is_var1_before_var2 (rid v) (pos v) (core_tid b)
                                         (rpos e) = true) skipped)
              (spiked_base mutprob defallelefrac vcf_list (core_tid b))
              (fun e => positions_counted (cnt e)))
    with (cigar := bam_get_cigar b) (e := engine_init b vcf_list c err)
    as (e & Hwalk & _ & Hw & Hq & Hs).
  - intros s q e He. exact He.
  - intros dq dr e Hdr (skipped & Hlist & Hbefore). exists skipped.
    cbn [advance vcf_rec_it rpos]. split; [exact Hlist|].
    eapply Forall_impl; [exact Hbefore|]. intros v; cbn beta. apply before_later. lia.
  - reflexivity.
  - reflexivity.
  - intros p. reflexivity.
  - intros cigar_oplen1 j e p He _. now apply match_position_spiked.
  - exact Hops.
  - exists []. split; [reflexivity|constructor].
  - intros r _. exact I.
  - cbn. lia.
  - cbn. lia.
  - exists e. split; [exact Hwalk|].
    cbn [engine_init newseq newqual qpos rpos cnt app] in *.
    rewrite <- (aligned_with_ref_snd 0 (core_pos b)), map_map.
    split; [exact Hq|]. split; [exact Hs|exact Hw].
Qed.

(** X20.  Substitutions keep the length and the qualities of a read, and
    the bases written are known.  When the engine can walk the read and
    every variant of the window has as many reference as alternate bases,
    the walk ends with the qualities of the query positions under matches
    and insertions, and with one base for each of them: for a position
    under a match, the first letter of the alternate allele of the variant
    that the window gives at the reference position aligned with it, and
    the base of the read when it gives none; for an inserted position, the
    base of the read.  Every position of a match operation is counted once,
    as kept, as skipped or as one without a variant. *)
Theorem substitutions_keep_length_and_quality (vcf_list : list (bcf1 F)) (c : counters)
    (err : list diag) :
  walkable b ->
  Forall (fun v => strlen (allele0 v) = strlen (allele1 v)) vcf_list ->
  exists e, mutate b mutprob defallelefrac vcf_list c err = (Running, e)
            /\ newqual e = map snd (aligned_from 0 (bam_get_cigar b) (bam_query b))
            /\ newseq e = map (spiked_base mutprob defallelefrac vcf_list (core_tid b))
                            (aligned_with_ref 0 (core_pos b) (bam_get_cigar b)
                               (bam_query b))
            /\ positions_counted (cnt e)
               = positions_counted c + match_length (bam_get_cigar b).
Proof. apply mutate_substitutions. Qed.
End Substitutions.

(** ** Longer substitutions, and variants of other contigs *)

Section MoreScenarios.
Context {F : Type} `{Double F}.
Variable b : bam1.
Variable mutprob : F.
Variable defallelefrac : F.

(** X21.  Of a qualifying variant with as many alternate as reference bases,
    more than one, only the first alternate base is used: it is put in place
    of the base of the read at that position, under the quality of the
    read, and the following bases of the read are left as they are.  The
    warning printed names the contig and the start of the read, not the
    place of the variant. *)
Theorem mnv_at_match_position (cigar_oplen1 j : Z) (e : engine F)
    (first v : bcf1 F) (rest : list (bcf1 F)) (idx : Z) (q : ascii) :
  advance_it (core_tid b) (rpos e) (vcf_rec_it e) (vcf_list_idx e)
    = (first :: rest, idx) ->
  rpos e = pos first ->
  first_qualifying mutprob defallelefrac (run_of first (first :: rest)) = Some v ->
  1 < strlen (allele0 v) ->
  strlen (allele0 v) = strlen (allele1 v) ->
  qual_at b (qpos e) = Some q ->
  let '(st, j', e') := match_position b mutprob defallelefrac cigar_oplen1 j e in
  st = Running /\ j' = j
  /\ qpos e' = qpos e + 1 /\ rpos e' = rpos e + 1
  /\ newseq e' = newseq e ++ [hd NUL (allele1 v)]
  /\ newqual e' = newqual e ++ [q]
  /\ stderr e' = stderr e ++ [MnvDecomposed (core_tid b) (core_pos b)]
  /\ num_kept_mnv (cnt e') = num_kept_mnv (cnt e) + 1
  /\ num_kept_snv (cnt e') = num_kept_snv (cnt e).
Proof.
  intros Hit Hpos Hv Href Hlen Hq.
  rewrite (match_position_applies _ _ _ _ _ _ _ _ _ _ Hit Hpos Hv).
  unfold apply_variant. cbn [set_it fprintf qpos]. rewrite Hq.
  assert (H1 : (1 =? strlen (allele0 v)) = false) by lia.
  assert (H2 : (strlen (allele0 v) =? strlen (allele1 v)) = true) by lia.
  rewrite H1, H2. cbn. repeat split.
Qed.

(** X22.  The test at a position of a match operation compares positions
    only.  A variant of the window on a later contig than the read (the
    iterator does not pass it, as it is not before the read) whose position
    is the current reference position is taken for a variant at this
    position: if it qualifies, its alternate base is written into the
    read. *)
Theorem variant_of_a_later_contig_is_applied (cigar_oplen1 j : Z) (e : engine F)
    (first v : bcf1 F) (rest : list (bcf1 F)) (q : ascii) :
  vcf_rec_it e = first :: rest ->
  core_tid b < rid first ->
  rpos e = pos first ->
  first_qualifying mutprob defallelefrac (run_of first (first :: rest)) = Some v ->
  strlen (allele0 v) = 1 ->
  strlen (allele1 v) = 1 ->
  qual_at b (qpos e) = Some q ->
  let '(st, j', e') := match_position b mutprob defallelefrac cigar_oplen1 j e in
  st = Running /\ j' = j
  /\ rid v <> core_tid b
  /\ newseq e' = newseq e ++ [hd NUL (allele1 v)]
  /\ newqual e' = newqual e ++ [q]
  /\ num_kept_snv (cnt e') = num_kept_snv (cnt e) + 1.
Proof.
  intros Hit Htid Hpos Hv Href Halt Hq.
  assert (Hadv : advance_it (core_tid b) (rpos e) (vcf_rec_it e) (vcf_list_idx e)
                 = (first :: rest, vcf_list_idx e)).
  { rewrite Hit. cbn [advance_it].
    assert (Hnot : is_var1_before_var2 (rid first) (pos first) (core_tid b) (rpos e) = false)
      by (unfold is_var1_before_var2; lia).
    now rewrite Hnot. }
  assert (Hrid : rid v = rid first).
  { apply first_qualifying_in in Hv. clear - Hv.
    set (it := first :: rest) in Hv. clearbody it.
    induction it as [|w it IH]; cbn [run_of] in Hv; [contradiction|].
    destruct (Z.eqb_spec (rid w) (rid first)) as [Hw|]; cbn [andb] in Hv; [|contradiction].
    destruct (pos w =? pos first); [|contradiction].
    destruct Hv as [<-|Hv]; [exact Hw|now apply IH]. }
  rewrite (match_position_applies _ _ _ _ _ _ _ _ _ _ Hadv Hpos Hv).
  unfold apply_variant. cbn [set_it qpos]. rewrite Href, Halt, Hq.
  cbn [Z.eqb Pos.eqb andb].
  unfold fprintf_if. destruct (ispowerof2 _); cbn; repeat split; lia.
Qed.
End MoreScenarios.

(** ** Reads that are left out, and the file a read goes to *)

Section Routing.
Context {F : Type} `{Double F} `{Htslib}.
Variable defallelefrac : F.

(** X23.  Secondary and supplementary records take no part in the run: the
    program ends in the same state, with the same files written, as on the
    alignment source without them.  In particular they move neither the
    variant source nor the window. *)
Theorem secondary_and_supplementary_are_left_out (bam : list bam1) (m : process F) :
  main_loop defallelefrac bam m
  = main_loop defallelefrac (List.filter (fun b => negb (flag_set b 0x900)) bam) m.
Proof.
  revert m. induction bam as [|b rest IH]; intros m; [reflexivity|].
  cbn [List.filter]. destruct (flag_set b 2304) eqn:Hflag; cbn [negb main_loop].
  - unfold process_read. rewrite Hflag. apply IH.
  - destruct (process_read defallelefrac b m) as [[|why] m']; [apply IH|reflexivity].
Qed.

Lemma bamrec_write_fastq_appends (aln : bam1) (seq qual : list ascii) (o : gzfiles) :
  exists text, snd (bamrec_write_fastq aln seq qual o) = gzprintf aln text o.
Proof.
  unfold bamrec_write_fastq.
  assert (Hnone : o = gzprintf aln [] o).
  { unfold gzprintf. destruct (outfile_is_r2 aln), o; cbn; now rewrite app_nil_r. }
  destruct (negb (_ =? _)%nat); [now exists []|].
  destruct (negb (forallb _ _)); cbn [snd]; rewrite ?gzprintf_app; eauto.
Qed.

(** X24.  What is written for a read is appended to one file, chosen by the
    flags of the read: the second file for a read flagged as last of its
    pair (0x80) and not as first (0x40), the first file otherwise, also for
    a read flagged as both or as neither.  The other file is left as it is,
    and nothing written before is changed. *)
Theorem process_read_appends_to_one_file (b : bam1) (m : process F) :
  let m' := snd (process_read defallelefrac b m) in
  if flag_set b 0x40 || negb (flag_set b 0x80)
  then r2file (m_out m') = r2file (m_out m)
       /\ exists text, r1file (m_out m') = r1file (m_out m) ++ text
  else r1file (m_out m') = r1file (m_out m)
       /\ exists text, r2file (m_out m') = r2file (m_out m) ++ text.
Proof.
  assert (Hout : exists text, m_out (snd (process_read defallelefrac b m))
                              = gzprintf b text (m_out m)).
  { assert (Hnone : m_out m = gzprintf b [] (m_out m)).
    { unfold gzprintf. destruct (outfile_is_r2 b), (m_out m); cbn; now rewrite app_nil_r. }
    unfold process_read.
    destruct (flag_set b 2304); [now exists []|].
    destruct (synchronize _ _ _ _ _ _) as [[[[vcf_fp vcf_rec] ret] vcf_list] err].
    destruct (0 <? length vcf_list)%nat.
    - unfold mutate_and_write.
      destruct (mutate _ _ _ _ _ _) as [[|why] e]; [|now exists []].
      destruct (bamrec_write_fastq_appends b (newseq e) (newqual e) (m_out m)) as [text Ht].
      destruct (bamrec_write_fastq _ _ _ _) as [st o]. now exists text.
    - rewrite bamrec_write_fastq_raw_original. now exists (original_fastq b). }
  destruct Hout as [text Hout]. cbv zeta. rewrite Hout.
  unfold gzprintf, outfile_is_r2.
  destruct (flag_set b 64), (flag_set b 128); cbn; eauto.
Qed.
End Routing.

(** ** The command line *)

Section CommandLineProperties.
Context {F : Type} `{Double F} `{Htslib}.
Variable atof : list ascii -> F.
Variable sam_open : list ascii -> list bam1.
Variable vcf_open : list ascii -> list (bcf1 F).





(** X26.  On well-formed input the program comes to its end and returns 0:
    when the reads that are neither secondary nor supplementary can be
    walked by the engine and the alternate alleles of the variants can be
    written, [main] after its options prints the diagnostics of the loop,
    then its five summary lines, and the counters in them are not negative,
    the kinds of variants together not exceeding the kept read supports. *)
Theorem main_returns_zero_on_well_formed_input (allelefrac : F) (bam vcf : list ascii) :
  Forall (fun b => flag_set b 0x900 = false -> walkable b) (sam_open bam) ->
  Forall alt_above_space (vcf_open vcf) ->
  exists m,
    main_loop allelefrac (sam_open bam) (process_init (vcf_open vcf)) = (Running, m)
    /\ main_after_options sam_open vcf_open allelefrac bam vcf
       = (map Diag (m_stderr m)
          ++ map Summary
               [InTotal (num_kept_reads (m_cnt m)) (num_skip_reads (m_cnt m))
                  (num_skip_cmatches (m_cnt m));
                KeptSnv (num_kept_snv (m_cnt m)); KeptMnv (num_kept_mnv (m_cnt m));
                KeptIns (num_kept_ins (m_cnt m)); KeptDel (num_kept_del (m_cnt m))],
          m_out m, Exit 0)
    /\ kinds_within_kept (m_cnt m).
Proof.
  intros Hbam Hvcf. unfold main_after_options.
  pose proof (main_loop_runs allelefrac (sam_open bam) (process_init (vcf_open vcf)) Hbam)
    as Hruns.
  pose proof (kinds_within_kept_main_loop allelefrac (sam_open bam)
                (process_init (vcf_open vcf))) as Hcnt.
  destruct (main_loop _ _ _) as [st m]. cbn [fst snd] in *.
  rewrite Hruns by (split; [constructor|exact Hvcf]).
  exists m. split; [reflexivity|]. split; [reflexivity|].
  apply Hcnt. unfold kinds_within_kept. cbn. lia.
Qed.
End CommandLineProperties.

(** ** The statements above on the example inputs *)

Lemma main_loop_runs_to_the_end_witness :
  fst (main_loop DEFAULT_ALLELE_FRAC [read_ACGT; read_clipped; read_indel]
         (process_init [snv_100; complex_101; snv_102])) = Running.
Proof.
  apply (main_loop_runs_to_the_end DEFAULT_ALLELE_FRAC [read_ACGT; read_clipped; read_indel]
           [snv_100; complex_101; snv_102]).
  - repeat (apply List.Forall_cons; [intros _; split; [reflexivity|vm_compute; discriminate]|]).
    apply List.Forall_nil.
  - repeat (apply List.Forall_cons; [split; [discriminate|reflexivity]|]).
    apply List.Forall_nil.
Defined.

Lemma process_read_writes_a_record_witness :
  exists m' bases quals,
    process_read DEFAULT_ALLELE_FRAC read_ACGT (process_init [snv_100; snv_101; snv_102])
    = (Running, m')
    /\ m_out m' = gzprintf read_ACGT (fastq_record (bam_get_qname read_ACGT) bases quals)
                    (m_out (process_init [snv_100; snv_101; snv_102]))
    /\ lines (fastq_record (bam_get_qname read_ACGT) bases quals)
       = ["@"%char :: bam_get_qname read_ACGT; bases; ["+"%char]; quals]
    /\ length bases = length quals.
Proof.
  apply (process_read_writes_a_record DEFAULT_ALLELE_FRAC read_ACGT
           (process_init [snv_100; snv_101; snv_102])).
  - reflexivity.
  - split; [reflexivity|vm_compute; discriminate].
  - split; [apply List.Forall_nil|].
    repeat (apply List.Forall_cons; [split; [discriminate|reflexivity]|]).
    apply List.Forall_nil.
  - repeat (apply List.Forall_cons; [discriminate|]). apply List.Forall_nil.
  - repeat (apply List.Forall_cons; [split; discriminate|]). apply List.Forall_nil.
Defined.

(** The condition on the qualities is needed: the raw quality 233 is
    written as a newline, and the text of the read has five lines. *)
Example quality_233_breaks_the_record :
  walkable read_quality_233
  /\ lines (r1file (snd (bamrec_write_fastq_raw read_quality_233 no_output)))
     = [cstr "@read5#ACGT"; cstr "AC"; cstr "+"; []; cstr "?"].
Proof. split; [split; [reflexivity|vm_compute; discriminate]|reflexivity]. Qed.

Lemma read_clear_of_variants_is_copied_witness :
  exists e, mutate read_indel 0%Q DEFAULT_ALLELE_FRAC [snv_50; snv_103; snv_200] no_counts []
            = (Running, e)
            /\ newseq e = map (fun p => nt16_char (fst p))
                            (aligned_from 0 (bam_get_cigar read_indel) (bam_query read_indel))
            /\ newqual e = map snd (aligned_from 0 (bam_get_cigar read_indel)
                                      (bam_query read_indel))
            /\ stderr e = []
            /\ cnt e = more_skip_cmatches (match_length (bam_get_cigar read_indel)) no_counts.
Proof.
  apply (read_clear_of_variants_is_copied read_indel 0%Q DEFAULT_ALLELE_FRAC
           [snv_50; snv_103; snv_200] no_counts []).
  - split; [reflexivity|vm_compute; discriminate].
  - repeat (apply List.Forall_cons; [right; reflexivity|]). apply List.Forall_nil.
Defined.

Lemma engine_is_bypass_when_clear_witness :
  let '(st, _, err', o') :=
    mutate_and_write DEFAULT_ALLELE_FRAC 0%Q read_indel [snv_50; snv_103; snv_200]
      no_counts [] no_output in
  (st, o') = bamrec_write_fastq_raw read_indel no_output /\ err' = [].
Proof.
  apply (engine_is_bypass_when_clear read_indel 0%Q DEFAULT_ALLELE_FRAC
           [snv_50; snv_103; snv_200] no_counts [] no_output).
  - reflexivity.
  - reflexivity.
  - repeat (apply List.Forall_cons; [right; reflexivity|]). apply List.Forall_nil.
Defined.

Lemma substitutions_keep_length_and_quality_witness :
  exists e, mutate read_ACGT 0%Q DEFAULT_ALLELE_FRAC [mnv_100; snv_102] no_counts []
            = (Running, e)
            /\ newqual e = map snd (aligned_from 0 (bam_get_cigar read_ACGT)
                                      (bam_query read_ACGT))
            /\ newseq e = map (spiked_base 0%Q DEFAULT_ALLELE_FRAC [mnv_100; snv_102]
                                   (core_tid read_ACGT))
                            (aligned_with_ref 0 (core_pos read_ACGT)
                               (bam_get_cigar read_ACGT) (bam_query read_ACGT))
            /\ positions_counted (cnt e)
               = positions_counted no_counts + match_length (bam_get_cigar read_ACGT).
Proof.
  apply (substitutions_keep_length_and_quality read_ACGT 0%Q DEFAULT_ALLELE_FRAC
           [mnv_100; snv_102] no_counts []).
  - split; [reflexivity|vm_compute; discriminate].
  - repeat (apply List.Forall_cons; [reflexivity|]). apply List.Forall_nil.
Defined.

Lemma mnv_at_match_position_witness :
  let e := engine_init read_ACGT [mnv_100] no_counts [] in
  let '(st, j', e') := match_position read_ACGT 0%Q DEFAULT_ALLELE_FRAC 4 0 e in
  st = Running /\ j' = 0
  /\ qpos e' = qpos e + 1 /\ rpos e' = rpos e + 1
  /\ newseq e' = newseq e ++ [hd NUL (allele1 mnv_100)]
  /\ newqual e' = newqual e ++ [ascii_of_nat 30]
  /\ stderr e' = stderr e ++ [MnvDecomposed (core_tid read_ACGT) (core_pos read_ACGT)]
  /\ num_kept_mnv (cnt e') = num_kept_mnv (cnt e) + 1
  /\ num_kept_snv (cnt e') = num_kept_snv (cnt e).
Proof.
  apply (mnv_at_match_position read_ACGT 0%Q DEFAULT_ALLELE_FRAC 4 0
           (engine_init read_ACGT [mnv_100] no_counts []) mnv_100 mnv_100 [] 0);
    reflexivity.
Defined.

Lemma variant_of_a_later_contig_is_applied_witness :
  let e := advance 2 2 (engine_init read_ACGT [snv_102_of_contig_1] no_counts []) in
  let '(st, j', e') := match_position read_ACGT 0%Q DEFAULT_ALLELE_FRAC 4 2 e in
  st = Running /\ j' = 2
  /\ rid snv_102_of_contig_1 <> core_tid read_ACGT
  /\ newseq e' = newseq e ++ [hd NUL (allele1 snv_102_of_contig_1)]
  /\ newqual e' = newqual e ++ [ascii_of_nat 30]
  /\ num_kept_snv (cnt e') = num_kept_snv (cnt e) + 1.
Proof.
  apply (variant_of_a_later_contig_is_applied read_ACGT 0%Q DEFAULT_ALLELE_FRAC 4 2
           (advance 2 2 (engine_init read_ACGT [snv_102_of_contig_1] no_counts []))
           snv_102_of_contig_1 snv_102_of_contig_1 []); reflexivity.
Defined.

(** The same in a run of the whole program.  The variant source holds a
    variant before the read, one at position 101 of the read's contig and
    one at position 102 of the next contig.  Skip-ahead stops at the second,
    which is lost; fetch-ahead pushes the third, and the engine writes its
    alternate base [T] into the read at position 102 of contig 0. *)
Lemma later_contig_variant_in_a_run :
  let '(st, m) := main_loop DEFAULT_ALLELE_FRAC [read_ACGT]
                    (process_init [snv_50; snv_101; snv_102_of_contig_1]) in
  st = Running
  /\ m_vcf_list m = [snv_102_of_contig_1]
  /\ r1file (m_out m) = cstr "@read1#ACGT" ++ newline :: cstr "ACTT" ++ newline
                        :: "+"%char :: newline :: cstr "????" ++ [newline].
Proof. vm_compute. repeat split. Qed.

Lemma main_returns_zero_on_well_formed_input_witness :
  exists m,
    main_loop DEFAULT_ALLELE_FRAC [read_ACGT; read_indel] (process_init [snv_100; snv_102])
    = (Running, m)
    /\ main_after_options (fun _ => [read_ACGT; read_indel]) (fun _ => [snv_100; snv_102])
         DEFAULT_ALLELE_FRAC (cstr "in.bam") (cstr "in.vcf")
       = (map Diag (m_stderr m)
          ++ map Summary
               [InTotal (num_kept_reads (m_cnt m)) (num_skip_reads (m_cnt m))
                  (num_skip_cmatches (m_cnt m));
                KeptSnv (num_kept_snv (m_cnt m)); KeptMnv (num_kept_mnv (m_cnt m));
                KeptIns (num_kept_ins (m_cnt m)); KeptDel (num_kept_del (m_cnt m))],
          m_out m, Exit 0)
    /\ kinds_within_kept (m_cnt m).
Proof.
  apply (main_returns_zero_on_well_formed_input
           (fun _ => [read_ACGT; read_indel]) (fun _ => [snv_100; snv_102])
           DEFAULT_ALLELE_FRAC (cstr "in.bam") (cstr "in.vcf")).
  - repeat (apply List.Forall_cons; [intros _; split; [reflexivity|vm_compute; discriminate]|]).
    apply List.Forall_nil.
  - repeat (apply List.Forall_cons; [split; [discriminate|reflexivity]|]).
    apply List.Forall_nil.
Defined.

(** ** Allele fractions of one and more *)

Lemma umistr2prob_below_one `{Htslib} (str : list ascii) :
  (fst (umistr2prob str) < 1)%Q.
Proof.
  unfold umistr2prob; cbn [fst]. set (k := uint32 _).
  assert (Hlow : 0 <= Z.land k 0xFFFFFF < 2 ^ 24).
  { change 0xFFFFFF with (Z.ones 24). rewrite Z.land_ones by lia.
    apply Z.mod_pos_bound. lia. }
  unfold Qlt, Qdiv, Qmult, Qinv, inject_Z; simpl.
  change (2 ^ 24) with 16777216 in Hlow. lia.
Qed.

(** X28.  In exact arithmetic, a variant whose allele fraction (explicit, or
    the default) is 1 or more and that is the first of its run is applied
    to every read, whatever the identifier of the read: the fraction of a
    read is below 1. *)
Theorem allele_fraction_one_always_qualifies `{Htslib} (b : bam1) (defallelefrac : Q)
    (cigar_oplen1 j : Z) (v : bcf1 Q) (rest : list (bcf1 Q)) (e : engine Q) :
  (1 <= own_allelefrac defallelefrac v)%Q ->
  mutate_run b (of_Q (fst (umistr2prob (bam_get_qname b)))) defallelefrac cigar_oplen1 j
    (v :: rest) dzero e
  = Some (apply_variant b cigar_oplen1 j v e).
Proof.
  intros Hone. cbn [mutate_run]. unfold add_allelefrac, own_allelefrac in *.
  assert (Hle : dle (of_Q (fst (umistr2prob (bam_get_qname b))))
                  (dadd dzero match FA v with Some x => x | None => defallelefrac end) = true).
  { cbn [dle dadd dzero of_Q Q_Double]. apply Qle_bool_iff.
    pose proof (umistr2prob_below_one (bam_get_qname b)) as Hlt.
    rewrite Qplus_0_l. apply Qlt_le_weak. eapply Qlt_le_trans; [exact Hlt|exact Hone]. }
  now rewrite Hle.
Qed.

Lemma allele_fraction_one_always_qualifies_witness :
  mutate_run read_ACGT (of_Q (fst (umistr2prob (bam_get_qname read_ACGT))))
    DEFAULT_ALLELE_FRAC 4 0 [snv_100; snv_101] dzero
    (engine_init read_ACGT [snv_100; snv_101] no_counts [])
  = Some (apply_variant read_ACGT 4 0 snv_100
            (engine_init read_ACGT [snv_100; snv_101] no_counts [])).
Proof.
  apply (allele_fraction_one_always_qualifies read_ACGT DEFAULT_ALLELE_FRAC 4 0 snv_100
           [snv_101] (engine_init read_ACGT [snv_100; snv_101] no_counts [])).
  vm_compute. discriminate.
Defined.

(** ** What the window can miss, over a whole run *)

Section Accounted.
Context {F : Type} `{Double F} `{Htslib}.
Variable defallelefrac : F.

Lemma skip_ahead_ret (b : bam1) (vcf_fp : list (bcf1 F)) (vcf_rec : bcf1 F)
    (vcf_read_ret : Z) (err : list diag) :
  (vcf_read_ret = -1 -> vcf_fp = []) ->
  let '(vcf_fp', _, vcf_read_ret', _) := skip_ahead b vcf_fp vcf_rec vcf_read_ret err in
  vcf_read_ret' = -1 -> vcf_fp' = [].
Proof.
  revert vcf_rec vcf_read_ret err.
  induction vcf_fp as [|v rest IH]; intros vcf_rec vcf_read_ret err Hret; cbn [skip_ahead].
  - destruct (is_var1_before_var2 _ _ _ _); [destruct (negb _)|]; trivial.
  - destruct (is_var1_before_var2 _ _ _ _); [|exact Hret].
    destruct (negb _); [|exact Hret].
    apply IH. discriminate.
Qed.

(** Fetch-ahead ends at the end of the source or with a record in
    [vcf_rec] that is not before the end of the read. *)
Lemma fetch_ahead_exit (b : bam1) (vcf_fp : list (bcf1 F)) (vcf_rec : bcf1 F)
    (vcf_read_ret : Z) (vcf_list : list (bcf1 F)) (err : list diag) :
  (vcf_read_ret = -1 -> vcf_fp = []) ->
  let '(vcf_fp', vcf_rec', vcf_read_ret', _, _) :=
    fetch_ahead b vcf_fp vcf_rec vcf_read_ret vcf_list err in
  (vcf_read_ret' = -1 -> vcf_fp' = [])
  /\ (vcf_fp' = []
      \/ is_var1_before_var2 (rid vcf_rec') (pos vcf_rec') (core_tid b) (bam_endpos b) = false).
Proof.
  revert vcf_rec vcf_read_ret vcf_list err.
  induction vcf_fp as [|v rest IH]; intros vcf_rec vcf_read_ret vcf_list err Hret;
    cbn [fetch_ahead].
  - destruct (is_var1_before_var2 _ _ _ _); [destruct (negb _)|]; split; auto.
  - destruct (is_var1_before_var2 (rid vcf_rec) _ _ _) eqn:Hbefore; [|split; auto].
    destruct (Z.eqb_spec vcf_read_ret (-1)) as [Heq|Hne]; cbn [negb].
    + now specialize (Hret Heq).
    + apply IH. discriminate.
Qed.

Lemma read_by_skip_ahead_spec (b : bam1) (m : process F) (skipped fp1 : list (bcf1 F)) :
  m_vcf_fp m = skipped ++ fp1 ->
  fst (fst (fst (skip_ahead b (m_vcf_fp m) (m_vcf_rec m) (m_vcf_read_ret m) (m_stderr m))))
  = fp1 ->
  read_by_skip_ahead b m = skipped.
Proof.
  intros Hs Hfp. unfold read_by_skip_ahead.
  destruct (skip_ahead _ _ _ _ _) as [[[fp rec] ret] err]. cbn [fst] in Hfp. subst fp.
  rewrite Hs, length_app.
  replace (length skipped + length fp1 - length fp1)%nat with (length skipped) by lia.
  apply take_app_length.
Qed.

(** One read: the records accounted for before the three loops are
    accounted for after them, with the records skip-ahead has read among
    the lost ones, and no record left in the source is before the end of
    the read. *)
Lemma synchronize_accounted (vcf : list (bcf1 F)) (b : bam1) (m : process F)
    (lost : list (bcf1 F)) (tid0 pos0 : Z) :
  accounted vcf m lost tid0 pos0 ->
  is_var1_before_var2 (core_tid b) (core_pos b) tid0 pos0 = false ->
  let '(vcf_fp, vcf_rec, vcf_read_ret, vcf_list, err) :=
    synchronize b (m_vcf_fp m) (m_vcf_rec m) (m_vcf_read_ret m) (m_vcf_list m) (m_stderr m) in
  forall c err' o,
    accounted vcf
      {| m_vcf_fp := vcf_fp; m_vcf_rec := vcf_rec; m_vcf_read_ret := vcf_read_ret;
         m_vcf_list := vcf_list; m_cnt := c; m_stderr := err'; m_out := o |}
      (lost ++ read_by_skip_ahead b m) (core_tid b) (core_pos b)
    /\ Forall (fun v => is_var1_before_var2 (rid v) (pos v) (core_tid b) (bam_endpos b) = false)
         vcf_fp.
Proof.
  intros (Hord & Hret & Hall) Hstart.
  pose proof (read_by_skip_ahead_spec b m) as Hread.
  unfold synchronize.
  destruct (skip_ahead_drops_from_source b (m_vcf_fp m) (m_vcf_rec m) (m_vcf_read_ret m)
              (m_stderr m)) as [skipped Hs].
  pose proof (skip_ahead_in_order b (m_vcf_list m) (m_vcf_fp m) (m_vcf_rec m)
                (m_vcf_read_ret m) (m_stderr m) Hord) as Hord1.
  pose proof (skip_ahead_ret b (m_vcf_fp m) (m_vcf_rec m) (m_vcf_read_ret m) (m_stderr m) Hret)
    as Hret1.
  destruct (skip_ahead _ _ _ _ _) as [[[fp1 rec1] ret1] err1]. cbn [fst] in Hs, Hread.
  specialize (Hread skipped fp1 Hs eq_refl).
  pose proof (fetch_ahead_pushes_from_source b fp1 rec1 ret1 (m_vcf_list m) err1) as Hpush.
  pose proof (fetch_ahead_in_order b (m_vcf_list m) fp1 rec1 ret1 err1 Hord1) as Hord2.
  pose proof (fetch_ahead_exit b fp1 rec1 ret1 (m_vcf_list m) err1 Hret1) as Hexit.
  destruct (fetch_ahead _ _ _ _ _ _) as [[[[fp2 rec2] ret2] vl2] err2].
  destruct Hpush as (pushed & Hvl2 & Hfp1). destruct Hexit as [Hret2 Hexit].
  pose proof (evict_in_order b vl2 (rec2 :: fp2) err2 Hord2) as Hord3.
  destruct (evict_drops_only_before b vl2 err2) as (evicted & Hev & Hbefore).
  destruct (evict _ _ _) as [vl3 err3]. cbn [fst] in Hev. destruct Hord3 as [Hord3 _].
  intros c err' o. split.
  - split; [exact Hord3|]. split; [exact Hret2|]. cbn [m_vcf_fp m_vcf_list].
    intros v Hv. rewrite Hread.
    assert (Hcases : In v fp2 \/ In v vl2 \/ In v (lost ++ skipped)
                     \/ is_var1_before_var2 (rid v) (pos v) (core_tid b) (core_pos b) = true).
    { destruct (Hall v Hv) as [Hin|[Hin|[Hin|Hin]]].
      - rewrite Hs, Hfp1 in Hin. apply in_app_or in Hin as [Hin|Hin].
        + right. right. left. apply in_or_app. now right.
        + apply in_app_or in Hin as [Hin|Hin]; [|now left].
          right. left. rewrite Hvl2. apply in_or_app. now right.
      - right. left. rewrite Hvl2. apply in_or_app. now left.
      - right. right. left. apply in_or_app. now left.
      - right. right. right. unfold is_var1_before_var2 in *. lia. }
    destruct Hcases as [Hin|[Hin|[Hin|Hin]]]; auto.
    rewrite Hev in Hin. apply in_app_or in Hin as [Hin|Hin]; auto.
    right. right. right.
    rewrite Forall_forall in Hbefore. apply Hbefore. now apply list_elem_of_In.
  - destruct Hexit as [->|Hrec2]; [constructor|].
    unfold in_order in Hord2.
    assert (Htail : StronglySorted not_after (rec2 :: fp2)).
    { clear - Hord2. induction vl2 as [|w l IH]; [exact Hord2|].
      apply IH. cbn [app] in Hord2. now apply StronglySorted_inv in Hord2. }
    apply StronglySorted_inv in Htail as [_ Htail].
    eapply Forall_impl; [exact Htail|].
    intros w Hw. unfold not_after, is_var1_before_var2 in *. lia.
Qed.

Lemma process_read_synchronized (b : bam1) (m : process F) :
  flag_set b 0x900 = false ->
  let '(vcf_fp, vcf_rec, vcf_read_ret, vcf_list, _) :=
    synchronize b (m_vcf_fp m) (m_vcf_rec m) (m_vcf_read_ret m) (m_vcf_list m) (m_stderr m) in
  exists c err o,
    snd (process_read defallelefrac b m)
    = {| m_vcf_fp := vcf_fp; m_vcf_rec := vcf_rec; m_vcf_read_ret := vcf_read_ret;
         m_vcf_list := vcf_list; m_cnt := c; m_stderr := err; m_out := o |}.
Proof.
  intros Hflag. unfold process_read. rewrite Hflag.
  destruct (synchronize _ _ _ _ _ _) as [[[[vcf_fp vcf_rec] ret] vcf_list] err].
  destruct (if (0 <? length vcf_list)%nat then _ else _) as [[[st c] err'] o].
  now exists c, err', o.
Qed.

(** The loop over the reads [pre], then the read [b]: what the window of
    [b] holds of the source. *)
Lemma main_loop_accounted (vcf : list (bcf1 F)) (pre : list bam1) (b : bam1)
    (m0 : process F) (lost0 : list (bcf1 F)) (tid0 pos0 : Z) :
  accounted vcf m0 lost0 tid0 pos0 ->
  StronglySorted starts_not_after (pre ++ [b]) ->
  Forall (fun b' => is_var1_before_var2 (core_tid b') (core_pos b') tid0 pos0 = false)
    (pre ++ [b]) ->
  flag_set b 0x900 = false ->
  fst (main_loop defallelefrac pre m0) = Running ->
  forall v, In v vcf ->
    is_var1_before_var2 (rid v) (pos v) (core_tid b) (core_pos b) = false ->
    is_var1_before_var2 (rid v) (pos v) (core_tid b) (bam_endpos b) = true ->
    In v (window_of b (snd (main_loop defallelefrac pre m0)))
    \/ In v (lost0 ++ all_read_by_skip_ahead defallelefrac (pre ++ [b]) m0).
Proof.
  revert m0 lost0 tid0 pos0.
  induction pre as [|b0 rest IH]; intros m0 lost0 tid0 pos0 Hacc Hsorted Hlow Hflag Hrun
    v Hv Hstart Hend.
  - cbn [main_loop snd app all_read_by_skip_ahead]. rewrite Hflag.
    apply Forall_inv in Hlow.
    pose proof (synchronize_accounted vcf b m0 lost0 tid0 pos0 Hacc Hlow) as Hsync.
    unfold window_of.
    destruct (synchronize _ _ _ _ _ _) as [[[[vcf_fp vcf_rec] ret] vcf_list] err].
    cbn [fst snd].
    destruct (Hsync (m_cnt m0) err (m_out m0)) as [(_ & _ & Hall) Hfp].
    cbn [m_vcf_fp m_vcf_list] in Hall.
    destruct (Hall v Hv) as [Hin|[Hin|[Hin|Hin]]].
    + rewrite Forall_forall in Hfp. apply list_elem_of_In in Hin.
      specialize (Hfp v Hin). cbv beta in Hfp. congruence.
    + now left.
    + right. apply in_app_or in Hin as [Hin|Hin]; apply in_or_app; [now left|right].
      apply in_or_app. now left.
    + congruence.
  - cbn [app] in Hsorted, Hlow. apply StronglySorted_inv in Hsorted as [Hsorted Hb0].
    pose proof (Forall_inv Hlow) as Hlow0. apply Forall_inv_tail in Hlow.
    cbn [main_loop app all_read_by_skip_ahead] in *.
    destruct (flag_set b0 2304) eqn:Hflag0.
    + unfold process_read in *. rewrite Hflag0 in *.
      now apply (IH m0 lost0 tid0 pos0).
    + pose proof (synchronize_accounted vcf b0 m0 lost0 tid0 pos0 Hacc Hlow0) as Hsync.
      pose proof (process_read_synchronized b0 m0 Hflag0) as Hstate.
      destruct (synchronize _ _ _ _ _ _) as [[[[vcf_fp vcf_rec] ret] vcf_list] err].
      destruct Hstate as (c & err' & o & Hstate).
      destruct (Hsync c err' o) as [Hacc1 _]. rewrite <- Hstate in Hacc1.
      destruct (process_read defallelefrac b0 m0) as [[|why] m1]; [|discriminate Hrun].
      cbn [snd] in Hacc1.
      rewrite app_assoc.
      apply (IH m1 (lost0 ++ read_by_skip_ahead b0 m0) (core_tid b0) (core_pos b0));
        trivial.
Qed.

(** X29.  What the window can miss over a whole run.  With a sorted variant
    source (no record before the initial record of contig -1) and reads
    sorted by their start, for every read that is processed the window
    holds each variant of the source that is at or after the start of the
    read and before its end, except those that skip-ahead has read, for
    this read or for an earlier one. *)
Theorem window_misses_only_what_skip_ahead_read (vcf : list (bcf1 F)) (pre : list bam1)
    (b : bam1) :
  StronglySorted not_after (vcf_rec_init :: vcf) ->
  StronglySorted starts_not_after (pre ++ [b]) ->
  flag_set b 0x900 = false ->
  fst (main_loop defallelefrac pre (process_init vcf)) = Running ->
  forall v, In v vcf ->
    is_var1_before_var2 (rid v) (pos v) (core_tid b) (core_pos b) = false ->
    is_var1_before_var2 (rid v) (pos v) (core_tid b) (bam_endpos b) = true ->
    In v (window_of b (snd (main_loop defallelefrac pre (process_init vcf))))
    \/ In v (all_read_by_skip_ahead defallelefrac (pre ++ [b]) (process_init vcf)).
Proof.
  intros Hvcf Hsorted Hflag Hrun v Hv Hstart Hend.
  assert (Hreads : exists b1 reads, pre ++ [b] = b1 :: reads)
    by (destruct pre; cbn [app]; eauto).
  destruct Hreads as (b1 & reads & Hreads).
  apply (main_loop_accounted vcf pre b (process_init vcf) [] (core_tid b1) (core_pos b1));
    trivial.
  - split; [exact Hvcf|]. split; [discriminate|]. intros w Hw. now left.
  - rewrite Hreads in Hsorted |- *. apply StronglySorted_inv in Hsorted as [_ Hrest].
    constructor; [unfold is_var1_before_var2; lia|exact Hrest].
Qed.
End Accounted.

Lemma window_misses_only_what_skip_ahead_read_witness :
  In snv_102
    (window_of read_AACC
       (snd (main_loop DEFAULT_ALLELE_FRAC [read_AC; read_ACGT]
               (process_init [snv_50; snv_100; snv_101; snv_102; snv_200]))))
  \/ In snv_102
       (all_read_by_skip_ahead DEFAULT_ALLELE_FRAC ([read_AC; read_ACGT] ++ [read_AACC])
          (process_init [snv_50; snv_100; snv_101; snv_102; snv_200])).
Proof.
  apply (window_misses_only_what_skip_ahead_read DEFAULT_ALLELE_FRAC
           [snv_50; snv_100; snv_101; snv_102; snv_200] [read_AC; read_ACGT] read_AACC).
  - repeat constructor.
  - repeat constructor.
  - reflexivity.
  - reflexivity.
  - cbn [In]. tauto.
  - reflexivity.
  - reflexivity.
Defined.

(** In the run of the witness skip-ahead reads the variants at 50 and 100,
    and the window of the third read holds the three variants of its span
    that follow them. *)
Lemma lost_and_kept_in_a_run :
  all_read_by_skip_ahead DEFAULT_ALLELE_FRAC [read_AC; read_ACGT; read_AACC]
    (process_init [snv_50; snv_100; snv_101; snv_102; snv_200])
  = [snv_50; snv_100]
  /\ window_of read_AACC
       (snd (main_loop DEFAULT_ALLELE_FRAC [read_AC; read_ACGT]
               (process_init [snv_50; snv_100; snv_101; snv_102; snv_200])))
     = [snv_101; snv_102; snv_200].
Proof. vm_compute. split; reflexivity. Qed.

(** ** A substitution of a sorted window is written at its position *)

Lemma with_ref_lookup (r0 : Z) (part : list (N * ascii)) (k : nat) (p : N * ascii) :
  part !! k = Some p -> with_ref r0 part !! k = Some (Some (r0 + Z.of_nat k), p).
Proof.
  revert r0 k. induction part as [|x rest IH]; intros r0 k Hk; [discriminate|].
  destruct k as [|k]; cbn [with_ref].
  - cbn in Hk. injection Hk as ->. cbn. now rewrite Z.add_0_r.
  - cbn in Hk. change (with_ref (r0 + 1) rest !! k = Some (Some (r0 + Z.of_nat (S k)), p)).
    rewrite (IH (r0 + 1) k Hk). do 3 f_equal. lia.
Qed.

(** Every reference position under a match operation of a read that is as
    long as its operations say has a query position aligned with it. *)
Lemma aligned_with_ref_covers (q r0 : Z) (cigar : list N) (query : list (N * ascii))
    (r : Z) :
  0 <= q -> q + bam_cigar2qlen cigar <= Z.of_nat (length query) ->
  matched_from r0 cigar r = true ->
  exists i p, aligned_with_ref q r0 cigar query !! i = Some (Some r, p).
Proof.
  revert q r0. induction cigar as [|c rest IH]; intros q r0 Hq Hlen Hr;
    cbn [matched_from aligned_with_ref bam_cigar2qlen] in *; [discriminate|].
  pose proof (bam_cigar2qlen_nonneg rest) as Hrest.
  pose proof (bam_cigar_oplen_nonneg c) as Hnn.
  apply orb_prop in Hr as [Hr|Hr].
  - apply andb_prop in Hr as [Hr Hhi]. apply andb_prop in Hr as [Hm Hlo].
    rewrite Hm.
    assert (Hcq : consumes_query (bam_cigar_op c) = true).
    { unfold is_match, consumes_query in *.
      destruct (bam_cigar_op c =? BAM_CMATCH); [reflexivity|].
      destruct (bam_cigar_op c =? BAM_CEQUAL); [apply orb_true_iff; left; apply orb_true_r|].
      destruct (bam_cigar_op c =? BAM_CDIFF); [apply orb_true_r|discriminate]. }
    rewrite Hcq in Hlen.
    set (part := take (Z.to_nat (bam_cigar_oplen c)) (drop (Z.to_nat q) query)).
    assert (Hpart : length part = Z.to_nat (bam_cigar_oplen c)).
    { unfold part. rewrite length_take, length_drop. lia. }
    destruct (lookup_lt_is_Some_2 part (Z.to_nat (r - r0))) as [p Hp]; [lia|].
    exists (Z.to_nat (r - r0)), p.
    rewrite lookup_app_l by (rewrite <- (with_ref_snd r0 part), length_map in Hpart; lia).
    rewrite (with_ref_lookup r0 part _ p Hp). do 3 f_equal. lia.
  - destruct (IH (q + (if consumes_query (bam_cigar_op c) then bam_cigar_oplen c else 0))
                (r0 + (if consumes_ref (bam_cigar_op c) then bam_cigar_oplen c else 0)))
      as (i & p & Hi); [destruct (consumes_query _); lia|lia|exact Hr|].
    match goal with |- context [(?l1 ++ _) !! _] => exists (length l1 + i)%nat, p;
      rewrite lookup_app_r by lia;
      replace (length l1 + i - length l1)%nat with i by lia end.
    exact Hi.
Qed.

Lemma StronglySorted_suffix {A : Type} (R : A -> A -> Prop) (l1 l2 : list A) :
  StronglySorted R (l1 ++ l2) -> StronglySorted R l2.
Proof.
  induction l1 as [|x l1 IH]; cbn [app]; [trivial|].
  intros Hs. apply StronglySorted_inv in Hs as [Hs _]. now apply IH.
Qed.

Section WrittenVariant.
Context {F : Type} `{Double F}.
Variable mutprob : F.
Variable defallelefrac : F.

(** In a sorted window, the iterator stops at the variant of a contig and
    position when the window has one; when it has one only and the
    fraction of the read does not exceed its allele fraction, that variant
    is the one applied at the position. *)
Lemma window_variant_at_sorted (vcf_list : list (bcf1 F)) (v : bcf1 F) :
  StronglySorted not_after vcf_list ->
  In v vcf_list ->
  (forall w, In w vcf_list -> rid w = rid v -> pos w = pos v -> w = v) ->
  dle mutprob (dadd dzero (own_allelefrac defallelefrac v)) = true ->
  window_variant_at mutprob defallelefrac vcf_list (rid v) (pos v) = Some v.
Proof.
  intros Hsorted Hin Huniq Hle. unfold window_variant_at.
  destruct (advance_it_skipped (rid v) (pos v) vcf_list 0) as (skipped & Hs & Hbefore).
  pose proof (advance_it_head (rid v) (pos v) vcf_list 0) as Hhead.
  destruct (fst (advance_it (rid v) (pos v) vcf_list 0)) as [|first rest].
  - exfalso. rewrite app_nil_r in Hs. subst skipped.
    rewrite Forall_forall in Hbefore. apply list_elem_of_In in Hin.
    specialize (Hbefore v Hin). unfold is_var1_before_var2 in Hbefore. lia.
  - specialize (Hhead first rest eq_refl).
    assert (Hfirst : first = v).
    { rewrite Hs in Hin. apply in_app_or in Hin as [Hin|[Hin|Hin]].
      - exfalso. rewrite Forall_forall in Hbefore. apply list_elem_of_In in Hin.
        specialize (Hbefore v Hin). unfold is_var1_before_var2 in Hbefore. lia.
      - exact Hin.
      - rewrite Hs in Hsorted. apply StronglySorted_suffix in Hsorted.
        apply StronglySorted_inv in Hsorted as [_ Hrest].
        rewrite Forall_forall in Hrest. apply list_elem_of_In in Hin.
        specialize (Hrest v Hin). unfold not_after, is_var1_before_var2 in Hrest, Hhead.
        apply Huniq; [rewrite Hs; apply in_or_app; right; now left|lia|lia]. }
    subst first. rewrite Z.eqb_refl. cbn [run_of]. rewrite !Z.eqb_refl. cbn [andb].
    apply first_qualifying_some. exists [], (run_of v rest).
    split; [reflexivity|]. split; [exact Hle|]. intros k Hk. cbn in Hk. lia.
Qed.

(** X30.  A substitution of a sorted window is written at its position.
    When the engine can walk the read, every variant of the window has as
    many reference as alternate bases and the window is in the order of the
    source, a variant of the read's contig that is the only one of the
    window at its position, that the fraction of the read does not exceed,
    and whose position is under a match operation of the read, is written:
    the position has a query position aligned with it, and at every such
    place the bases written have the first letter of the alternate allele,
    under the quality of the read. *)
Theorem substitution_of_a_sorted_window_is_written (b : bam1) (vcf_list : list (bcf1 F))
    (c : counters) (err : list diag) (v : bcf1 F) :
  walkable b ->
  Forall (fun v => strlen (allele0 v) = strlen (allele1 v)) vcf_list ->
  StronglySorted not_after vcf_list ->
  In v vcf_list ->
  rid v = core_tid b ->
  (forall w, In w vcf_list -> rid w = rid v -> pos w = pos v -> w = v) ->
  dle mutprob (dadd dzero (own_allelefrac defallelefrac v)) = true ->
  matched_from (core_pos b) (bam_get_cigar b) (pos v) = true ->
  exists e, mutate b mutprob defallelefrac vcf_list c err = (Running, e)
            /\ (exists i p, aligned_with_ref 0 (core_pos b) (bam_get_cigar b) (bam_query b)
                            !! i = Some (Some (pos v), p))
            /\ forall (i : nat) p,
                 aligned_with_ref 0 (core_pos b) (bam_get_cigar b) (bam_query b) !! i
                 = Some (Some (pos v), p) ->
                 newseq e !! i = Some (hd NUL (allele1 v))
                 /\ newqual e !! i = Some (snd p).
Proof.
  intros Hwalk Hsub Hsorted Hin Hrid Huniq Hle Hmatched.
  destruct (mutate_substitutions b mutprob defallelefrac vcf_list c err Hwalk Hsub)
    as (e & Hrun & Hq & Hs & _).
  exists e. split; [exact Hrun|]. split.
  - destruct Hwalk as [_ Hlen]. unfold l_qseq in Hlen.
    apply aligned_with_ref_covers; [lia|lia|exact Hmatched].
  - intros i p Hi. rewrite Hs, Hq, <- (aligned_with_ref_snd 0 (core_pos b)).
    rewrite map_map, !list_lookup_fmap, Hi. cbn [fmap option_fmap option_map].
    split; [|reflexivity]. unfold spiked_base.
    now rewrite <- Hrid, (window_variant_at_sorted vcf_list v Hsorted Hin Huniq Hle).
Qed.
End WrittenVariant.

Lemma substitution_of_a_sorted_window_is_written_witness :
  exists e, mutate read_ACGT 0%Q DEFAULT_ALLELE_FRAC [mnv_100; snv_102] no_counts []
            = (Running, e)
            /\ (exists i p, aligned_with_ref 0 (core_pos read_ACGT) (bam_get_cigar read_ACGT)
                              (bam_query read_ACGT) !! i = Some (Some (pos snv_102), p))
            /\ forall (i : nat) p,
                 aligned_with_ref 0 (core_pos read_ACGT) (bam_get_cigar read_ACGT)
                   (bam_query read_ACGT) !! i = Some (Some (pos snv_102), p) ->
                 newseq e !! i = Some (hd NUL (allele1 snv_102))
                 /\ newqual e !! i = Some (snd p).
Proof.
  apply (substitution_of_a_sorted_window_is_written 0%Q DEFAULT_ALLELE_FRAC read_ACGT
           [mnv_100; snv_102] no_counts [] snv_102).
  - split; [reflexivity|vm_compute; discriminate].
  - repeat (apply List.Forall_cons; [reflexivity|]). apply List.Forall_nil.
  - repeat constructor.
  - cbn [In]. tauto.
  - reflexivity.
  - intros w [<-|[<-|[]]]; [discriminate|reflexivity].
  - reflexivity.
  - reflexivity.
Defined.
